(** * magnet-webdav: session registry, metadata synchronizer and range handler

    A shallow embedding of the Go sources of magnet-webdav
    (package [services]: [TorrentService]; package [handlers]: [APIHandler]
    and [WebDAVHandler]) together with theorems about the identifier
    derivation, the catalog reconciliation, the byte-range framing and the
    cache validator.

    Conventions.
    - A Go [string] is a byte string; it is modelled by [string], whose
      characters are the 256 byte values.  [String.length] is Go's [len].
    - [int64] and [int] values are modelled by [Z]; arithmetic on [int64]
      goes through [wrap64].
    - A Go [map] is a [gmap]; a table of the persistence engine scanned in
      storage order is a [list] of rows.
    - A run-time panic is the [None] of an [option] result. *)

From Stdlib Require Import ZArith Ascii String List.
From Stdlib Require Import Numbers.DecimalString Numbers.HexadecimalString.
From Stdlib Require Import Numbers.HexadecimalZ Numbers.HexadecimalPos.
From Stdlib Require Numbers.DecimalPos.
From stdpp Require Import base option list gmap strings fin_maps.
From stdpp Require Import relations.

Local Open Scope Z_scope.
Local Open Scope string_scope.

(** ** Go primitives used by the sources *)

Module Go.

(** [int64] wrap-around (two's complement). *)
Definition wrap64 (z : Z) : Z := (z + 2 ^ 63) mod 2 ^ 64 - 2 ^ 63.

Definition MaxInt64 : Z := 2 ^ 63 - 1.
Definition MinInt64 : Z := - 2 ^ 63.

(** [len(s)] *)
Definition len (s : string) : Z := Z.of_nat (String.length s).

(** [strings.HasPrefix] *)
Definition HasPrefix (s p : string) : bool := String.prefix p s.

Fixpoint drop_bytes (n : nat) (s : string) : string :=
  match n, s with
  | O, _ => s
  | S n', String _ s' => drop_bytes n' s'
  | S _, EmptyString => EmptyString
  end.

Fixpoint take_bytes (n : nat) (s : string) : string :=
  match n, s with
  | O, _ => EmptyString
  | S n', String c s' => String c (take_bytes n' s')
  | S _, EmptyString => EmptyString
  end.

(** [strings.TrimPrefix] *)
Definition TrimPrefix (s p : string) : string :=
  if HasPrefix s p then drop_bytes (String.length p) s else s.

(** [strings.Split(s, sep)] for a one-byte separator (the sources split on
    ["/"] and ["-"] only).  The result is never empty:
    [Split "" sep = [""]]. *)
Fixpoint Split (s : string) (sep : ascii) : list string :=
  match s with
  | EmptyString => [EmptyString]
  | String c s' =>
      if Ascii.eqb c sep then EmptyString :: Split s' sep
      else match Split s' sep with
           | [] => [String c EmptyString]
           | p :: ps => String c p :: ps
           end
  end.

(** [strings.Join(parts, sep)] *)
Fixpoint Join (parts : list string) (sep : string) : string :=
  match parts with
  | [] => EmptyString
  | [p] => p
  | p :: ps => p ++ sep ++ Join ps sep
  end.

(** Index of the last occurrence of the byte [c] in [s], counted from
    offset [i]; [None] when there is none. *)
Fixpoint last_index_from (s : string) (c : ascii) (i : Z) : option Z :=
  match s with
  | EmptyString => None
  | String d s' =>
      match last_index_from s' c (i + 1) with
      | Some j => Some j
      | None => if Ascii.eqb d c then Some i else None
      end
  end.

(** [strings.LastIndex(s, sep)] for a one-byte [sep]; [-1] when absent. *)
Definition LastIndex (s : string) (sep : ascii) : Z :=
  default (-1) (last_index_from s sep 0).

(** The slice expression [s[i:]]: it panics unless [0 <= i <= len(s)]. *)
Definition slice_from (s : string) (i : Z) : option string :=
  if bool_decide (0 <= i <= len s) then Some (drop_bytes (Z.to_nat i) s)
  else None.

(** The slice expression [s[:n]] for a constant [n] within bounds. *)
Definition slice_to (s : string) (n : Z) : option string :=
  if bool_decide (0 <= n <= len s) then Some (take_bytes (Z.to_nat n) s)
  else None.

Definition lower_byte (c : ascii) : ascii :=
  let n := nat_of_ascii c in
  if bool_decide (65 <= n <= 90)%nat then ascii_of_nat (n + 32) else c.

(** [strings.ToLower] on byte strings: upper-case ASCII letters are
    mapped to lower case, every other byte is kept (Go's behaviour on
    ASCII text). *)
Fixpoint ToLower (s : string) : string :=
  match s with
  | EmptyString => EmptyString
  | String c s' => String (lower_byte c) (ToLower s')
  end.

Definition digit_val (c : ascii) : option Z :=
  let n := nat_of_ascii c in
  if bool_decide (48 <= n <= 57)%nat then Some (Z.of_nat n - 48) else None.

Fixpoint parse_digits (s : string) (acc : Z) : option Z :=
  match s with
  | EmptyString => Some acc
  | String c s' =>
      match digit_val c with
      | Some d => parse_digits s' (10 * acc + d)
      | None => None
      end
  end.

(** [strconv.ParseInt(s, 10, 64)]: an optional sign followed by at least
    one decimal digit; [None] stands for both [ErrSyntax] and [ErrRange]. *)
Definition ParseInt (s : string) : option Z :=
  match s with
  | EmptyString => None
  | String c s' =>
      let '(neg, ds) :=
        if Ascii.eqb c "+" then (false, s')
        else if Ascii.eqb c "-" then (true, s')
        else (false, s) in
      match ds with
      | EmptyString => None
      | _ =>
          match parse_digits ds 0 with
          | Some n =>
              if neg then (if bool_decide (n <= 2 ^ 63) then Some (- n) else None)
              else (if bool_decide (n <= MaxInt64) then Some n else None)
          | None => None
          end
      end
  end.

(** [strconv.FormatInt(n, 10)] and the verb [%d]. *)
Definition FormatInt (n : Z) : string :=
  DecimalString.NilZero.string_of_int (Z.to_int n).

(** The verb [%x] applied to an integer. *)
Definition FormatHex (n : Z) : string :=
  HexadecimalString.NilZero.string_of_int (Z.to_hex_int n).

Definition hex_val (c : ascii) : option nat :=
  let n := nat_of_ascii c in
  if bool_decide (48 <= n <= 57)%nat then Some (n - 48)%nat
  else if bool_decide (97 <= n <= 102)%nat then Some (n - 87)%nat
  else if bool_decide (65 <= n <= 70)%nat then Some (n - 55)%nat
  else None.

(** [url.PathUnescape]: every [%] must be followed by two hexadecimal
    digits, which it replaces by the byte they denote; [+] is kept.
    [None] is the [EscapeError]. *)
Fixpoint PathUnescape (s : string) : option string :=
  match s with
  | EmptyString => Some EmptyString
  | String c s' =>
      if Ascii.eqb c "%" then
        match s' with
        | String a (String b rest) =>
            match hex_val a, hex_val b with
            | Some x, Some y =>
                match PathUnescape rest with
                | Some r => Some (String (ascii_of_nat (16 * x + y)) r)
                | None => None
                end
            | _, _ => None
            end
        | _ => None
        end
      else
        match PathUnescape s' with
        | Some r => Some (String c r)
        | None => None
        end
  end.

End Go.

(** ** [crypto/sha1] and [encoding/hex] *)

Module sha1.

Definition w32 (z : Z) : Z := z mod 2 ^ 32.

Definition rotl (n : Z) (x : Z) : Z :=
  w32 (Z.lor (Z.shiftl x n) (Z.shiftr x (32 - n))).

Definition bytes_of (s : string) : list Z :=
  (fun c => Z.of_nat (nat_of_ascii c)) <$> list_ascii_of_string s.

(** Big-endian bytes of the low [8 * n] bits of [z]. *)
Fixpoint be_bytes (n : nat) (z : Z) : list Z :=
  match n with
  | O => []
  | S n' => Z.land (Z.shiftr z (8 * Z.of_nat n')) 255 :: be_bytes n' z
  end.

(** The message followed by [0x80], zero bytes up to 56 modulo 64, and the
    bit length as a 64-bit big-endian integer. *)
Definition pad (msg : list Z) : list Z :=
  let l := Z.of_nat (length msg) in
  let zeros := Z.to_nat ((55 - l) mod 64) in
  msg ++ [128] ++ replicate zeros 0 ++ be_bytes 8 (8 * l).

Fixpoint be_words (fuel : nat) (bs : list Z) : list Z :=
  match fuel, bs with
  | S fuel', b0 :: b1 :: b2 :: b3 :: rest =>
      (b0 * 2 ^ 24 + b1 * 2 ^ 16 + b2 * 2 ^ 8 + b3) :: be_words fuel' rest
  | _, _ => []
  end.

(** The message schedule, most recent word first. *)
Fixpoint schedule (n : nat) (ws : list Z) : list Z :=
  match n with
  | O => ws
  | S n' =>
      let w := rotl 1 (Z.lxor (Z.lxor (nth 2 ws 0) (nth 7 ws 0))
                              (Z.lxor (nth 13 ws 0) (nth 15 ws 0))) in
      schedule n' (w :: ws)
  end.

Definition digest : Type := Z * Z * Z * Z * Z.

Definition init : digest :=
  (0x67452301, 0xEFCDAB89, 0x98BADCFE, 0x10325476, 0xC3D2E1F0).

Definition round (t : nat) (st : digest) (w : Z) : digest :=
  let '(a, b, c, d, e) := st in
  let '(f, k) :=
    if bool_decide (t < 20)%nat then
      (Z.lor (Z.land b c) (Z.land (Z.lxor b 0xFFFFFFFF) d), 0x5A827999)
    else if bool_decide (t < 40)%nat then
      (Z.lxor (Z.lxor b c) d, 0x6ED9EBA1)
    else if bool_decide (t < 60)%nat then
      (Z.lor (Z.lor (Z.land b c) (Z.land b d)) (Z.land c d), 0x8F1BBCDC)
    else (Z.lxor (Z.lxor b c) d, 0xCA62C1D6) in
  (w32 (rotl 5 a + f + e + k + w), a, rotl 30 b, c, d).

Fixpoint rounds (t : nat) (ws : list Z) (st : digest) : digest :=
  match ws with
  | [] => st
  | w :: ws' => rounds (S t) ws' (round t st w)
  end.

Definition block (st : digest) (blk : list Z) : digest :=
  let ws := rev (schedule 64 (rev (be_words 16 blk))) in
  let '(a, b, c, d, e) := rounds 0 ws st in
  let '(h0, h1, h2, h3, h4) := st in
  (w32 (h0 + a), w32 (h1 + b), w32 (h2 + c), w32 (h3 + d), w32 (h4 + e)).

Fixpoint blocks (fuel : nat) (st : digest) (bs : list Z) : digest :=
  match fuel, bs with
  | S fuel', _ :: _ => blocks fuel' (block st (take 64 bs)) (drop 64 bs)
  | _, _ => st
  end.

(** [sha1.Sum(data)]: the 20 bytes of the digest. *)
Definition Sum (data : string) : list Z :=
  let bs := pad (bytes_of data) in
  let '(h0, h1, h2, h3, h4) := blocks (length bs) init bs in
  be_bytes 4 h0 ++ be_bytes 4 h1 ++ be_bytes 4 h2 ++ be_bytes 4 h3
    ++ be_bytes 4 h4.

Definition hex_digit (n : Z) : ascii :=
  ascii_of_nat (Z.to_nat (if bool_decide (n < 10) then 48 + n else 87 + n)).

(** [hex.EncodeToString]: two lower-case hexadecimal digits per byte. *)
Fixpoint EncodeToString (bs : list Z) : string :=
  match bs with
  | [] => EmptyString
  | b :: bs' =>
      String (hex_digit (Z.shiftr b 4 mod 16))
        (String (hex_digit (b mod 16)) (EncodeToString bs'))
  end.

End sha1.

(** ** Package [path] *)

Module path.

(** [path.Ext]: the loop [for i := len(path)-1; i >= 0 && path[i] != '/'; i--]
    with [n] standing for [i + 1]. *)
Fixpoint ext_loop (n : nat) (p : string) : string :=
  match n with
  | O => EmptyString
  | S i =>
      match String.get i p with
      | Some c =>
          if Ascii.eqb c "/" then EmptyString
          else if Ascii.eqb c "." then Go.drop_bytes i p
          else ext_loop i p
      | None => EmptyString
      end
  end.

Definition Ext (p : string) : string := ext_loop (String.length p) p.

Fixpoint strip_trailing_slashes (p : string) : string :=
  match p with
  | EmptyString => EmptyString
  | String c p' =>
      match strip_trailing_slashes p' with
      | EmptyString => if Ascii.eqb c "/" then EmptyString else String c EmptyString
      | r => String c r
      end
  end.

(** [path.Base] *)
Definition Base (p : string) : string :=
  if String.eqb p "" then "."
  else
    let p1 := strip_trailing_slashes p in
    let i := Go.LastIndex p1 "/" in
    let p2 := if bool_decide (0 <= i) then Go.drop_bytes (Z.to_nat (i + 1)) p1 else p1 in
    if String.eqb p2 "" then "/" else p2.

End path.

(** ** Package [models] *)

Module Magnet.
Record t : Type := mk {
  ID : string;            (* infoHash, primary key *)
  MagnetURI : string;
  Name : string;
  TotalSize : Z;
  FileCount : Z;
  Status : string;
  CreatedAt : Z;
  UpdatedAt : Z;
  LastAccessed : Z;
  AccessCount : Z
}.
End Magnet.

Module File.
Record t : Type := mk {
  ID : Z;                 (* primary key, auto-increment *)
  MagnetID : string;
  FilePath : string;
  FileName : string;
  FileSize : Z;
  FileIndex : Z;
  MimeType : string;
  CreatedAt : Z;
  UpdatedAt : Z
}.
End File.

(** ** The swarm engine ([github.com/anacrolix/torrent]) as the sources use it *)

Module torrent.

(** A file reported by the engine: [Path()], [Length()] and the bytes a
    reader on it delivers. *)
Record File : Type := mkFile {
  Path : string;
  Length : Z;
  Data : string
}.

(** The metadata of a torrent once resolved. *)
Record Info : Type := mkInfo {
  InfoName : string;
  InfoFiles : list File
}.

(** The engine-side state behind a [*torrent.Torrent]: [Info() == nil]
    until the metadata has been received. *)
Record Torrent : Type := mkTorrent {
  info : option Info
}.

Definition Name (t : Torrent) : string :=
  match info t with Some i => InfoName i | None => "" end.

Definition Files (t : Torrent) : list File :=
  match info t with Some i => InfoFiles i | None => [] end.

(** [Torrent.Length()]: the total of the file lengths. *)
Definition TotalLength (t : Torrent) : Z :=
  foldr (fun f acc => Length f + acc) 0 (Files t).

(** A [torrent.Reader]: the file it reads and its position. *)
Record Reader : Type := mkReader {
  rfile : File;
  pos : Z;
  readahead : Z;
  closed : bool
}.

Definition NewReader (f : File) : Reader :=
  {| rfile := f; pos := 0; readahead := 0; closed := false |}.

(** [reader.Seek(off, 0)] *)
Definition Seek (r : Reader) (off : Z) : Reader :=
  {| rfile := rfile r; pos := off; readahead := readahead r; closed := closed r |}.

Definition SetReadahead (r : Reader) (n : Z) : Reader :=
  {| rfile := rfile r; pos := pos r; readahead := n; closed := closed r |}.

(** The bytes a read of at most [n] bytes delivers from the current
    position (none when the position is outside the file). *)
Definition read_n (r : Reader) (n : Z) : string :=
  if bool_decide (0 <= pos r) then
    Go.take_bytes (Z.to_nat n) (Go.drop_bytes (Z.to_nat (pos r)) (Data (rfile r)))
  else EmptyString.

End torrent.

(** ** Package [services]: the torrent service *)

Module services.

(** Go's [(value, error)] results. *)
Inductive result (A : Type) : Type :=
  | Ok (a : A)
  | Err (msg : string).
Arguments Ok {A} a.
Arguments Err {A} msg.

(** The persisted catalog behind [*gorm.DB]: the [magnets] table keyed by
    its primary key, the [files] table in storage order, and the
    auto-increment sequence of [files.id]. *)
Record DB : Type := mkDB {
  magnets : gmap string Magnet.t;
  files : list File.t;
  files_seq : Z
}.

(** Goroutines started with [go]. *)
Inductive task : Type :=
  | go_addTorrentToClient (magnetURI infoHash : string)
  | go_updateAccessStats (infoHash : string).

(** [TorrentService].  A [*torrent.Torrent] is a handle into the engine's
    own store [client]; [activeTorrents] maps identifiers to handles, and
    [ctx_done] tells whether [cancel] has been called. *)
Record TorrentService : Type := mk {
  db : DB;
  client : gmap nat torrent.Torrent;
  activeTorrents : gmap string nat;
  ctx_done : bool
}.

Definition with_db (s : TorrentService) (d : DB) : TorrentService :=
  {| db := d; client := client s; activeTorrents := activeTorrents s;
     ctx_done := ctx_done s |}.

Definition with_magnets (d : DB) (ms : gmap string Magnet.t) : DB :=
  {| magnets := ms; files := files d; files_seq := files_seq d |}.

Definition with_files (d : DB) (fs : list File.t) : DB :=
  {| magnets := magnets d; files := fs; files_seq := files_seq d |}.

(** [NewTorrentService] on an opened database. *)
Definition NewTorrentService (d : DB) : TorrentService :=
  {| db := d; client := ∅; activeTorrents := ∅; ctx_done := false |}.

(** The engine state a handle points to; a handle the engine does not
    know has no metadata. *)
Definition deref (s : TorrentService) (h : nat) : torrent.Torrent :=
  default (torrent.mkTorrent None) (client s !! h).

(** [Stop]: cancel the context, drop every registered session, clear the
    map, close the client. *)
Definition Stop (s : TorrentService) : TorrentService :=
  {| db := db s; client := ∅; activeTorrents := ∅; ctx_done := true |}.

(** The leftmost match of the regular expression [btih:([^&]+)]: its
    first group. *)
Fixpoint take_until_amp (s : string) : string :=
  match s with
  | EmptyString => EmptyString
  | String c s' => if Ascii.eqb c "&" then EmptyString else String c (take_until_amp s')
  end.

Fixpoint FindStringSubmatch_btih (s : string) : option string :=
  match s with
  | EmptyString => None
  | String _ s' =>
      if Go.HasPrefix s "btih:" then
        match take_until_amp (Go.drop_bytes 5 s) with
        | EmptyString => FindStringSubmatch_btih s'
        | tok => Some tok
        end
      else FindStringSubmatch_btih s'
  end.

(** [extractInfoHash].  The digest has 20 bytes, so its hexadecimal form
    has 40 characters and the slice [[:20]] is within bounds. *)
Definition extractInfoHash (magnetURI : string) : string :=
  match FindStringSubmatch_btih magnetURI with
  | Some tok => Go.ToLower tok
  | None => Go.take_bytes 20 (sha1.EncodeToString (sha1.Sum magnetURI))
  end.

Definition mimeTypes : gmap string string :=
  list_to_map [
    (".mp4", "video/mp4"); (".mkv", "video/x-matroska");
    (".avi", "video/x-msvideo"); (".mov", "video/quicktime");
    (".webm", "video/webm"); (".jpg", "image/jpeg"); (".png", "image/png");
    (".srt", "text/plain"); (".ass", "text/plain") ].

(** [getMimeType], the method of [TorrentService] *)
Definition getMimeType (filename : string) : string :=
  let ext := Go.ToLower (path.Ext filename) in
  match mimeTypes !! ext with
  | Some mime => mime
  | None => "application/octet-stream"
  end.

(** [updateMagnetStatus]: [Updates] on the rows with [id = infoHash]. *)
Definition updateMagnetStatus (s : TorrentService)
    (infoHash status errorMsg : string) (now : Z) : TorrentService :=
  let upd (m : Magnet.t) : Magnet.t :=
    {| Magnet.ID := Magnet.ID m;
       Magnet.MagnetURI := Magnet.MagnetURI m;
       Magnet.Name := if String.eqb errorMsg "" then Magnet.Name m else errorMsg;
       Magnet.TotalSize := Magnet.TotalSize m;
       Magnet.FileCount := Magnet.FileCount m;
       Magnet.Status := status;
       Magnet.CreatedAt := Magnet.CreatedAt m;
       Magnet.UpdatedAt := now;
       Magnet.LastAccessed := Magnet.LastAccessed m;
       Magnet.AccessCount := Magnet.AccessCount m |} in
  with_db s (with_magnets (db s) (alter upd infoHash (magnets (db s)))).

(** [updateAccessStats] *)
Definition updateAccessStats (s : TorrentService) (infoHash : string)
    (now : Z) : TorrentService :=
  let upd (m : Magnet.t) : Magnet.t :=
    {| Magnet.ID := Magnet.ID m;
       Magnet.MagnetURI := Magnet.MagnetURI m;
       Magnet.Name := Magnet.Name m;
       Magnet.TotalSize := Magnet.TotalSize m;
       Magnet.FileCount := Magnet.FileCount m;
       Magnet.Status := Magnet.Status m;
       Magnet.CreatedAt := Magnet.CreatedAt m;
       Magnet.UpdatedAt := now;
       Magnet.LastAccessed := now;
       Magnet.AccessCount := Go.wrap64 (Magnet.AccessCount m + 1) |} in
  with_db s (with_magnets (db s) (alter upd infoHash (magnets (db s)))).

(** [AddMagnet]: the service after the call, the returned record or
    error, and the goroutines it started. *)
Definition AddMagnet (s : TorrentService) (magnetURI : string) (now : Z)
    : TorrentService * result Magnet.t * list task :=
  let infoHash := extractInfoHash magnetURI in
  match magnets (db s) !! infoHash with
  | Some existingMagnet => (s, Ok existingMagnet, [])
  | None =>
      let magnet :=
        {| Magnet.ID := infoHash;
           Magnet.MagnetURI := magnetURI;
           Magnet.Name := "";
           Magnet.TotalSize := 0;
           Magnet.FileCount := 0;
           Magnet.Status := "pending";
           Magnet.CreatedAt := now;
           Magnet.UpdatedAt := now;
           Magnet.LastAccessed := now;
           Magnet.AccessCount := 0 |} in
      (with_db s (with_magnets (db s) (<[infoHash := magnet]> (magnets (db s)))),
       Ok magnet,
       [go_addTorrentToClient magnetURI infoHash])
  end.

(** [GetTorrent]: [None] is the nil pointer. *)
Definition GetTorrent (s : TorrentService) (infoHash : string) : option nat :=
  activeTorrents s !! infoHash.

Definition GetActiveTorrentCount (s : TorrentService) : Z :=
  Z.of_nat (size (activeTorrents s)).

(** [restoreActiveTorrents]: one acquisition per record in state ready. *)
Definition restoreActiveTorrents (s : TorrentService) : list task :=
  (fun m => go_addTorrentToClient (Magnet.MagnetURI m) (Magnet.ID m))
    <$> filter (fun m => Magnet.Status m = "ready")
          ((map_to_list (magnets (db s))).*2).

(** The first file whose path is [filePath]. *)
Fixpoint find_file (fs : list torrent.File) (filePath : string)
    : option torrent.File :=
  match fs with
  | [] => None
  | f :: fs' =>
      if String.eqb (torrent.Path f) filePath then Some f
      else find_file fs' filePath
  end.

(** [GetFileStream] *)
Definition GetFileStream (s : TorrentService) (infoHash filePath : string)
    (start end_ : Z) : result (torrent.File * torrent.Reader) * list task :=
  match GetTorrent s infoHash with
  | None => (Err ("torrent not found: " ++ infoHash), [])
  | Some h =>
      let torr := deref s h in
      match torrent.info torr with
      | None => (Err ("torrent not ready: " ++ infoHash), [])
      | Some _ =>
          let files := torrent.Files torr in
          match files with
          | [] => (Err ("no files in torrent: " ++ infoHash), [])
          | _ =>
              match find_file files filePath with
              | None =>
                  (Err ("file not found: " ++ filePath ++ " in torrent " ++ infoHash), [])
              | Some targetFile =>
                  let reader := torrent.NewReader targetFile in
                  let reader :=
                    if bool_decide (0 < start) then torrent.Seek reader start
                    else reader in
                  (Ok (targetFile, reader), [go_updateAccessStats infoHash])
              end
          end
      end
  end.


(** *** The metadata synchronizer *)

(** The local variables of [handleTorrentReady] during its walk over
    [torr.Files()]. *)
Record sync : Type := mkSync {
  existingFileMap : gmap string File.t;
  seenFiles : gmap string bool;
  filesToCreate : list File.t;
  filesToUpdate : list File.t
}.

(** The comparison of a persisted row with the reported length, index and
    media type: the row to save, and whether it needs saving. *)
Definition compare_file (existingFile : File.t) (size i : Z)
    (mimeType : string) (now : Z) : File.t * bool :=
  let size_changed := negb (Z.eqb (File.FileSize existingFile) size) in
  let index_changed := negb (Z.eqb (File.FileIndex existingFile) i) in
  let mime_changed := negb (String.eqb (File.MimeType existingFile) mimeType) in
  let needsUpdate := size_changed || index_changed || mime_changed in
  ({| File.ID := File.ID existingFile;
      File.MagnetID := File.MagnetID existingFile;
      File.FilePath := File.FilePath existingFile;
      File.FileName := File.FileName existingFile;
      File.FileSize := if size_changed then size else File.FileSize existingFile;
      File.FileIndex := if index_changed then i else File.FileIndex existingFile;
      File.MimeType := if mime_changed then mimeType else File.MimeType existingFile;
      File.CreatedAt := File.CreatedAt existingFile;
      File.UpdatedAt := if needsUpdate then now else File.UpdatedAt existingFile |},
   needsUpdate).

(** The body of the loop for a path met for the first time: it is marked
    as seen, then staged as a create, staged as an update, or left alone,
    and an existing row is removed from the lookup either way. *)
Definition stage_file (infoHash : string) (now : Z) (st : sync) (i : Z)
    (file : torrent.File) : sync :=
  let filePath := torrent.Path file in
  let seen := <[filePath := true]> (seenFiles st) in
  let mimeType := getMimeType filePath in
  let newFile :=
    {| File.ID := 0;
       File.MagnetID := infoHash;
       File.FilePath := filePath;
       File.FileName := path.Base filePath;
       File.FileSize := torrent.Length file;
       File.FileIndex := i;
       File.MimeType := mimeType;
       File.CreatedAt := now;
       File.UpdatedAt := 0 |} in
  match existingFileMap st !! filePath with
  | Some existingFile =>
      let '(updatedFile, needsUpdate) :=
        compare_file existingFile (torrent.Length file) i mimeType now in
      {| existingFileMap := delete filePath (existingFileMap st);
         seenFiles := seen;
         filesToCreate := filesToCreate st;
         filesToUpdate :=
           if needsUpdate then filesToUpdate st ++ [updatedFile]
           else filesToUpdate st |}
  | None =>
      {| existingFileMap := existingFileMap st;
         seenFiles := seen;
         filesToCreate := filesToCreate st ++ [newFile];
         filesToUpdate := filesToUpdate st |}
  end.

(** One iteration of [for i, file := range torr.Files()]: a path already
    seen in this walk is skipped. *)
Definition sync_step (infoHash : string) (now : Z) (st : sync) (i : Z)
    (file : torrent.File) : sync :=
  if default false (seenFiles st !! torrent.Path file) then st
  else stage_file infoHash now st i file.

Fixpoint walk (infoHash : string) (now : Z) (st : sync) (i : Z)
    (fs : list torrent.File) : sync :=
  match fs with
  | [] => st
  | file :: fs' => walk infoHash now (sync_step infoHash now st i file) (i + 1) fs'
  end.

(** [Where("magnet_id = ?", infoHash).Find(&existingFiles)] *)
Definition find_files (d : DB) (infoHash : string) : list File.t :=
  filter (fun f => File.MagnetID f = infoHash) (files d).

(** [for _, file := range existingFiles { existingFileMap[file.FilePath] = file }] *)
Definition index_by_path (existingFiles : list File.t) : gmap string File.t :=
  foldl (fun m f => <[File.FilePath f := f]> m) ∅ existingFiles.

(** The three staged sets of a reconciliation pass over the catalog [d]:
    the state of the walk when it ends. *)
Definition reconcile (d : DB) (torr : torrent.Torrent) (infoHash : string)
    (now : Z) : sync :=
  walk infoHash now
    {| existingFileMap := index_by_path (find_files d infoHash);
       seenFiles := ∅; filesToCreate := []; filesToUpdate := [] |}
    0 (torrent.Files torr).

(** [db.Create(&filesToCreate)]: the rows receive consecutive primary keys
    from the sequence, and their [updated_at] is filled in. *)
Fixpoint number_rows (next : Z) (now : Z) (rows : list File.t) : list File.t :=
  match rows with
  | [] => []
  | f :: rows' =>
      {| File.ID := next;
         File.MagnetID := File.MagnetID f;
         File.FilePath := File.FilePath f;
         File.FileName := File.FileName f;
         File.FileSize := File.FileSize f;
         File.FileIndex := File.FileIndex f;
         File.MimeType := File.MimeType f;
         File.CreatedAt := File.CreatedAt f;
         File.UpdatedAt := now |} :: number_rows (next + 1) now rows'
  end.

Definition Create_files (d : DB) (rows : list File.t) (now : Z) : DB :=
  {| magnets := magnets d;
     files := files d ++ number_rows (files_seq d) now rows;
     files_seq := files_seq d + Z.of_nat (length rows) |}.

(** [db.Save(&file)] for a row read from the table in the same pass: the
    row with that primary key is replaced. *)
Definition Save_file (d : DB) (file : File.t) : DB :=
  with_files d
    ((fun f => if Z.eqb (File.ID f) (File.ID file) then file else f) <$> files d).

(** [db.Where("id IN ?", ids).Delete(&models.File{})] *)
Definition Delete_files (d : DB) (ids : list Z) : DB :=
  with_files d (filter (fun f => File.ID f ∉ ids) (files d)).

(** [handleTorrentReady] *)
Definition handleTorrentReady (s : TorrentService) (torr : torrent.Torrent)
    (infoHash : string) (now : Z) : TorrentService :=
  let upd (m : Magnet.t) : Magnet.t :=
    {| Magnet.ID := Magnet.ID m;
       Magnet.MagnetURI := Magnet.MagnetURI m;
       Magnet.Name := torrent.Name torr;
       Magnet.TotalSize := torrent.TotalLength torr;
       Magnet.FileCount := Z.of_nat (length (torrent.Files torr));
       Magnet.Status := "ready";
       Magnet.CreatedAt := Magnet.CreatedAt m;
       Magnet.UpdatedAt := now;
       Magnet.LastAccessed := Magnet.LastAccessed m;
       Magnet.AccessCount := Magnet.AccessCount m |} in
  let d1 := with_magnets (db s) (alter upd infoHash (magnets (db s))) in
  let st := reconcile d1 torr infoHash now in
  let d2 :=
    match filesToCreate st with
    | [] => d1
    | rows => Create_files d1 rows now
    end in
  let d3 := foldl Save_file d2 (filesToUpdate st) in
  let d4 :=
    if bool_decide (0 < size (existingFileMap st))%nat then
      Delete_files d3 (File.ID <$> (map_to_list (existingFileMap st)).*2)
    else d3 in
  with_db s d4.

(** *** Session acquisition *)

(** What [client.AddMagnet] answers: an error, or the handle of the
    torrent (a new one, or the one the engine already has). *)
Inductive engine_reply : Type :=
  | AddMagnet_err (msg : string)
  | AddMagnet_ok (h : nat).

(** Which case of the [select] in [addTorrentToClient] fires. *)
Inductive select_case : Type :=
  | GotInfo (i : torrent.Info)   (* the engine resolved the metadata [i] *)
  | TimeAfter                    (* [time.After(30 * time.Second)] *)
  | CtxDone.                     (* [s.ctx.Done()] *)

Definition metadata_timeout_seconds : Z := 30.

(** [addTorrentToClient] *)
Definition addTorrentToClient (s : TorrentService)
    (magnetURI infoHash : string) (reply : engine_reply) (ev : select_case)
    (now : Z) : TorrentService :=
  match reply with
  | AddMagnet_err msg => updateMagnetStatus s infoHash "error" msg now
  | AddMagnet_ok h =>
      let torr := deref s h in
      let s1 :=
        {| db := db s;
           client := <[h := torr]> (client s);
           activeTorrents := <[infoHash := h]> (activeTorrents s);
           ctx_done := ctx_done s |} in
      match ev with
      | GotInfo i =>
          let ready := torrent.mkTorrent (Some i) in
          let s2 :=
            {| db := db s1;
               client := <[h := ready]> (client s1);
               activeTorrents := activeTorrents s1;
               ctx_done := ctx_done s1 |} in
          handleTorrentReady s2 ready infoHash now
      | TimeAfter =>
          updateMagnetStatus s1 infoHash "error" "metadata timeout" now
      | CtxDone => s1
      end
  end.

End services.

(** ** Package [handlers] *)

Module handlers.

Import services.

(** The part of [*http.Request] the handlers read. *)
Record Request : Type := mkRequest {
  Method : string;
  URLPath : string;
  Header : gmap string string
}.

(** [r.Header.Get(key)]: the empty string when the header is absent. *)
Definition Header_Get (r : Request) (key : string) : string :=
  default "" (Header r !! key).

(** An [http.ResponseWriter]: the header map, the status line once it has
    been written, and the body written so far. *)
Record ResponseWriter : Type := mkResponse {
  header : gmap string string;
  status : option Z;
  body : string
}.

Definition NewResponse : ResponseWriter :=
  {| header := ∅; status := None; body := "" |}.

Definition StatusOK : Z := 200.
Definition StatusPartialContent : Z := 206.
Definition StatusNotModified : Z := 304.
Definition StatusBadRequest : Z := 400.
Definition StatusNotFound : Z := 404.

(** [w.Header().Set(key, value)] *)
Definition Header_Set (w : ResponseWriter) (key value : string) : ResponseWriter :=
  {| header := <[key := value]> (header w); status := status w; body := body w |}.

(** [w.WriteHeader(code)]: only the first call takes effect. *)
Definition WriteHeader (w : ResponseWriter) (code : Z) : ResponseWriter :=
  match status w with
  | Some _ => w
  | None => {| header := header w; status := Some code; body := body w |}
  end.

(** [w.Write(data)]: writes the status [200] first when none was written. *)
Definition Write (w : ResponseWriter) (data : string) : ResponseWriter :=
  let w := WriteHeader w StatusOK in
  {| header := header w; status := status w; body := body w ++ data |}.

(** The status the client receives: [200] when the handler returns without
    having written one. *)
Definition final_status (w : ResponseWriter) : Z := default StatusOK (status w).

Definition newline : string := String (ascii_of_nat 10) EmptyString.

(** [http.Error(w, msg, code)] *)
Definition http_Error (w : ResponseWriter) (msg : string) (code : Z)
    : ResponseWriter :=
  let w := Header_Set w "Content-Type" "text/plain; charset=utf-8" in
  let w := Header_Set w "X-Content-Type-Options" "nosniff" in
  let w := WriteHeader w code in
  Write w (msg ++ newline).

(** [io.CopyN(w, reader, n)]: nothing is written when no byte is read. *)
Definition CopyN (w : ResponseWriter) (reader : torrent.Reader) (n : Z)
    : ResponseWriter :=
  match torrent.read_n reader n with
  | EmptyString => w
  | data => Write w data
  end.

(** [RemoveMagnet] of [APIHandler]: both deletions go to the database
    obtained from [h.torrentService.DB()]; the answer is status 200. *)
Definition RemoveMagnet (s : TorrentService) (magnetID : string)
    : TorrentService * Z :=
  let d := db s in
  let d1 := with_files d (filter (fun f => File.MagnetID f ≠ magnetID) (files d)) in
  let d2 := with_magnets d1 (delete magnetID (magnets d1)) in
  (with_db s d2, StatusOK).

Record rangeInfo : Type := mkRange { start : Z; end_ : Z }.

(** [parseRangeHeader] *)
Definition parseRangeHeader (rangeHeader : string) : result rangeInfo :=
  if negb (Go.HasPrefix rangeHeader "bytes=") then Err "invalid range header"
  else
    let rangeStr := Go.TrimPrefix rangeHeader "bytes=" in
    match Go.Split rangeStr "-" with
    | [p0; p1] =>
        match Go.ParseInt p0 with
        | None => Err "strconv.ParseInt"
        | Some start =>
            if String.eqb p1 "" then Ok {| start := start; end_ := 0 |}
            else
              match Go.ParseInt p1 with
              | None => Err "strconv.ParseInt"
              | Some e => Ok {| start := start; end_ := e |}
              end
        end
    | _ => Err "invalid range format"
    end.

Definition videoExtensions : gmap string bool :=
  list_to_map [
    (".mp4", true); (".mkv", true); (".avi", true); (".mov", true);
    (".webm", true); (".flv", true); (".wmv", true); (".m4v", true);
    (".3gp", true) ].

(** [isVideoFile]; [None] is the panic of the slice expression
    [filePath[strings.LastIndex(filePath, "."):]]. *)
Definition isVideoFile (filePath : string) : option bool :=
  match Go.slice_from filePath (Go.LastIndex filePath ".") with
  | None => None
  | Some suffix => Some (default false (videoExtensions !! Go.ToLower suffix))
  end.

Definition mimeTypes : gmap string string :=
  list_to_map [
    (".mp4", "video/mp4"); (".mkv", "video/x-matroska");
    (".avi", "video/x-msvideo"); (".mov", "video/quicktime");
    (".webm", "video/webm"); (".jpg", "image/jpeg"); (".png", "image/png");
    (".srt", "text/plain; charset=utf-8");
    (".ass", "text/plain; charset=utf-8");
    (".ssa", "text/plain; charset=utf-8") ].

(** [getMimeType], the function of package [handlers]; [None] is the
    panic of [filename[strings.LastIndex(filename, "."):]]. *)
Definition getMimeType (filename : string) : option string :=
  match Go.slice_from filename (Go.LastIndex filename ".") with
  | None => None
  | Some suffix =>
      match mimeTypes !! Go.ToLower suffix with
      | Some mime => Some mime
      | None => Some "application/octet-stream"
      end
  end.

Definition dquote : string := String (ascii_of_nat 34) EmptyString.

(** [generateETag]: the quoted hexadecimal form of [len(key)]. *)
Definition generateETag (filePath : string) (start end_ : Z) : string :=
  let key := filePath ++ "-" ++ Go.FormatInt start ++ "-" ++ Go.FormatInt end_ in
  dquote ++ Go.FormatHex (Go.len key) ++ dquote.

(** [setCacheHeaders]; [expires] is the formatted time one hour from now. *)
Definition setCacheHeaders (w : ResponseWriter) (r : Request)
    (filePath : string) (start end_ : Z) (expires : string)
    : option ResponseWriter :=
  match isVideoFile filePath with
  | None => None
  | Some video =>
      let cacheControl :=
        if video then
          if Z.eqb start 0 && Z.eqb end_ 0 then "public, max-age=86400"
          else "public, max-age=1800"
        else "public, max-age=3600" in
      let w := Header_Set w "Cache-Control" cacheControl in
      let w := Header_Set w "Access-Control-Allow-Origin" "*" in
      let w := Header_Set w "Access-Control-Allow-Methods" "GET, HEAD, OPTIONS" in
      let w := Header_Set w "Access-Control-Allow-Headers" "Range, Content-Type" in
      let w := Header_Set w "Expires" expires in
      let etag := generateETag filePath start end_ in
      let w := Header_Set w "ETag" etag in
      let ifNoneMatch := Header_Get r "If-None-Match" in
      if negb (String.eqb ifNoneMatch "") && String.eqb ifNoneMatch etag
      then Some (WriteHeader w StatusNotModified)
      else Some w
  end.

(** [handleConditionalRequest]: the writer and the returned boolean. *)
Definition handleConditionalRequest (w : ResponseWriter) (r : Request)
    (filePath : string) (start end_ : Z) (expires : string)
    : option (ResponseWriter * bool) :=
  let etag := generateETag filePath start end_ in
  let w := Header_Set w "ETag" etag in
  match setCacheHeaders w r filePath start end_ expires with
  | None => None
  | Some w =>
      let ifNoneMatch := Header_Get r "If-None-Match" in
      if negb (String.eqb ifNoneMatch "") && String.eqb ifNoneMatch etag
      then Some (WriteHeader w StatusNotModified, true)
      else Some (w, false)
  end.

(** How a call of [handleGet] ends. *)
Inductive outcome : Type :=
  | Panicked
  | Responded (w : ResponseWriter)
  | DirectoryListing (magnetID : string).   (* [serveDirectoryListing] *)

(** [handleGet] on a fresh response writer: how it ends, and the
    goroutines started on the way. *)
Definition handleGet (s : TorrentService) (r : Request) (expires : string)
    : outcome * list task :=
  let w := NewResponse in
  let path := Go.TrimPrefix (URLPath r) "/webdav/" in
  match Go.Split path "/" with
  | [] => (Panicked, [])
  | [p0] => (DirectoryListing p0, [])
  | magnetID :: rest =>
      let encodedFilePath := Go.Join rest "/" in
      match Go.PathUnescape encodedFilePath with
      | None =>
          (Responded (http_Error w "Invalid file path encoding" StatusBadRequest), [])
      | Some filePath =>
          let rangeHeader := Header_Get r "Range" in
          let '(start, end_) :=
            if String.eqb rangeHeader "" then (0, 0)
            else match parseRangeHeader rangeHeader with
                 | Ok parsed => (start parsed, end_ parsed)
                 | Err _ => (0, 0)
                 end in
          match GetFileStream s magnetID filePath start end_ with
          | (Err _, spawned) =>
              (Responded (http_Error w "File not found or not ready" StatusNotFound),
               spawned)
          | (Ok (file, reader), spawned) =>
              match handleConditionalRequest w r filePath start end_ expires with
              | None => (Panicked, spawned)
              | Some (w, true) => (Responded w, spawned)
              | Some (w, false) =>
                  match getMimeType filePath with
                  | None => (Panicked, spawned)
                  | Some mimeType =>
                      let w := Header_Set w "Content-Type" mimeType in
                      let w := Header_Set w "Accept-Ranges" "bytes" in
                      let fileSize := torrent.Length file in
                      let end_ :=
                        if Z.eqb end_ 0 || Z.leb fileSize end_
                        then Go.wrap64 (fileSize - 1) else end_ in
                      let w :=
                        if Z.ltb 0 start || negb (String.eqb rangeHeader "") then
                          let contentLength := Go.wrap64 (Go.wrap64 (end_ - start) + 1) in
                          let w := Header_Set w "Content-Length" (Go.FormatInt contentLength) in
                          let w := Header_Set w "Content-Range"
                                     ("bytes " ++ Go.FormatInt start ++ "-"
                                      ++ Go.FormatInt end_ ++ "/" ++ Go.FormatInt fileSize) in
                          WriteHeader w StatusPartialContent
                        else Header_Set w "Content-Length" (Go.FormatInt fileSize) in
                      let reader := torrent.SetReadahead reader (2 * 1024 * 1024) in
                      let w :=
                        if String.eqb (Method r) "GET" then
                          CopyN w reader (Go.wrap64 (Go.wrap64 (end_ - start) + 1))
                        else w in
                      (Responded w, spawned)
                  end
              end
          end
      end
  end.

End handlers.

(** ** Specification-side definitions *)

Import services.

(** Whether the byte [c] occurs in [s]. *)
Fixpoint has_byte (c : ascii) (s : string) : bool :=
  match s with
  | EmptyString => false
  | String d s' => Ascii.eqb d c || has_byte c s'
  end.

(** The request resolves: the identifier has a registered session whose
    metadata is present and reports a file with that path. *)
Definition resolves (s : TorrentService) (infoHash filePath : string)
    (file : torrent.File) : Prop :=
  ∃ h i, GetTorrent s infoHash = Some h ∧
         torrent.info (deref s h) = Some i ∧
         find_file (torrent.InfoFiles i) filePath = Some file.

(** A service with one live session ["abc"] reporting two files of 100
    bytes each, used to run the handlers on concrete requests. *)
Module Fixtures.

Fixpoint fill (n : nat) (c : ascii) : string :=
  match n with
  | O => EmptyString
  | S n' => String c (fill n' c)
  end.

Definition movie : torrent.File :=
  {| torrent.Path := "movie.bin"; torrent.Length := 100;
     torrent.Data := fill 100 "m" |}.

Definition readme : torrent.File :=
  {| torrent.Path := "README"; torrent.Length := 100;
     torrent.Data := fill 100 "r" |}.

Definition session : torrent.Torrent :=
  {| torrent.info :=
       Some {| torrent.InfoName := "demo"; torrent.InfoFiles := [movie; readme] |} |}.

Definition record : Magnet.t :=
  {| Magnet.ID := "abc"; Magnet.MagnetURI := "magnet:?xt=urn:btih:ABC";
     Magnet.Name := "demo"; Magnet.TotalSize := 200; Magnet.FileCount := 2;
     Magnet.Status := "ready"; Magnet.CreatedAt := 1; Magnet.UpdatedAt := 2;
     Magnet.LastAccessed := 1; Magnet.AccessCount := 0 |}.

Definition row (id : Z) (p : string) (size index : Z) : File.t :=
  {| File.ID := id; File.MagnetID := "abc"; File.FilePath := p;
     File.FileName := p; File.FileSize := size; File.FileIndex := index;
     File.MimeType := "application/octet-stream";
     File.CreatedAt := 1; File.UpdatedAt := 1 |}.

Definition svc : TorrentService :=
  {| db := {| magnets := {[ "abc" := record ]};
              files := [row 1 "movie.bin" 100 0; row 2 "README" 100 1];
              files_seq := 3 |};
     client := {[ 0%nat := session ]};
     activeTorrents := {[ "abc" := 0%nat ]};
     ctx_done := false |}.

Definition get (urlPath : string) (hdr : gmap string string) : handlers.Request :=
  {| handlers.Method := "GET"; handlers.URLPath := urlPath;
     handlers.Header := hdr |}.

End Fixtures.

(** *** The catalog and the reported list *)

(** The key that is unique in the [files] table: owner and path. *)
Definition file_key (f : File.t) : string * string :=
  (File.MagnetID f, File.FilePath f).

(** A well-formed catalog: primary keys are unique and were issued by the
    sequence, and no identifier has two rows with one path. *)
Definition catalog_ok (d : DB) : Prop :=
  NoDup (File.ID <$> files d) ∧
  Forall (fun f => File.ID f < files_seq d) (files d) ∧
  NoDup (file_key <$> files d).

(** The first occurrence of every path of the reported list not yet in
    [seen], with its position. *)
Fixpoint firsts (seen : gmap string bool) (i : Z) (fs : list torrent.File)
    : list (Z * torrent.File) :=
  match fs with
  | [] => []
  | f :: fs' =>
      if default false (seen !! torrent.Path f) then firsts seen (i + 1) fs'
      else (i, f) :: firsts (<[torrent.Path f := true]> seen) (i + 1) fs'
  end.

(** What the saves of the rows [U], in order, make of the row [f]. *)
Definition apply_saves (U : list File.t) (f : File.t) : File.t :=
  foldl (fun f u => if Z.eqb (File.ID f) (File.ID u) then u else f) f U.

(** The row [f] is the entry of the reported [file] at position [i]. *)
Definition reported (infoHash : string) (i : Z) (file : torrent.File)
    (f : File.t) : Prop :=
  File.MagnetID f = infoHash ∧
  File.FilePath f = torrent.Path file ∧
  File.FileSize f = torrent.Length file ∧
  File.FileIndex f = i ∧
  File.MimeType f = getMimeType (torrent.Path file).

(** The creates and the updates staged for a list of first occurrences,
    given the lookup [M] of persisted rows. *)
Definition creates_of (infoHash : string) (now : Z) (M : gmap string File.t)
    (FL : list (Z * torrent.File)) : list File.t :=
  omap (fun kf : Z * torrent.File =>
          match M !! torrent.Path kf.2 with
          | Some _ => None
          | None =>
              Some {| File.ID := 0;
                      File.MagnetID := infoHash;
                      File.FilePath := torrent.Path kf.2;
                      File.FileName := path.Base (torrent.Path kf.2);
                      File.FileSize := torrent.Length kf.2;
                      File.FileIndex := kf.1;
                      File.MimeType := getMimeType (torrent.Path kf.2);
                      File.CreatedAt := now;
                      File.UpdatedAt := 0 |}
          end) FL.

Definition updates_of (now : Z) (M : gmap string File.t)
    (FL : list (Z * torrent.File)) : list File.t :=
  omap (fun kf : Z * torrent.File =>
          match M !! torrent.Path kf.2 with
          | Some e =>
              let '(u, b) := compare_file e (torrent.Length kf.2) kf.1
                               (getMimeType (torrent.Path kf.2)) now in
              if b then Some u else None
          | None => None
          end) FL.

Abbreviation path_of := (fun kf : Z * torrent.File => torrent.Path kf.2).

(** Two rows that agree on everything a reconciliation compares. *)
Definition same_entry (f r : File.t) : Prop :=
  File.MagnetID f = File.MagnetID r ∧ File.FilePath f = File.FilePath r ∧
  File.FileSize f = File.FileSize r ∧ File.FileIndex f = File.FileIndex r ∧
  File.MimeType f = File.MimeType r.

(** The catalog {a:10, b:20} of the identifier ["abc"], and reports given
    as lists of (path, length). *)
Module Example.

Definition prior : TorrentService :=
  NewTorrentService
    {| magnets := {[ "abc" := Fixtures.record ]};
       files := [Fixtures.row 1 "a" 10 0; Fixtures.row 2 "b" 20 1];
       files_seq := 3 |}.

Definition report (fs : list (string * Z)) : torrent.Torrent :=
  {| torrent.info :=
       Some {| torrent.InfoName := "demo";
               torrent.InfoFiles :=
                 (fun pl : string * Z =>
                    {| torrent.Path := pl.1; torrent.Length := pl.2;
                       torrent.Data := "" |}) <$> fs |} |}.

Definition summary (f : File.t) : string * Z * Z :=
  (File.FilePath f, File.FileSize f, File.FileIndex f).
End Example.

(** *** Requests, operations and goroutines *)

(** The URL of the request names a file: after the prefix [/webdav/] it
    has at least two elements, the first is the identifier and the others,
    joined again and unescaped, are the file path.  This is the branch of
    [handleGet] that goes on to [GetFileStream]. *)
Definition routes_to (r : handlers.Request) (magnetID filePath : string) : Prop :=
  ∃ p1 rest,
    Go.Split (Go.TrimPrefix (handlers.URLPath r) "/webdav/") "/" = magnetID :: p1 :: rest ∧
    Go.PathUnescape (Go.Join (p1 :: rest) "/") = Some filePath.

(** The same request sent with the method [m]. *)
Definition with_method (r : handlers.Request) (m : string) : handlers.Request :=
  {| handlers.Method := m; handlers.URLPath := handlers.URLPath r;
     handlers.Header := handlers.Header r |}.

(** The pair [(start, end)] that [handleGet] passes on: zero when there is
    no [Range] header or [parseRangeHeader] refuses it. *)
Definition requested_range (r : handlers.Request) : Z * Z :=
  let rangeHeader := handlers.Header_Get r "Range" in
  if String.eqb rangeHeader "" then (0, 0)
  else match handlers.parseRangeHeader rangeHeader with
       | Ok parsed => (handlers.start parsed, handlers.end_ parsed)
       | Err _ => (0, 0)
       end.

(** The last position served for a file of [size] bytes when the request
    carries the end [e]. *)
Definition last_served (size e : Z) : Z :=
  if Z.eqb e 0 || Z.leb size e then size - 1 else e.

(** One operation of the service or of the API handler, with the engine's
    answers and the clock as parameters. *)
Inductive step (s : TorrentService) : TorrentService → Prop :=
  | step_AddMagnet (magnetURI : string) (now : Z) :
      step s (AddMagnet s magnetURI now).1.1
  | step_addTorrentToClient (magnetURI infoHash : string) (reply : engine_reply)
      (ev : select_case) (now : Z) :
      step s (addTorrentToClient s magnetURI infoHash reply ev now)
  | step_updateAccessStats (infoHash : string) (now : Z) :
      step s (updateAccessStats s infoHash now)
  | step_RemoveMagnet (magnetID : string) :
      step s (handlers.RemoveMagnet s magnetID).1
  | step_Stop : step s (Stop s).

(** Every record of the [magnets] table is stored under its own [ID]. *)
Definition keyed (d : DB) : Prop :=
  ∀ k m, magnets d !! k = Some m → Magnet.ID m = k.

(** The identifier a goroutine works on. *)
Definition task_id (t : task) : string :=
  match t with
  | go_addTorrentToClient _ infoHash => infoHash
  | go_updateAccessStats infoHash => infoHash
  end.

(** * Properties *)

(** ** Byte strings *)

Lemma string_app_length (a b : string) :
  String.length (a ++ b) = (String.length a + String.length b)%nat.
Proof. induction a as [|c a IH]; simpl; [done | by rewrite IH]. Qed.

Lemma string_app_inj_r (a b c : string) : a ++ c = b ++ c → a = b.
Proof.
  revert b. induction a as [|x a IH]; intros [|y b] H; simpl in H.
  - done.
  - apply (f_equal String.length) in H.
    rewrite !string_app_length in H. simpl in H. lia.
  - apply (f_equal String.length) in H.
    rewrite !string_app_length in H. simpl in H. lia.
  - injection H as -> H. f_equal. by apply IH.
Qed.

Lemma string_app_inj_l (c a b : string) : c ++ a = c ++ b → a = b.
Proof.
  induction c as [|x c IH]; intros H.
  - exact H.
  - apply IH. change (String x (c ++ a) = String x (c ++ b)) in H. congruence.
Qed.

Lemma FormatHex_inj (a b : Z) : Go.FormatHex a = Go.FormatHex b → a = b.
Proof.
  unfold Go.FormatHex. intros H.
  assert (Hnn : ∀ z, Z.to_hex_int z ≠ Hexadecimal.Pos Hexadecimal.Nil ∧
                     Z.to_hex_int z ≠ Hexadecimal.Neg Hexadecimal.Nil).
  { intros [|p|p]; simpl; split; try discriminate;
      intros [= E]; by apply (Unsigned.to_uint_nonnil p). }
  apply (f_equal HexadecimalString.NilZero.int_of_string) in H.
  rewrite !HexadecimalString.NilZero.isi in H by apply Hnn.
  injection H as H.
  rewrite <- (HexadecimalZ.of_to a), <- (HexadecimalZ.of_to b). by rewrite H.
Qed.

Lemma generateETag_eq_iff (p q : string) (s e : Z) :
  handlers.generateETag p s e = handlers.generateETag q s e
  ↔ String.length p = String.length q.
Proof.
  unfold handlers.generateETag, Go.len. split.
  - intros H. apply string_app_inj_l, string_app_inj_r, FormatHex_inj in H.
    apply Nat2Z.inj in H.
    rewrite !string_app_length in H. lia.
  - intros H. by rewrite !string_app_length, H.
Qed.

(** ** The media-type helpers on paths without a dot *)

Lemma last_index_from_absent (s : string) (c : ascii) (i : Z) :
  has_byte c s = false → Go.last_index_from s c i = None.
Proof.
  revert i. induction s as [|d s IH]; intros i H; simpl in *; [done|].
  apply orb_false_iff in H as [Hd Hs].
  by rewrite (IH _ Hs), Hd.
Qed.

Lemma slice_at_LastIndex_absent (s : string) (c : ascii) :
  has_byte c s = false → Go.slice_from s (Go.LastIndex s c) = None.
Proof.
  intros H. unfold Go.LastIndex. rewrite (last_index_from_absent _ _ _ H).
  unfold Go.slice_from. case_bool_decide as Hb; [|done].
  simpl in Hb. lia.
Qed.

Lemma isVideoFile_dotless (filePath : string) :
  has_byte "." filePath = false → handlers.isVideoFile filePath = None.
Proof.
  intros H. unfold handlers.isVideoFile.
  by rewrite (slice_at_LastIndex_absent _ _ H).
Qed.

Lemma getMimeType_dotless (filename : string) :
  has_byte "." filename = false → handlers.getMimeType filename = None.
Proof.
  intros H. unfold handlers.getMimeType.
  by rewrite (slice_at_LastIndex_absent _ _ H).
Qed.

Lemma last_index_from_present (s : string) (c : ascii) (i : Z) :
  has_byte c s = true →
  ∃ j, Go.last_index_from s c i = Some j ∧ i <= j < i + Go.len s.
Proof.
  revert i. unfold Go.len.
  induction s as [|d s IH]; intros i H; simpl in H; [done|].
  cbn [Go.last_index_from String.length].
  destruct (has_byte c s) eqn:Hs.
  - destruct (IH (i + 1) eq_refl) as (j & -> & Hj). exists j. split; [done | lia].
  - rewrite (last_index_from_absent _ _ _ Hs).
    rewrite orb_false_r in H. rewrite H. exists i. split; [done | lia].
Qed.

Lemma isVideoFile_dotted (filePath : string) :
  has_byte "." filePath = true → is_Some (handlers.isVideoFile filePath).
Proof.
  intros H. unfold handlers.isVideoFile, Go.LastIndex, Go.slice_from.
  destruct (last_index_from_present _ _ 0 H) as (j & -> & Hj). simpl.
  rewrite bool_decide_eq_true_2 by lia. eauto.
Qed.

(** ** Resolution of a request *)

Lemma GetFileStream_resolves (s : TorrentService) (infoHash filePath : string)
    (file : torrent.File) (a b : Z) :
  resolves s infoHash filePath file →
  ∃ reader, GetFileStream s infoHash filePath a b
            = (Ok (file, reader), [go_updateAccessStats infoHash]).
Proof.
  intros (h & i & Hh & Hi & Hf). unfold GetFileStream.
  rewrite Hh, Hi. unfold torrent.Files. rewrite Hi.
  destruct (torrent.InfoFiles i) as [|f fs] eqn:E; [done|].
  rewrite Hf. eauto.
Qed.

(** ** The conditional request *)

Lemma WriteHeader_fresh (w : handlers.ResponseWriter) (code : Z) :
  handlers.status w = None →
  handlers.status (handlers.WriteHeader w code) = Some code ∧
  handlers.body (handlers.WriteHeader w code) = handlers.body w.
Proof. intros H. unfold handlers.WriteHeader. by rewrite H. Qed.

Lemma WriteHeader_written (w : handlers.ResponseWriter) (code code' : Z) :
  handlers.status w = Some code → handlers.WriteHeader w code' = w.
Proof. intros H. unfold handlers.WriteHeader. by rewrite H. Qed.

Lemma generateETag_nonempty (p : string) (s e : Z) :
  String.eqb (handlers.generateETag p s e) "" = false.
Proof. done. Qed.

(** With a path that has an extension, a request whose [If-None-Match]
    is the validator of its own triple is answered 304 and nothing is
    written to the body. *)
Lemma handleConditionalRequest_match (w : handlers.ResponseWriter)
    (r : handlers.Request) (filePath : string) (a b : Z) (expires : string) :
  has_byte "." filePath = true →
  handlers.status w = None →
  handlers.Header_Get r "If-None-Match" = handlers.generateETag filePath a b →
  ∃ w', handlers.handleConditionalRequest w r filePath a b expires = Some (w', true)
        ∧ handlers.status w' = Some handlers.StatusNotModified
        ∧ handlers.body w' = handlers.body w.
Proof.
  intros Hdot Hw Hinm.
  destruct (isVideoFile_dotted _ Hdot) as [v Hv].
  unfold handlers.handleConditionalRequest, handlers.setCacheHeaders.
  rewrite Hv, Hinm, generateETag_nonempty, String.eqb_refl. simpl.
  eexists. split; [reflexivity|].
  match goal with |- context [handlers.WriteHeader ?x handlers.StatusNotModified] =>
    match x with
    | handlers.Header_Set _ _ _ =>
        destruct (WriteHeader_fresh x handlers.StatusNotModified Hw) as [Hs Hb]
    end
  end.
  rewrite (WriteHeader_written _ _ _ Hs). by rewrite Hs, Hb.
Qed.

Lemma handleConditionalRequest_dotless (w : handlers.ResponseWriter)
    (r : handlers.Request) (filePath : string) (a b : Z) (expires : string) :
  has_byte "." filePath = false →
  handlers.handleConditionalRequest w r filePath a b expires = None.
Proof.
  intros H. unfold handlers.handleConditionalRequest, handlers.setCacheHeaders.
  by rewrite (isVideoFile_dotless _ H).
Qed.

(** C9.  The media-type derivation of the handler is partial: on a file
    path without a ['.'] both [isVideoFile] and [getMimeType] slice the
    path at index [-1] and panic, and a GET that resolves to such a file
    (the session is registered, has metadata and reports the path) ends in
    a panic instead of a response. *)
Theorem C9_dotless_path_panics (s : TorrentService) (r : handlers.Request)
    (expires magnetID p1 filePath : string) (rest : list string)
    (file : torrent.File) :
  has_byte "." filePath = false →
  Go.Split (Go.TrimPrefix (handlers.URLPath r) "/webdav/") "/" = magnetID :: p1 :: rest →
  Go.PathUnescape (Go.Join (p1 :: rest) "/") = Some filePath →
  resolves s magnetID filePath file →
  handlers.isVideoFile filePath = None ∧
  handlers.getMimeType filePath = None ∧
  (handlers.handleGet s r expires).1 = handlers.Panicked.
Proof.
  intros Hdot Hsplit Hunesc Hres.
  split; [by apply isVideoFile_dotless|]. split; [by apply getMimeType_dotless|].
  unfold handlers.handleGet. rewrite Hsplit, Hunesc.
  destruct (if String.eqb (handlers.Header_Get r "Range") "" then (0, 0)
            else match handlers.parseRangeHeader (handlers.Header_Get r "Range") with
                 | Ok parsed => (handlers.start parsed, handlers.end_ parsed)
                 | Err _ => (0, 0)
                 end) as [a b].
  destruct (GetFileStream_resolves s magnetID filePath file a b Hres) as [reader ->].
  by rewrite (handleConditionalRequest_dotless _ _ _ _ _ _ Hdot).
Qed.

(** The file [README] of the live session ["abc"]. *)
Lemma C9_dotless_path_panics_witness :
  handlers.isVideoFile "README" = None ∧
  handlers.getMimeType "README" = None ∧
  (handlers.handleGet Fixtures.svc (Fixtures.get "/webdav/abc/README" ∅) "").1
    = handlers.Panicked.
Proof.
  apply (C9_dotless_path_panics Fixtures.svc _ "" "abc" "README" "README" []
           Fixtures.readme).
  - reflexivity.
  - reflexivity.
  - reflexivity.
  - exists 0%nat, {| torrent.InfoName := "demo";
                     torrent.InfoFiles := [Fixtures.movie; Fixtures.readme] |}.
    split; [reflexivity|]. split; reflexivity.
Defined.

(** C1.  The handler on a 100-byte file.  With [Range: bytes=0-0] the
    parsed end [0] is taken for a missing end and replaced by [length - 1]:
    the answer is partial content with [Content-Range: bytes 0-99/100],
    [Content-Length: 100] and all 100 bytes, not the single byte asked
    for.  Without a [Range] header the answer has status 200,
    [Content-Length: 100], no [Content-Range] and all 100 bytes. *)
Theorem C1_range_0_0_returns_whole_file (expires : string) :
  (∃ w, (handlers.handleGet Fixtures.svc
           (Fixtures.get "/webdav/abc/movie.bin" {[ "Range" := "bytes=0-0" ]})
           expires).1 = handlers.Responded w
        ∧ handlers.final_status w = handlers.StatusPartialContent
        ∧ handlers.header w !! "Content-Range" = Some "bytes 0-99/100"
        ∧ handlers.header w !! "Content-Length" = Some "100"
        ∧ handlers.body w = torrent.Data Fixtures.movie
        ∧ String.length (handlers.body w) = 100%nat)
  ∧ (∃ w, (handlers.handleGet Fixtures.svc
             (Fixtures.get "/webdav/abc/movie.bin" ∅) expires).1
          = handlers.Responded w
        ∧ handlers.final_status w = handlers.StatusOK
        ∧ handlers.header w !! "Content-Length" = Some "100"
        ∧ handlers.header w !! "Content-Range" = None
        ∧ handlers.body w = torrent.Data Fixtures.movie
        ∧ String.length (handlers.body w) = 100%nat).
Proof.
  split; eexists; (split; [vm_compute; reflexivity|]); vm_compute; done.
Qed.

(** Two distinct paths of equal length share their validator. *)
Lemma C3_counterexample :
  "a.mp4" ≠ "b.mp4" ∧
  handlers.generateETag "a.mp4" 0 0 = handlers.generateETag "b.mp4" 0 0.
Proof. split; [discriminate | reflexivity]. Qed.

(** C3, as the code has it.  For one (start, end) pair, two paths get the
    same validator exactly when they have the same length in bytes: the
    validator is the quoted hexadecimal length of the key, not the key. *)
Theorem C3_validator_depends_on_path_length (p q : string) (a b : Z) :
  handlers.generateETag p a b = handlers.generateETag q a b
  ↔ String.length p = String.length q.
Proof. apply generateETag_eq_iff. Qed.

(** C8.  A GET for the file [README] whose [If-None-Match] is the
    validator of its own (path, start, end) triple panics in
    [setCacheHeaders] before any status is written, whereas the same
    request for [movie.bin] is answered 304 with an empty body. *)
Theorem C8_matching_validator_on_dotless_path_panics (expires : string) :
  (handlers.handleGet Fixtures.svc
     (Fixtures.get "/webdav/abc/README"
        {[ "If-None-Match" := handlers.generateETag "README" 0 0 ]}) expires).1
    = handlers.Panicked
  ∧ (∃ w, (handlers.handleGet Fixtures.svc
             (Fixtures.get "/webdav/abc/movie.bin"
                {[ "If-None-Match" := handlers.generateETag "movie.bin" 0 0 ]})
             expires).1 = handlers.Responded w
          ∧ handlers.final_status w = handlers.StatusNotModified
          ∧ handlers.body w = "").
Proof.
  split; [vm_compute; reflexivity|].
  eexists. split; [vm_compute; reflexivity|]. vm_compute. done.
Qed.

(** ** Identifier derivation *)

Lemma be_bytes_length (n : nat) (z : Z) : length (sha1.be_bytes n z) = n.
Proof. induction n as [|n IH]; simpl; [done | by rewrite IH]. Qed.

Lemma Sum_length (data : string) : length (sha1.Sum data) = 20%nat.
Proof.
  unfold sha1.Sum.
  destruct (sha1.blocks _ _ _) as [[[[h0 h1] h2] h3] h4].
  by rewrite !length_app, !be_bytes_length.
Qed.

Lemma EncodeToString_length (bs : list Z) :
  String.length (sha1.EncodeToString bs) = (2 * length bs)%nat.
Proof. induction bs as [|b bs IH]; simpl; [done | rewrite IH; lia]. Qed.

Lemma take_bytes_length (n : nat) (s : string) :
  (n ≤ String.length s)%nat → String.length (Go.take_bytes n s) = n.
Proof.
  revert s. induction n as [|n IH]; intros [|c s] H; simpl in *; try done; try lia.
  rewrite IH; [done | lia].
Qed.

Lemma fallback_identifier_length (magnetURI : string) :
  String.length (Go.take_bytes 20 (sha1.EncodeToString (sha1.Sum magnetURI))) = 20%nat.
Proof.
  apply take_bytes_length. rewrite EncodeToString_length, Sum_length. lia.
Qed.

Lemma prefix_app (a x : string) : String.prefix a (a ++ x) = true.
Proof.
  induction a as [|c a IH]; [by destruct x|].
  change (String.prefix (String c a) (String c (a ++ x)) = true).
  simpl. by destruct (ascii_dec c c).
Qed.

Lemma drop_bytes_app (a x : string) : Go.drop_bytes (String.length a) (a ++ x) = x.
Proof. induction a as [|c a IH]; [by destruct x | exact IH]. Qed.

Lemma take_until_amp_token (tok rest : string) :
  has_byte "&" tok = false →
  rest = "" ∨ (∃ r, rest = String "&" r) →
  take_until_amp (tok ++ rest) = tok.
Proof.
  intros Htok Hrest. induction tok as [|c tok IH].
  - destruct Hrest as [-> | [r ->]]; reflexivity.
  - simpl in Htok. apply orb_false_iff in Htok as [Hc Htok].
    change (take_until_amp (String c (tok ++ rest)) = String c tok).
    simpl. rewrite Hc. by rewrite IH.
Qed.

(** The group captured by the regular expression when the first
    occurrence of [btih:] is followed by a non-empty token that ends at
    the next [&] or at the end of the text. *)
Lemma FindStringSubmatch_btih_first (pre tok rest : string) :
  (∀ k, (k < String.length pre)%nat →
        Go.HasPrefix (Go.drop_bytes k (pre ++ "btih:" ++ tok ++ rest)) "btih:" = false) →
  tok ≠ "" →
  has_byte "&" tok = false →
  rest = "" ∨ (∃ r, rest = String "&" r) →
  FindStringSubmatch_btih (pre ++ "btih:" ++ tok ++ rest) = Some tok.
Proof.
  intros Hpre Htok Hamp Hrest. induction pre as [|c pre IH].
  - change (FindStringSubmatch_btih (String "b" ("tih:" ++ tok ++ rest)) = Some tok).
    cbn [FindStringSubmatch_btih].
    change (String "b" ("tih:" ++ tok ++ rest)) with ("btih:" ++ (tok ++ rest)).
    unfold Go.HasPrefix. rewrite prefix_app.
    rewrite (drop_bytes_app "btih:"), take_until_amp_token by done.
    by destruct tok.
  - change (FindStringSubmatch_btih (String c (pre ++ "btih:" ++ tok ++ rest)) = Some tok).
    cbn [FindStringSubmatch_btih].
    assert (H0 : Go.HasPrefix (String c (pre ++ "btih:" ++ tok ++ rest)) "btih:" = false).
    { apply (Hpre 0%nat). simpl. lia. }
    rewrite H0. apply IH.
    intros k Hk. apply (Hpre (S k)). simpl. lia.
Qed.

(** ** Submission *)

Lemma AddMagnet_existing (s : TorrentService) (uri : string) (now : Z) (m : Magnet.t) :
  magnets (db s) !! extractInfoHash uri = Some m →
  AddMagnet s uri now = (s, Ok m, []).
Proof. intros H. unfold AddMagnet. by rewrite H. Qed.

(** C4.  The identifier is a function of the URI alone: the lower-cased
    token that follows the first [btih:] up to the next [&], and, when the
    regular expression matches nowhere, the first 20 hexadecimal digits of
    the SHA-1 of the URI text.  Submitting a URI leaves a record under its
    identifier and touches no other record; submitting it again, at once
    or in any later state that still holds a record under that identifier,
    returns the persisted record, leaves the service as it is and starts
    no goroutine. *)
Theorem C4_AddMagnet_idempotent (s : TorrentService) (uri : string) (now1 now2 : Z) :
  let id := extractInfoHash uri in
  let s1 := (AddMagnet s uri now1).1.1 in
  (∀ pre tok rest,
      uri = pre ++ "btih:" ++ tok ++ rest →
      (∀ k, (k < String.length pre)%nat →
            Go.HasPrefix (Go.drop_bytes k uri) "btih:" = false) →
      tok ≠ "" → has_byte "&" tok = false →
      rest = "" ∨ (∃ r, rest = String "&" r) →
      id = Go.ToLower tok) ∧
  (FindStringSubmatch_btih uri = None →
      id = Go.take_bytes 20 (sha1.EncodeToString (sha1.Sum uri)) ∧
      String.length id = 20%nat) ∧
  (∃ m, (AddMagnet s uri now1).1.2 = Ok m ∧
        magnets (db s1) !! id = Some m ∧
        (∀ id', id' ≠ id → magnets (db s1) !! id' = magnets (db s) !! id') ∧
        AddMagnet s1 uri now2 = (s1, Ok m, [])) ∧
  (∀ s' m', magnets (db s') !! id = Some m' →
            AddMagnet s' uri now2 = (s', Ok m', [])).
Proof.
  intros id s1. split; [|split; [|split]].
  - intros pre tok rest -> Hpre Htok Hamp Hrest. unfold id, extractInfoHash.
    by rewrite FindStringSubmatch_btih_first.
  - intros Hnone. unfold id, extractInfoHash. rewrite Hnone.
    split; [done | apply fallback_identifier_length].
  - unfold s1, AddMagnet. fold id.
    destruct (magnets (db s) !! id) as [m|] eqn:E; simpl.
    + exists m. rewrite E. by repeat split.
    + eexists. split; [reflexivity|]. rewrite lookup_insert_eq.
      split; [done|]. split; [|done].
      intros id' Hne. by rewrite lookup_insert_ne.
  - intros s' m' H. by apply AddMagnet_existing.
Qed.

(** A magnet link with a [btih] token, and a text without one. *)
Lemma C4_AddMagnet_idempotent_witness :
  let uri := "magnet:?xt=urn:btih:ABCDEF&dn=x" in
  let s1 := (AddMagnet (NewTorrentService (mkDB ∅ [] 1)) uri 5).1.1 in
  extractInfoHash uri = "abcdef" ∧
  String.length (extractInfoHash "not a magnet") = 20%nat ∧
  (∃ m, magnets (db s1) !! "abcdef" = Some m ∧ AddMagnet s1 uri 9 = (s1, Ok m, [])).
Proof.
  intros uri s1.
  destruct (C4_AddMagnet_idempotent (NewTorrentService (mkDB ∅ [] 1)) uri 5 9)
    as (Htok & _ & (m & _ & Hm & _ & _) & Hany).
  destruct (C4_AddMagnet_idempotent (NewTorrentService (mkDB ∅ [] 1)) "not a magnet" 5 9)
    as (_ & Hfall & _).
  split; [|split].
  - apply (Htok "magnet:?xt=urn:" "ABCDEF" "&dn=x").
    + reflexivity.
    + intros k Hk. do 15 (destruct k as [|k]; [reflexivity|]). simpl in Hk. lia.
    + discriminate.
    + reflexivity.
    + right. by exists "dn=x".
  - apply Hfall. vm_compute. reflexivity.
  - exists m. split; [exact Hm|]. apply Hany. exact Hm.
Defined.

(** ** Timeout of the acquisition *)

(** C2, as the code has it.  When the timer fires first, the record of
    the identifier (if there is one) gets status [error] and the name
    [metadata timeout], and the file rows are untouched; but the session
    was put in the map before the wait and stays there: [GetTorrent]
    returns it, and [GetFileStream] answers "torrent not ready" as long as
    the engine has no metadata for it. *)
Theorem C2_timeout_leaves_session_registered (s : TorrentService)
    (uri id : string) (h : nat) (now : Z) :
  let s' := addTorrentToClient s uri id (AddMagnet_ok h) TimeAfter now in
  activeTorrents s' !! id = Some h ∧
  GetTorrent s' id = Some h ∧
  files (db s') = files (db s) ∧
  (∀ m, magnets (db s) !! id = Some m →
        ∃ m', magnets (db s') !! id = Some m' ∧
              Magnet.Status m' = "error" ∧
              Magnet.Name m' = "metadata timeout" ∧
              Magnet.UpdatedAt m' = now) ∧
  (torrent.info (deref s h) = None →
   ∀ p a b, GetFileStream s' id p a b = (Err ("torrent not ready: " ++ id), [])).
Proof.
  intros s'. unfold s', addTorrentToClient. unfold GetTorrent. simpl.
  rewrite lookup_insert_eq. repeat split.
  - intros m Hm. rewrite lookup_alter_eq, Hm. simpl. eauto.
  - intros Hinfo p a b. unfold GetFileStream, GetTorrent. simpl.
    rewrite lookup_insert_eq. unfold deref at 1. simpl.
    rewrite lookup_insert_eq. simpl. by rewrite Hinfo.
Qed.

(** After a timeout the record is in state [error], yet the session map
    holds the handle and [GetTorrent] does not return nil. *)
Lemma C2_counterexample :
  let uri := "magnet:?xt=urn:btih:ABCDEF&dn=x" in
  let s0 := (AddMagnet (NewTorrentService (mkDB ∅ [] 1)) uri 5).1.1 in
  let s' := addTorrentToClient s0 uri "abcdef" (AddMagnet_ok 0) TimeAfter 40 in
  Magnet.Status <$> magnets (db s') !! "abcdef" = Some "error" ∧
  activeTorrents s' !! "abcdef" = Some 0%nat ∧
  GetTorrent s' "abcdef" ≠ None.
Proof. vm_compute. repeat split; discriminate. Qed.

(** A submission followed by a timeout of its acquisition. *)
Lemma C2_timeout_leaves_session_registered_witness :
  let uri := "magnet:?xt=urn:btih:ABCDEF&dn=x" in
  let s0 := (AddMagnet (NewTorrentService (mkDB ∅ [] 1)) uri 5).1.1 in
  let s' := addTorrentToClient s0 uri "abcdef" (AddMagnet_ok 0) TimeAfter 40 in
  GetTorrent s' "abcdef" = Some 0%nat ∧
  (∃ m', magnets (db s') !! "abcdef" = Some m' ∧ Magnet.Status m' = "error" ∧
         Magnet.Name m' = "metadata timeout") ∧
  GetFileStream s' "abcdef" "movie.bin" 0 0 = (Err "torrent not ready: abcdef", []).
Proof.
  intros uri s0 s'.
  destruct (C2_timeout_leaves_session_registered s0 uri "abcdef" 0 40)
    as (_ & Hget & _ & Hrec & Hready).
  split; [exact Hget|]. split.
  - destruct (Hrec (Magnet.mk "abcdef" uri "" 0 0 "pending" 5 5 5 0)) as (m' & ? & ? & ? & _).
    + vm_compute. reflexivity.
    + by exists m'.
  - apply Hready. reflexivity.
Defined.

(** ** Explicit removal *)

Lemma GetFileStream_frame (s s' : TorrentService) (id p : string) (a b : Z) :
  activeTorrents s' = activeTorrents s → client s' = client s →
  GetFileStream s' id p a b = GetFileStream s id p a b.
Proof.
  intros Ha Hc. unfold GetFileStream, GetTorrent, deref. by rewrite Ha, Hc.
Qed.

Lemma filter_complement_nil (id : string) (l : list File.t) :
  filter (fun f => File.MagnetID f = id)
    (filter (fun f => File.MagnetID f ≠ id) l) = [].
Proof.
  induction l as [|f l IH]; [done|].
  rewrite filter_cons. case_decide as H; [|exact IH].
  rewrite filter_cons. case_decide; [done | exact IH].
Qed.

Lemma AddMagnet_sessions (s : TorrentService) (uri : string) (now : Z) :
  activeTorrents (AddMagnet s uri now).1.1 = activeTorrents s.
Proof.
  unfold AddMagnet. by destruct (magnets (db s) !! extractInfoHash uri).
Qed.

(** The session map after an acquisition: the handle the engine returned
    is stored under the identifier, whichever case of the [select] fires. *)
Lemma addTorrentToClient_sessions (s : TorrentService) (uri id : string)
    (reply : engine_reply) (ev : select_case) (now : Z) (x : string) :
  GetTorrent (addTorrentToClient s uri id reply ev now) x
  = match reply with
    | AddMagnet_err _ => activeTorrents s !! x
    | AddMagnet_ok h => <[id := h]> (activeTorrents s) !! x
    end.
Proof.
  unfold GetTorrent, addTorrentToClient.
  destruct reply as [msg|h]; [done|]. by destruct ev.
Qed.

(** C10.  [RemoveMagnet] deletes the record and the file rows of the
    identifier and nothing else: the session map and the engine are as
    before, so a registered session is still returned by [GetTorrent] and
    a stream that opened before the removal still opens after it.
    Submissions leave the map as it is, an acquisition only adds or
    replaces an entry, and [Stop] is what empties the map. *)
Theorem C10_RemoveMagnet_keeps_session (s : TorrentService) (id : string) :
  let s' := (handlers.RemoveMagnet s id).1 in
  magnets (db s') !! id = None ∧
  find_files (db s') id = [] ∧
  activeTorrents s' = activeTorrents s ∧
  client s' = client s ∧
  (∀ h, GetTorrent s id = Some h → GetTorrent s' id = Some h) ∧
  (∀ p a b x t, GetFileStream s id p a b = (Ok x, t) →
                GetFileStream s' id p a b = (Ok x, t)) ∧
  (∀ uri now, activeTorrents (AddMagnet s uri now).1.1 = activeTorrents s) ∧
  (∀ uri id' x reply ev now h,
      GetTorrent s x = Some h →
      is_Some (GetTorrent (addTorrentToClient s uri id' reply ev now) x)) ∧
  (∀ x, GetTorrent (Stop s) x = None).
Proof.
  intros s'. unfold s', handlers.RemoveMagnet. simpl.
  split; [apply lookup_delete_eq|].
  split; [apply filter_complement_nil|].
  do 2 (split; [done|]).
  split; [done|].
  split; [intros p a b x t <-; by apply GetFileStream_frame|].
  split; [intros uri now; apply AddMagnet_sessions|].
  split; [|done].
  intros uri id' x reply ev now h Hx. rewrite addTorrentToClient_sessions.
  unfold GetTorrent in Hx. destruct reply as [msg|h']; [by rewrite Hx|].
  destruct (decide (id' = x)) as [->|Hne].
  - rewrite lookup_insert_eq. eauto.
  - rewrite lookup_insert_ne by done. by rewrite Hx.
Qed.

(** Removing the record of the live session ["abc"]. *)
Lemma C10_RemoveMagnet_keeps_session_witness :
  let s' := (handlers.RemoveMagnet Fixtures.svc "abc").1 in
  magnets (db s') !! "abc" = None ∧
  GetTorrent s' "abc" = Some 0%nat ∧
  (∃ reader, GetFileStream s' "abc" "movie.bin" 0 0
             = (Ok (Fixtures.movie, reader), [go_updateAccessStats "abc"])).
Proof.
  intros s'.
  destruct (C10_RemoveMagnet_keeps_session Fixtures.svc "abc")
    as (Hrec & _ & _ & _ & Hget & Hstream & _).
  split; [exact Hrec|]. split.
  - apply Hget. reflexivity.
  - eexists. apply Hstream. vm_compute. reflexivity.
Defined.

Local Open Scope list_scope.

(** ** The metadata synchronizer *)


Local Arguments compare_file : simpl never.

Section walk.
Context (infoHash : string) (now : Z).

Lemma stage_file_seen st i file :
  seenFiles (stage_file infoHash now st i file)
  = <[torrent.Path file := true]> (seenFiles st).
Proof.
  unfold stage_file.
  destruct (existingFileMap st !! torrent.Path file); [|done].
  by destruct (compare_file _ _ _ _ _).
Qed.

Lemma walk_firsts fs : ∀ st i,
  walk infoHash now st i fs
  = foldl (fun st kf => stage_file infoHash now st kf.1 kf.2) st
      (firsts (seenFiles st) i fs).
Proof.
  induction fs as [|f fs IH]; intros st i; [done|].
  cbn [walk firsts]. unfold sync_step.
  destruct (default false (seenFiles st !! torrent.Path f)) eqn:E.
  - apply IH.
  - rewrite IH, stage_file_seen. done.
Qed.

Lemma stage_file_map st i file :
  existingFileMap (stage_file infoHash now st i file)
  = delete (torrent.Path file) (existingFileMap st).
Proof.
  unfold stage_file.
  destruct (existingFileMap st !! torrent.Path file) eqn:E.
  - by destruct (compare_file _ _ _ _ _).
  - simpl. by rewrite delete_id.
Qed.

Lemma stage_file_creates st i file :
  filesToCreate (stage_file infoHash now st i file)
  = filesToCreate st ++ creates_of infoHash now (existingFileMap st) [(i, file)].
Proof.
  unfold stage_file, creates_of. simpl.
  destruct (existingFileMap st !! torrent.Path file) eqn:E; simpl.
  - by rewrite app_nil_r.
  - done.
Qed.

Lemma stage_file_updates st i file :
  filesToUpdate (stage_file infoHash now st i file)
  = filesToUpdate st ++ updates_of now (existingFileMap st) [(i, file)].
Proof.
  unfold stage_file, updates_of. cbn -[compare_file].
  destruct (existingFileMap st !! torrent.Path file) eqn:E; cbn -[compare_file].
  - destruct (compare_file _ _ _ _ _) as [u [|]]; cbn; [done|].
    by rewrite app_nil_r.
  - by rewrite app_nil_r.
Qed.

Lemma creates_of_delete p M FL :
  p ∉ (fun kf : Z * torrent.File => torrent.Path kf.2) <$> FL →
  creates_of infoHash now (delete p M) FL = creates_of infoHash now M FL.
Proof.
  induction FL as [|kf FL IH]; intros Hp; [done|].
  rewrite fmap_cons, not_elem_of_cons in Hp. destruct Hp as [Hne Hp].
  unfold creates_of in *. cbn [omap list_omap].
  rewrite lookup_delete_ne by done. by rewrite IH.
Qed.

Lemma updates_of_delete p M FL :
  p ∉ (fun kf : Z * torrent.File => torrent.Path kf.2) <$> FL →
  updates_of now (delete p M) FL = updates_of now M FL.
Proof.
  induction FL as [|kf FL IH]; intros Hp; [done|].
  rewrite fmap_cons, not_elem_of_cons in Hp. destruct Hp as [Hne Hp].
  unfold updates_of in *. cbn [omap list_omap].
  rewrite lookup_delete_ne by done. by rewrite IH.
Qed.

Lemma creates_of_cons M kf FL :
  creates_of infoHash now M (kf :: FL)
  = creates_of infoHash now M [kf] ++ creates_of infoHash now M FL.
Proof.
  unfold creates_of. cbn [omap list_omap].
  by destruct (M !! torrent.Path kf.2).
Qed.

Lemma updates_of_cons M kf FL :
  updates_of now M (kf :: FL) = updates_of now M [kf] ++ updates_of now M FL.
Proof.
  unfold updates_of. cbn [omap list_omap].
  destruct (M !! torrent.Path kf.2); [|done].
  by destruct (compare_file _ _ _ _ _) as [u [|]].
Qed.

Lemma fold_stage FL : ∀ st,
  NoDup ((fun kf : Z * torrent.File => torrent.Path kf.2) <$> FL) →
  let st' := foldl (fun st kf => stage_file infoHash now st kf.1 kf.2) st FL in
  (∀ q, existingFileMap st' !! q
        = if decide (q ∈ (fun kf : Z * torrent.File => torrent.Path kf.2) <$> FL)
          then None else existingFileMap st !! q) ∧
  filesToCreate st' = filesToCreate st ++ creates_of infoHash now (existingFileMap st) FL ∧
  filesToUpdate st' = filesToUpdate st ++ updates_of now (existingFileMap st) FL.
Proof.
  induction FL as [|[k f] FL IH]; intros st Hnd.
  - cbn [foldl]. cbv zeta. split; [|by rewrite !app_nil_r].
    intros q. rewrite fmap_nil. case_decide as H; [|done]. by apply elem_of_nil in H.
  - rewrite fmap_cons, NoDup_cons in Hnd. destruct Hnd as [Hnotin Hnd].
    cbn [foldl fst snd]. cbv zeta.
    destruct (IH (stage_file infoHash now st k f) Hnd) as (Hm & Hc & Hu).
    cbv zeta in Hm, Hc, Hu.
    simpl in Hnotin. split; [|split].
    + intros q. rewrite Hm, stage_file_map, fmap_cons. simpl.
      destruct (decide (q = torrent.Path f)) as [->|Hne].
      * rewrite lookup_delete_eq. rewrite (decide_True _ _ (list_elem_of_here _ _)).
        by case_decide.
      * rewrite lookup_delete_ne by done.
        case_decide as H1; case_decide as H2; try done.
        -- exfalso. apply H2. by apply list_elem_of_further.
        -- exfalso. apply elem_of_cons in H2 as [?|?]; done.
    + rewrite Hc, stage_file_creates, stage_file_map, creates_of_delete by done.
      by rewrite <- app_assoc, <- creates_of_cons.
    + rewrite Hu, stage_file_updates, stage_file_map, updates_of_delete by done.
      by rewrite <- app_assoc, <- updates_of_cons.
Qed.
End walk.


Lemma firsts_unseen fs : ∀ seen i,
  NoDup (path_of <$> firsts seen i fs) ∧
  ∀ kf, kf ∈ firsts seen i fs → default false (seen !! torrent.Path kf.2) = false.
Proof.
  induction fs as [|f fs IH]; intros seen i.
  - split; [constructor | intros kf H; by apply elem_of_nil in H].
  - cbn [firsts]. destruct (default false (seen !! torrent.Path f)) eqn:E; [apply IH|].
    destruct (IH (<[torrent.Path f := true]> seen) (i + 1)) as [Hnd Hun].
    assert (Hne : ∀ kf, kf ∈ firsts (<[torrent.Path f := true]> seen) (i + 1) fs →
                        torrent.Path kf.2 ≠ torrent.Path f).
    { intros kf Hkf Heq. specialize (Hun kf Hkf).
      rewrite Heq, lookup_insert_eq in Hun. done. }
    split.
    + rewrite fmap_cons. apply NoDup_cons. split; [|done].
      intros Hin. apply list_elem_of_fmap in Hin as (kf & Heq & Hkf).
      by apply (Hne kf Hkf).
    + intros kf Hkf. apply elem_of_cons in Hkf as [->|Hkf]; [done|].
      specialize (Hun kf Hkf). by rewrite lookup_insert_ne in Hun by (symmetry; by apply Hne).
Qed.

Lemma firsts_find fs : ∀ seen i k file,
  (k, file) ∈ firsts seen i fs →
  ∃ n, k = i + Z.of_nat n ∧
       list_find (fun f => torrent.Path f = torrent.Path file) fs = Some (n, file).
Proof.
  induction fs as [|f fs IH]; intros seen i k file Hin.
  - by apply elem_of_nil in Hin.
  - cbn [firsts] in Hin. cbn [list_find].
    destruct (default false (seen !! torrent.Path f)) eqn:E.
    + pose proof (proj2 (firsts_unseen fs seen (i + 1)) _ Hin) as Hun. simpl in Hun.
      destruct (IH _ _ _ _ Hin) as (n & -> & Hfind).
      exists (S n). split; [lia|].
      rewrite decide_False by (intros Heq; rewrite Heq in E; congruence).
      by rewrite Hfind.
    + apply elem_of_cons in Hin as [[= -> ->]|Hin].
      * exists 0%nat. split; [lia|]. by rewrite decide_True.
      * pose proof (proj2 (firsts_unseen fs _ (i + 1)) _ Hin) as Hun. simpl in Hun.
        destruct (IH _ _ _ _ Hin) as (n & -> & Hfind).
        exists (S n). split; [lia|].
        rewrite decide_False; [by rewrite Hfind|].
        intros Heq. by rewrite <- Heq, lookup_insert_eq in Hun.
Qed.

Lemma find_firsts fs : ∀ seen i p n file,
  default false (seen !! p) = false →
  list_find (fun f => torrent.Path f = p) fs = Some (n, file) →
  (i + Z.of_nat n, file) ∈ firsts seen i fs.
Proof.
  induction fs as [|f fs IH]; intros seen i p n file Hun Hfind; [done|].
  cbn [list_find] in Hfind. cbn [firsts].
  destruct (decide (torrent.Path f = p)) as [Heq|Hne].
  - injection Hfind as <- <-. rewrite Heq, Hun.
    replace (i + Z.of_nat 0) with i by lia. apply list_elem_of_here.
  - destruct (list_find _ fs) as [[n' file']|] eqn:E; [|done].
    injection Hfind as <- <-.
    replace (i + Z.of_nat (S n')) with (i + 1 + Z.of_nat n') by lia.
    destruct (default false (seen !! torrent.Path f)).
    + by apply (IH _ _ p).
    + apply list_elem_of_further, (IH _ _ p); [|done].
      by rewrite lookup_insert_ne.
Qed.

(** ** The lookup built from the persisted rows *)

Lemma index_by_path_snoc (E : list File.t) (e : File.t) :
  index_by_path (E ++ [e]) = <[File.FilePath e := e]> (index_by_path E).
Proof. unfold index_by_path. by rewrite foldl_app. Qed.

Lemma index_by_path_Some (E : list File.t) (p : string) (e : File.t) :
  index_by_path E !! p = Some e → e ∈ E ∧ File.FilePath e = p.
Proof.
  induction E as [|x E IH] using rev_ind; [done|].
  rewrite index_by_path_snoc. intros H.
  destruct (decide (File.FilePath x = p)) as [Heq|Hne].
  - rewrite Heq, lookup_insert_eq in H. injection H as <-.
    split; [|done]. apply elem_of_app. right. apply list_elem_of_here.
  - rewrite lookup_insert_ne in H by done. destruct (IH H) as [? ?].
    split; [|done]. apply elem_of_app. by left.
Qed.

Lemma index_by_path_None (E : list File.t) (p : string) :
  index_by_path E !! p = None ↔ p ∉ File.FilePath <$> E.
Proof.
  induction E as [|x E IH] using rev_ind.
  - split; [intros _ H; by apply elem_of_nil in H | done].
  - rewrite index_by_path_snoc, fmap_app, elem_of_app. simpl.
    rewrite list_elem_of_singleton.
    destruct (decide (File.FilePath x = p)) as [Heq|Hne].
    + rewrite Heq, lookup_insert_eq. split; [done|]. intros H. exfalso. apply H. by right.
    + rewrite lookup_insert_ne by done. rewrite IH. split.
      * intros H [?|?]; [done | congruence].
      * intros H ?. apply H. by left.
Qed.

Lemma index_by_path_unique (E : list File.t) (e : File.t) :
  NoDup (File.FilePath <$> E) → e ∈ E → index_by_path E !! File.FilePath e = Some e.
Proof.
  induction E as [|x E IH] using rev_ind; intros Hnd Hin.
  - by apply elem_of_nil in Hin.
  - rewrite index_by_path_snoc. rewrite fmap_app in Hnd.
    apply NoDup_app in Hnd as (Hnd & Hdisj & _).
    apply elem_of_app in Hin as [Hin|Hin].
    + rewrite lookup_insert_ne; [by apply IH|].
      intros Heq. apply (Hdisj (File.FilePath e)).
      * apply list_elem_of_fmap. eauto.
      * rewrite <- Heq. simpl. apply list_elem_of_here.
    + apply list_elem_of_singleton in Hin as ->. apply lookup_insert_eq.
Qed.

(** ** Applying the staged changes *)

Lemma apply_saves_cons (u : File.t) (U : list File.t) (f : File.t) :
  apply_saves (u :: U) f
  = apply_saves U (if Z.eqb (File.ID f) (File.ID u) then u else f).
Proof. done. Qed.

Lemma apply_saves_ID (U : list File.t) : ∀ f,
  File.ID (apply_saves U f) = File.ID f.
Proof.
  induction U as [|u U IH]; intros f; [done|].
  rewrite apply_saves_cons, IH.
  destruct (Z.eqb_spec (File.ID f) (File.ID u)); congruence.
Qed.

Lemma apply_saves_cases (U : list File.t) : ∀ f,
  apply_saves U f = f ∨ apply_saves U f ∈ U.
Proof.
  induction U as [|u U IH]; intros f; [by left|].
  rewrite apply_saves_cons.
  destruct (Z.eqb_spec (File.ID f) (File.ID u)) as [Heq|Hne].
  - right. destruct (IH u) as [->|Hin]; [apply list_elem_of_here|].
    by apply list_elem_of_further.
  - destruct (IH f) as [->|Hin]; [by left|]. right. by apply list_elem_of_further.
Qed.

Lemma apply_saves_other (U : list File.t) (f : File.t) :
  (∀ u, u ∈ U → File.ID u ≠ File.ID f) → apply_saves U f = f.
Proof.
  intros H. destruct (apply_saves_cases U f) as [?|Hin]; [done|].
  exfalso. apply (H _ Hin). apply apply_saves_ID.
Qed.

Lemma foldl_Save_file (U : list File.t) : ∀ d,
  files (foldl Save_file d U) = apply_saves U <$> files d ∧
  magnets (foldl Save_file d U) = magnets d ∧
  files_seq (foldl Save_file d U) = files_seq d.
Proof.
  induction U as [|u U IH]; intros d.
  - cbn [foldl]. by rewrite list_fmap_id.
  - cbn [foldl]. destruct (IH (Save_file d u)) as (-> & -> & ->).
    split; [|done]. unfold Save_file. simpl.
    rewrite <- list_fmap_compose. by apply list_fmap_ext.
Qed.

Lemma number_rows_spec (now : Z) (rows : list File.t) : ∀ next f',
  f' ∈ number_rows next now rows →
  next <= File.ID f' < next + Z.of_nat (length rows) ∧
  ∃ r, r ∈ rows ∧ same_entry f' r.
Proof.
  induction rows as [|r rows IH]; intros next f' Hin.
  - by apply elem_of_nil in Hin.
  - cbn [number_rows] in Hin. apply elem_of_cons in Hin as [->|Hin].
    + simpl. split; [lia|]. exists r. split; [apply list_elem_of_here | done].
    + destruct (IH _ _ Hin) as [Hid (r' & Hr' & Hsame)].
      split; [simpl length; lia|]. exists r'. split; [by apply list_elem_of_further | done].
Qed.

Lemma number_rows_complete (now : Z) (rows : list File.t) : ∀ next r,
  r ∈ rows → ∃ f', f' ∈ number_rows next now rows ∧ same_entry f' r.
Proof.
  induction rows as [|x rows IH]; intros next r Hin.
  - by apply elem_of_nil in Hin.
  - cbn [number_rows]. apply elem_of_cons in Hin as [->|Hin].
    + eexists. split; [apply list_elem_of_here | done].
    + destruct (IH (next + 1) _ Hin) as (f' & Hf' & Hsame).
      exists f'. split; [by apply list_elem_of_further | done].
Qed.

Lemma number_rows_NoDup (now : Z) (rows : list File.t) : ∀ next,
  NoDup (File.ID <$> number_rows next now rows).
Proof.
  induction rows as [|r rows IH]; intros next; [constructor|].
  cbn [number_rows]. rewrite fmap_cons. apply NoDup_cons. split; [|apply IH].
  simpl. intros Hin. apply list_elem_of_fmap in Hin as (f' & Hid & Hf').
  apply number_rows_spec in Hf' as [Hrange _]. lia.
Qed.

Lemma number_rows_keys (now : Z) (rows : list File.t) : ∀ next,
  file_key <$> number_rows next now rows = file_key <$> rows.
Proof.
  induction rows as [|r rows IH]; intros next; [done|].
  cbn [number_rows]. rewrite !fmap_cons, IH. done.
Qed.

Lemma filter_not_in_nil (l : list File.t) :
  filter (fun f => File.ID f ∉ @nil Z) l = l.
Proof.
  induction l as [|f l IH]; [done|].
  rewrite filter_cons, decide_True, IH; [done|]. apply not_elem_of_nil.
Qed.

(** The rows of the catalog after [handleTorrentReady], in closed form. *)
Lemma handleTorrentReady_files (s : TorrentService) (torr : torrent.Torrent)
    (infoHash : string) (now : Z) :
  let st := reconcile (db s) torr infoHash now in
  files (db (handleTorrentReady s torr infoHash now))
  = filter (fun f => File.ID f ∉ File.ID <$> (map_to_list (existingFileMap st)).*2)
      (apply_saves (filesToUpdate st)
         <$> (files (db s) ++ number_rows (files_seq (db s)) now (filesToCreate st))).
Proof.
  intros st. unfold handleTorrentReady.
  change (reconcile (with_magnets (db s) _) torr infoHash now) with st.
  cbn [db with_db].
  set (d1 := with_magnets (db s) _).
  set (d2 := match filesToCreate st with [] => d1 | _ => _ end).
  assert (Hd2 : files d2 = files (db s) ++ number_rows (files_seq (db s)) now (filesToCreate st)).
  { unfold d2. destruct (filesToCreate st); [by rewrite app_nil_r | done]. }
  destruct (foldl_Save_file (filesToUpdate st) d2) as (Hf & _ & _).
  case_bool_decide as Hsize.
  - unfold Delete_files. cbn [files with_files]. by rewrite Hf, Hd2.
  - assert (existingFileMap st = ∅) as ->.
    { apply map_size_empty_iff. lia. }
    rewrite map_to_list_empty. cbn [fmap list_fmap]. simpl.
    by rewrite filter_not_in_nil, Hf, Hd2.
Qed.

(** ** Generic list facts *)

Lemma NoDup_fmap_elem_inj {A B} (g : A → B) (l : list A) (x y : A) :
  NoDup (g <$> l) → x ∈ l → y ∈ l → g x = g y → x = y.
Proof.
  induction l as [|a l IH]; intros Hnd Hx Hy Heq; [by apply elem_of_nil in Hx|].
  rewrite fmap_cons, NoDup_cons in Hnd. destruct Hnd as [Hnotin Hnd].
  apply elem_of_cons in Hx as [->|Hx]; apply elem_of_cons in Hy as [->|Hy].
  - done.
  - exfalso. apply Hnotin. rewrite Heq. by apply list_elem_of_fmap_2.
  - exfalso. apply Hnotin. rewrite <- Heq. by apply list_elem_of_fmap_2.
  - by apply IH.
Qed.

Lemma NoDup_fmap_filter {A B} (g : A → B) (P : A → Prop) `{∀ x, Decision (P x)}
    (l : list A) :
  NoDup (g <$> l) → NoDup (g <$> filter P l).
Proof.
  induction l as [|a l IH]; intros Hnd; [done|].
  rewrite fmap_cons, NoDup_cons in Hnd. destruct Hnd as [Hnotin Hnd].
  rewrite filter_cons. case_decide; [|by apply IH].
  rewrite fmap_cons. apply NoDup_cons. split; [|by apply IH].
  intros Hin. apply Hnotin.
  apply list_elem_of_fmap in Hin as (x & -> & Hx).
  apply list_elem_of_filter in Hx as [_ Hx]. by apply list_elem_of_fmap_2.
Qed.

Lemma fmap_ext_in {A B} (f g : A → B) (l : list A) :
  (∀ x, x ∈ l → f x = g x) → f <$> l = g <$> l.
Proof.
  intros H. apply list_fmap_ext. intros i x Hi. apply H.
  by eapply list_elem_of_lookup_2.
Qed.

Lemma compare_file_spec (e : File.t) (size i : Z) (mime : string) (now : Z)
    (u : File.t) (b : bool) :
  compare_file e size i mime now = (u, b) →
  File.ID u = File.ID e ∧ File.MagnetID u = File.MagnetID e ∧
  File.FilePath u = File.FilePath e ∧
  File.FileSize u = size ∧ File.FileIndex u = i ∧ File.MimeType u = mime ∧
  (b = false → File.FileSize e = size ∧ File.FileIndex e = i ∧ File.MimeType e = mime).
Proof.
  unfold compare_file. intros [= <- <-]. cbn.
  destruct (Z.eqb_spec (File.FileSize e) size) as [Hs|Hs];
  destruct (Z.eqb_spec (File.FileIndex e) i) as [Hi|Hi];
  destruct (String.eqb_spec (File.MimeType e) mime) as [Hm|Hm];
  cbn; repeat split; try done.
Qed.

Lemma keys_NoDup_paths (infoHash : string) (F : list File.t) :
  NoDup (file_key <$> F) →
  NoDup (File.FilePath <$> filter (fun f => File.MagnetID f = infoHash) F).
Proof.
  induction F as [|f F IH]; intros Hnd; [constructor|].
  rewrite fmap_cons, NoDup_cons in Hnd. destruct Hnd as [Hnotin Hnd].
  rewrite filter_cons. case_decide as Hid; [|by apply IH].
  rewrite fmap_cons. apply NoDup_cons. split; [|by apply IH].
  intros Hin. apply Hnotin.
  apply list_elem_of_fmap in Hin as (g & Hp & Hg).
  apply list_elem_of_filter in Hg as [Hgid Hg].
  apply list_elem_of_fmap. exists g. split; [|done].
  unfold file_key. by rewrite Hid, Hgid, Hp.
Qed.

Lemma creates_of_spec (infoHash : string) (now : Z) (M : gmap string File.t)
    (FL : list (Z * torrent.File)) (c : File.t) :
  c ∈ creates_of infoHash now M FL ↔
  ∃ k file, (k, file) ∈ FL ∧ M !! torrent.Path file = None ∧
            c = {| File.ID := 0; File.MagnetID := infoHash;
                   File.FilePath := torrent.Path file;
                   File.FileName := path.Base (torrent.Path file);
                   File.FileSize := torrent.Length file;
                   File.FileIndex := k;
                   File.MimeType := getMimeType (torrent.Path file);
                   File.CreatedAt := now; File.UpdatedAt := 0 |}.
Proof.
  unfold creates_of. rewrite list_elem_of_omap. split.
  - intros ([k file] & Hin & H). cbn in H.
    destruct (M !! torrent.Path file) eqn:E; [done|].
    injection H as <-. by exists k, file.
  - intros (k & file & Hin & HM & ->). exists (k, file). split; [done|].
    cbn. by rewrite HM.
Qed.

Lemma updates_of_spec (now : Z) (M : gmap string File.t)
    (FL : list (Z * torrent.File)) (u : File.t) :
  u ∈ updates_of now M FL ↔
  ∃ k file e, (k, file) ∈ FL ∧ M !! torrent.Path file = Some e ∧
              compare_file e (torrent.Length file) k
                (getMimeType (torrent.Path file)) now = (u, true).
Proof.
  unfold updates_of. rewrite list_elem_of_omap. split.
  - intros ([k file] & Hin & H). cbn -[compare_file] in H.
    destruct (M !! torrent.Path file) as [e|] eqn:E; [|done].
    destruct (compare_file _ _ _ _ _) as [u' [|]] eqn:Hc; [|done].
    injection H as <-. by exists k, file, e.
  - intros (k & file & e & Hin & HM & Hc). exists (k, file). split; [done|].
    cbn -[compare_file]. by rewrite HM, Hc.
Qed.

Lemma creates_of_keys_NoDup (infoHash : string) (now : Z) (M : gmap string File.t)
    (FL : list (Z * torrent.File)) :
  NoDup (path_of <$> FL) → NoDup (file_key <$> creates_of infoHash now M FL).
Proof.
  induction FL as [|[k file] FL IH]; intros Hnd; [constructor|].
  rewrite fmap_cons, NoDup_cons in Hnd. destruct Hnd as [Hnotin Hnd].
  rewrite creates_of_cons, fmap_app. apply NoDup_app.
  split; [|split; [|by apply IH]].
  - unfold creates_of. cbn. destruct (M !! torrent.Path file); cbn; [constructor|].
    apply NoDup_singleton.
  - intros key Hkey Hin. apply Hnotin.
    apply list_elem_of_fmap in Hin as (c & -> & Hc).
    apply creates_of_spec in Hc as (k' & file' & Hin' & _ & ->).
    unfold creates_of in Hkey. cbn in Hkey.
    destruct (M !! torrent.Path file); cbn in Hkey; [by apply elem_of_nil in Hkey|].
    apply list_elem_of_singleton in Hkey. injection Hkey as Hp.
    apply list_elem_of_fmap. exists (k', file'). split; [cbn; congruence | done].
Qed.

Lemma apply_saves_dichotomy (U : list File.t) : ∀ f,
  apply_saves U f ∈ U ∨
  (apply_saves U f = f ∧ ∀ u, u ∈ U → File.ID u ≠ File.ID f).
Proof.
  induction U as [|x U IH]; intros f.
  - right. split; [done|]. intros u Hu. by apply elem_of_nil in Hu.
  - rewrite apply_saves_cons.
    destruct (Z.eqb_spec (File.ID f) (File.ID x)) as [Heq|Hne].
    + left. destruct (apply_saves_cases U x) as [->|H]; [apply list_elem_of_here|].
      by apply list_elem_of_further.
    + destruct (IH f) as [H|[H1 H2]]; [left; by apply list_elem_of_further|].
      right. split; [done|]. intros u Hu.
      apply elem_of_cons in Hu as [->|Hu]; [congruence | by apply H2].
Qed.

Lemma reported_same_entry (infoHash : string) (k : Z) (file : torrent.File)
    (f r : File.t) :
  same_entry f r → reported infoHash k file r → reported infoHash k file f.
Proof.
  intros (H1 & H2 & H3 & H4 & H5) (R1 & R2 & R3 & R4 & R5).
  unfold reported. by rewrite H1, H2, H3, H4, H5.
Qed.

(** ** One reconciliation pass over a well-formed catalog *)

Section pass.
Context (s : TorrentService) (torr : torrent.Torrent) (infoHash : string) (now : Z).
Context (Hok : catalog_ok (db s)).

Let F := files (db s).
Let M0 := index_by_path (find_files (db s) infoHash).
Let FL := firsts ∅ 0 (torrent.Files torr).
Let st := reconcile (db s) torr infoHash now.
Let F' := files (db (handleTorrentReady s torr infoHash now)).

Lemma FL_NoDup : NoDup (path_of <$> FL).
Proof. apply firsts_unseen. Qed.

Lemma FL_inj k file k' file' :
  (k, file) ∈ FL → (k', file') ∈ FL → torrent.Path file = torrent.Path file' →
  k = k' ∧ file = file'.
Proof.
  intros H1 H2 Hp.
  pose proof (NoDup_fmap_elem_inj path_of FL _ _ FL_NoDup H1 H2 Hp) as [= -> ->].
  done.
Qed.

Lemma st_spec :
  (∀ q, existingFileMap st !! q
        = if decide (q ∈ path_of <$> FL) then None else M0 !! q) ∧
  filesToCreate st = creates_of infoHash now M0 FL ∧
  filesToUpdate st = updates_of now M0 FL.
Proof.
  unfold st, reconcile. rewrite walk_firsts. cbn [seenFiles].
  exact (fold_stage infoHash now FL
           {| existingFileMap := M0; seenFiles := ∅;
              filesToCreate := []; filesToUpdate := [] |} FL_NoDup).
Qed.

Lemma ID_inj e1 e2 : e1 ∈ F → e2 ∈ F → File.ID e1 = File.ID e2 → e1 = e2.
Proof. destruct Hok as (Hid & _ & _). by apply NoDup_fmap_elem_inj. Qed.

Lemma ID_below e : e ∈ F → File.ID e < files_seq (db s).
Proof.
  destruct Hok as (_ & Hlt & _). rewrite Forall_forall in Hlt. apply Hlt.
Qed.

Lemma M0_spec p e :
  M0 !! p = Some e ↔ e ∈ F ∧ File.MagnetID e = infoHash ∧ File.FilePath e = p.
Proof.
  unfold M0, find_files. split.
  - intros H. apply index_by_path_Some in H as [Hin Hp].
    apply list_elem_of_filter in Hin as [? ?]. done.
  - intros (Hin & Hid & <-). apply index_by_path_unique.
    + apply keys_NoDup_paths. by destruct Hok as (_ & _ & ?).
    + by apply list_elem_of_filter.
Qed.

Lemma M0_None p e :
  M0 !! p = None → e ∈ F → File.MagnetID e = infoHash → File.FilePath e ≠ p.
Proof.
  intros HN Hin Hid Hp.
  assert (M0 !! p = Some e) as H by (by apply M0_spec). congruence.
Qed.

(** Where a staged update comes from. *)
Lemma update_origin u :
  u ∈ filesToUpdate st →
  ∃ k file e, (k, file) ∈ FL ∧ e ∈ F ∧ File.MagnetID e = infoHash ∧
              File.FilePath e = torrent.Path file ∧ File.ID u = File.ID e ∧
              reported infoHash k file u.
Proof.
  destruct st_spec as (_ & _ & ->). intros Hu.
  apply updates_of_spec in Hu as (k & file & e & Hin & HM & Hc).
  apply M0_spec in HM as (He & Hid & Hp).
  apply compare_file_spec in Hc as (H1 & H2 & H3 & H4 & H5 & H6 & _).
  exists k, file, e. repeat split; try done; congruence.
Qed.

(** A row that is reported and receives no update already agrees. *)
Lemma unchanged_row k file e :
  (k, file) ∈ FL → e ∈ F → File.MagnetID e = infoHash →
  File.FilePath e = torrent.Path file →
  (∀ u, u ∈ filesToUpdate st → File.ID u ≠ File.ID e) →
  reported infoHash k file e.
Proof.
  intros Hin He Hid Hp Hno.
  assert (HM : M0 !! torrent.Path file = Some e) by (by apply M0_spec).
  destruct (compare_file e (torrent.Length file) k
              (getMimeType (torrent.Path file)) now) as [u b] eqn:Hc.
  pose proof (compare_file_spec _ _ _ _ _ _ _ Hc) as (H1 & _ & _ & _ & _ & _ & Hb).
  destruct b.
  - exfalso. apply (Hno u); [|done].
    destruct st_spec as (_ & _ & ->). apply updates_of_spec. by exists k, file, e.
  - destruct (Hb eq_refl) as (? & ? & ?). done.
Qed.

Lemma create_origin c :
  c ∈ filesToCreate st →
  ∃ k file, (k, file) ∈ FL ∧ M0 !! torrent.Path file = None ∧
            reported infoHash k file c.
Proof.
  destruct st_spec as (_ & -> & _). intros Hc.
  apply creates_of_spec in Hc as (k & file & Hin & HM & ->).
  by exists k, file.
Qed.

Lemma deleted_spec (x : Z) :
  x ∈ File.ID <$> (map_to_list (existingFileMap st)).*2 ↔
  ∃ e, e ∈ F ∧ File.MagnetID e = infoHash ∧ File.ID e = x ∧
       File.FilePath e ∉ path_of <$> FL.
Proof.
  destruct st_spec as (Hm & _ & _). split.
  - intros H. apply list_elem_of_fmap in H as (e & -> & He).
    apply list_elem_of_fmap in He as ([q e'] & -> & Hqe).
    apply elem_of_map_to_list in Hqe. rewrite Hm in Hqe.
    case_decide as Hq; [done|]. apply M0_spec in Hqe as (? & ? & <-).
    by exists e'.
  - intros (e & He & Hid & <- & Hp).
    apply list_elem_of_fmap. exists e. split; [done|].
    apply list_elem_of_fmap. exists (File.FilePath e, e). split; [done|].
    apply elem_of_map_to_list. rewrite Hm, decide_False by done.
    by apply M0_spec.
Qed.

Lemma F'_spec f' :
  f' ∈ F' ↔
  ∃ f, f' = apply_saves (filesToUpdate st) f ∧
       (f ∈ F ∨ f ∈ number_rows (files_seq (db s)) now (filesToCreate st)) ∧
       File.ID f' ∉ File.ID <$> (map_to_list (existingFileMap st)).*2.
Proof.
  unfold F'. rewrite handleTorrentReady_files. fold st.
  rewrite list_elem_of_filter. split.
  - intros (Hdel & Hin). apply list_elem_of_fmap in Hin as (f & -> & Hf).
    apply elem_of_app in Hf. by exists f.
  - intros (f & -> & Hf & Hdel). split; [done|].
    apply list_elem_of_fmap. exists f. split; [done|]. by apply elem_of_app.
Qed.

Lemma update_ID_below u : u ∈ filesToUpdate st → File.ID u < files_seq (db s).
Proof.
  intros Hu. apply update_origin in Hu as (k & file & e & _ & He & _ & _ & -> & _).
  by apply ID_below.
Qed.

Lemma created_untouched f :
  f ∈ number_rows (files_seq (db s)) now (filesToCreate st) →
  apply_saves (filesToUpdate st) f = f ∧
  File.ID f ∉ File.ID <$> (map_to_list (existingFileMap st)).*2.
Proof.
  intros Hf. apply number_rows_spec in Hf as [Hrange _]. split.
  - apply apply_saves_other. intros u Hu. apply update_ID_below in Hu. lia.
  - intros Hdel. apply deleted_spec in Hdel as (e & He & _ & Hid & _).
    apply ID_below in He. lia.
Qed.

(** Every row of the identifier after the pass is the entry of a first
    occurrence in the reported list. *)
Lemma row_after f' :
  f' ∈ F' → File.MagnetID f' = infoHash →
  ∃ k file, (k, file) ∈ FL ∧ reported infoHash k file f'.
Proof.
  intros Hf' Hid. apply F'_spec in Hf' as (f & Heq & [Hf|Hf] & Hdel).
  - destruct (apply_saves_dichotomy (filesToUpdate st) f) as [Hu|[Hsame Hno]].
    + rewrite <- Heq in Hu.
      apply update_origin in Hu as (k & file & e & Hin & _ & _ & _ & _ & Hrep).
      by exists k, file.
    + rewrite Hsame in Heq. subst f'.
      destruct (decide (File.FilePath f ∈ path_of <$> FL)) as [Hp|Hp].
      * apply list_elem_of_fmap in Hp as ([k file] & Hp & Hin).
        exists k, file. split; [done|]. by apply unchanged_row.
      * exfalso. apply Hdel. apply deleted_spec. by exists f.
  - destruct (created_untouched f Hf) as [Hsame _].
    rewrite Hsame in Heq. subst f'.
    apply number_rows_spec in Hf as [_ (c & Hc & Hsc)].
    apply create_origin in Hc as (k & file & Hin & _ & Hrep).
    exists k, file. split; [done|]. by apply (reported_same_entry _ _ _ _ c).
Qed.

(** Every first occurrence in the reported list has its row after the
    pass. *)
Lemma row_exists k file :
  (k, file) ∈ FL → ∃ f', f' ∈ F' ∧ reported infoHash k file f'.
Proof.
  intros Hin. destruct (M0 !! torrent.Path file) as [e|] eqn:HM.
  - apply M0_spec in HM as (He & Hid & Hp).
    exists (apply_saves (filesToUpdate st) e). split.
    + apply F'_spec. exists e. split; [done|]. split; [by left|].
      rewrite apply_saves_ID. intros Hdel.
      apply deleted_spec in Hdel as (e2 & He2 & _ & Hid2 & Hp2).
      rewrite (ID_inj e2 e He2 He Hid2) in Hp2. apply Hp2.
      apply list_elem_of_fmap. by exists (k, file).
    + destruct (apply_saves_dichotomy (filesToUpdate st) e) as [Hu|[Hsame Hno]].
      * pose proof (apply_saves_ID (filesToUpdate st) e) as HID.
        apply update_origin in Hu
          as (k' & file' & e' & Hin' & He' & _ & Hp' & Hid' & Hrep).
        rewrite HID in Hid'. rewrite <- (ID_inj e e' He He' Hid') in Hp'.
        destruct (FL_inj k file k' file' Hin Hin') as [-> ->]; [congruence|].
        done.
      * rewrite Hsame. by apply unchanged_row.
  - assert (Hc : ∃ c, c ∈ filesToCreate st ∧ reported infoHash k file c).
    { destruct st_spec as (_ & -> & _). eexists. split.
      - apply creates_of_spec. by exists k, file.
      - done. }
    destruct Hc as (c & Hc & Hrep).
    destruct (number_rows_complete now _ (files_seq (db s)) c Hc) as (f & Hf & Hsame).
    destruct (created_untouched f Hf) as [Hsaves Hdel].
    exists f. split.
    + apply F'_spec. exists f. rewrite Hsaves. split; [done|].
      split; [by right | done].
    + by apply (reported_same_entry _ _ _ _ c).
Qed.
End pass.

Lemma handleTorrentReady_seq (s : TorrentService) (torr : torrent.Torrent)
    (infoHash : string) (now : Z) :
  files_seq (db (handleTorrentReady s torr infoHash now))
  = files_seq (db s)
    + Z.of_nat (length (filesToCreate (reconcile (db s) torr infoHash now))).
Proof.
  unfold handleTorrentReady.
  change (reconcile (with_magnets (db s) _) torr infoHash now)
    with (reconcile (db s) torr infoHash now).
  set (st := reconcile (db s) torr infoHash now).
  cbn [db with_db].
  set (d1 := with_magnets (db s) _).
  set (d2 := match filesToCreate st with [] => d1 | _ => _ end).
  assert (Hd2 : files_seq d2 = files_seq (db s) + Z.of_nat (length (filesToCreate st))).
  { unfold d2. destruct (filesToCreate st); [simpl; lia | done]. }
  destruct (foldl_Save_file (filesToUpdate st) d2) as (_ & _ & Hq).
  case_bool_decide; cbn [Delete_files with_files files_seq]; by rewrite Hq, Hd2.
Qed.

(** The pass keeps the catalog well formed. *)
Lemma handleTorrentReady_ok (s : TorrentService) (torr : torrent.Torrent)
    (infoHash : string) (now : Z) :
  catalog_ok (db s) → catalog_ok (db (handleTorrentReady s torr infoHash now)).
Proof.
  intros Hok. pose proof Hok as (Hids & Hlt & Hkeys).
  set (st := reconcile (db s) torr infoHash now).
  set (C := number_rows (files_seq (db s)) now (filesToCreate st)).
  assert (HC : ∀ f, f ∈ C →
            apply_saves (filesToUpdate st) f = f ∧
            files_seq (db s) <= File.ID f
              < files_seq (db s) + Z.of_nat (length (filesToCreate st))).
  { intros f Hf. split; [by apply (created_untouched s torr infoHash now Hok)|].
    by apply number_rows_spec in Hf as [? _]. }
  assert (HF : ∀ f, f ∈ files (db s) →
            file_key (apply_saves (filesToUpdate st) f) = file_key f).
  { intros f Hf.
    destruct (apply_saves_dichotomy (filesToUpdate st) f) as [Hu|[-> _]]; [|done].
    pose proof (apply_saves_ID (filesToUpdate st) f) as HID.
    apply (update_origin s torr infoHash now Hok) in Hu
      as (k & file & e & _ & He & Hm & Hp & Hid & (R1 & R2 & _)).
    rewrite HID in Hid.
    assert (f = e) by (by apply (ID_inj s Hok)). subst e.
    unfold file_key. congruence. }
  split; [|split].
  - rewrite handleTorrentReady_files. fold st C.
    apply NoDup_fmap_filter. rewrite <- list_fmap_compose.
    rewrite (fmap_ext_in _ File.ID); [|intros f _; apply apply_saves_ID].
    rewrite fmap_app. apply NoDup_app. split; [done|]. split; [|apply number_rows_NoDup].
    intros x Hx Hx'.
    apply list_elem_of_fmap in Hx as (f & -> & Hf).
    apply list_elem_of_fmap in Hx' as (c & Hid & Hc).
    rewrite Forall_forall in Hlt. specialize (Hlt f Hf).
    destruct (HC c Hc) as [_ ?]. lia.
  - apply Forall_forall. intros f' Hf'. rewrite handleTorrentReady_seq. fold st.
    apply (F'_spec s torr infoHash now) in Hf' as (f & -> & [Hf|Hf] & _).
    + rewrite apply_saves_ID. rewrite Forall_forall in Hlt. specialize (Hlt f Hf). lia.
    + rewrite apply_saves_ID. fold st C in Hf. destruct (HC f Hf) as [_ ?]. lia.
  - rewrite handleTorrentReady_files. fold st C.
    apply NoDup_fmap_filter. rewrite <- list_fmap_compose.
    rewrite (fmap_ext_in _ file_key).
    2:{ intros f Hf. apply elem_of_app in Hf as [Hf|Hf]; cbn.
        - by apply HF.
        - by destruct (HC f Hf) as [-> _]. }
    rewrite fmap_app. unfold C. rewrite number_rows_keys.
    destruct (st_spec s torr infoHash now) as (_ & Hcr & _). fold st in Hcr.
    apply NoDup_app. split; [done|]. split.
    + intros key Hk Hk'.
      apply list_elem_of_fmap in Hk as (f & -> & Hf).
      apply list_elem_of_fmap in Hk' as (c & Hkey & Hc).
      apply (create_origin s torr infoHash now) in Hc
        as (k & file & _ & HN & (R1 & R2 & _)).
      injection Hkey as Hm Hp.
      apply (M0_None s infoHash Hok _ f HN Hf); congruence.
    + rewrite Hcr. apply creates_of_keys_NoDup. apply firsts_unseen.
Qed.

(** *** The catalog stays well formed

    The empty catalog is well formed and every operation of the service
    and of the handlers keeps it so: the hypothesis [catalog_ok] of the
    theorems below holds in every state the program reaches. *)

Lemma catalog_ok_empty (ms : gmap string Magnet.t) (n : Z) :
  catalog_ok {| magnets := ms; files := []; files_seq := n |}.
Proof. repeat split; constructor. Qed.

Lemma catalog_ok_same_files (d d' : DB) :
  files d' = files d → files_seq d' = files_seq d →
  catalog_ok d → catalog_ok d'.
Proof. unfold catalog_ok. by intros -> ->. Qed.

Lemma AddMagnet_catalog_ok (s : TorrentService) (uri : string) (now : Z) :
  catalog_ok (db s) → catalog_ok (db (AddMagnet s uri now).1.1).
Proof.
  unfold AddMagnet. by destruct (magnets (db s) !! extractInfoHash uri).
Qed.

Lemma RemoveMagnet_catalog_ok (s : TorrentService) (magnetID : string) :
  catalog_ok (db s) → catalog_ok (db (handlers.RemoveMagnet s magnetID).1).
Proof.
  intros (Hid & Hlt & Hkey). unfold handlers.RemoveMagnet. cbn.
  split; [by apply NoDup_fmap_filter|]. split; [|by apply NoDup_fmap_filter].
  apply Forall_forall. intros f Hf. apply list_elem_of_filter in Hf as [_ Hf].
  rewrite Forall_forall in Hlt. by apply Hlt.
Qed.

Lemma addTorrentToClient_catalog_ok (s : TorrentService) (uri id : string)
    (reply : engine_reply) (ev : select_case) (now : Z) :
  catalog_ok (db s) → catalog_ok (db (addTorrentToClient s uri id reply ev now)).
Proof.
  intros Hok. unfold addTorrentToClient.
  destruct reply as [msg|h]; [done|]. destruct ev as [i| |]; [|done|done].
  by apply handleTorrentReady_ok.
Qed.

Lemma NoDup_key_filter {A B} `{EqDecision B} (g : A → B) (l : list A) (x : A) :
  NoDup (g <$> l) → x ∈ l → filter (fun y => g y = g x) l = [x].
Proof.
  induction l as [|a l IH]; intros Hnd Hx; [by apply elem_of_nil in Hx|].
  rewrite fmap_cons, NoDup_cons in Hnd. destruct Hnd as [Hnotin Hnd].
  rewrite filter_cons. apply elem_of_cons in Hx as [->|Hx].
  - rewrite decide_True by done. f_equal.
    apply elem_of_nil_inv. intros y Hy. apply list_elem_of_filter in Hy as [Hg Hy].
    apply Hnotin. rewrite <- Hg. by apply list_elem_of_fmap_2.
  - rewrite decide_False; [by apply IH|].
    intros Hg. apply Hnotin. rewrite Hg. by apply list_elem_of_fmap_2.
Qed.

Lemma omap_nil {A B} (f : A → option B) (l : list A) :
  (∀ x, x ∈ l → f x = None) → omap f l = [].
Proof.
  induction l as [|a l IH]; intros H; [done|].
  cbn. rewrite (H a) by apply list_elem_of_here.
  apply IH. intros x Hx. apply H. by apply list_elem_of_further.
Qed.

Lemma FL_reported_path (torr : torrent.Torrent) (k : Z) (file : torrent.File) :
  (k, file) ∈ firsts ∅ 0 (torrent.Files torr) →
  torrent.Path file ∈ torrent.Path <$> torrent.Files torr.
Proof.
  intros H. apply firsts_find in H as (n & _ & Hfind).
  apply list_find_Some in Hfind as (Hn & _ & _).
  apply list_elem_of_fmap. exists file. split; [done|].
  by eapply list_elem_of_lookup_2.
Qed.

Lemma compare_file_agrees (e : File.t) (k : Z) (file : torrent.File) (now : Z) :
  reported (File.MagnetID e) k file e →
  (compare_file e (torrent.Length file) k (getMimeType (torrent.Path file)) now).2
  = false.
Proof.
  intros (_ & _ & Hs & Hi & Hm). unfold compare_file. cbn.
  by rewrite Hs, Hi, Hm, !Z.eqb_refl, String.eqb_refl.
Qed.

(** C5.  On a well-formed catalog, a second reconciliation pass with the
    same reported list stages no create, no update and no delete, and
    leaves the file rows as the first pass left them. *)
Theorem C5_reconciliation_idempotent (s : TorrentService) (torr : torrent.Torrent)
    (infoHash : string) (now1 now2 : Z) :
  catalog_ok (db s) →
  let s1 := handleTorrentReady s torr infoHash now1 in
  let st := reconcile (db s1) torr infoHash now2 in
  filesToCreate st = [] ∧
  filesToUpdate st = [] ∧
  existingFileMap st = ∅ ∧
  files (db (handleTorrentReady s1 torr infoHash now2)) = files (db s1).
Proof.
  intros Hok s1 st.
  pose proof (handleTorrentReady_ok s torr infoHash now1 Hok) as Hok1. fold s1 in Hok1.
  destruct (st_spec s1 torr infoHash now2) as (Hm & Hc & Hu). fold st in Hm, Hc, Hu.
  assert (Hrow : ∀ k file, (k, file) ∈ firsts ∅ 0 (torrent.Files torr) →
            ∃ e, index_by_path (find_files (db s1) infoHash) !! torrent.Path file = Some e
                 ∧ reported infoHash k file e).
  { intros k file Hin.
    destruct (row_exists s torr infoHash now1 Hok k file Hin) as (e & He & Hrep).
    exists e. split; [|done]. pose proof Hrep as (R1 & R2 & _).
    by apply (M0_spec s1 infoHash Hok1). }
  assert (HC : filesToCreate st = []).
  { rewrite Hc. apply omap_nil. intros [k file] Hin.
    destruct (Hrow k file Hin) as (e & He & _). cbn [fst snd]. by rewrite He. }
  assert (HU : filesToUpdate st = []).
  { rewrite Hu. apply omap_nil. intros [k file] Hin.
    destruct (Hrow k file Hin) as (e & He & Hrep). cbn [fst snd]. rewrite He.
    pose proof Hrep as (R1 & _). rewrite <- R1 in Hrep.
    pose proof (compare_file_agrees e k file now2 Hrep) as Hb.
    destruct (compare_file _ _ _ _ _) as [u b]. simpl in Hb. by rewrite Hb. }
  assert (HM : existingFileMap st = ∅).
  { apply map_empty. intros q. rewrite Hm. case_decide as Hq; [done|].
    destruct (index_by_path (find_files (db s1) infoHash) !! q) as [e|] eqn:E; [|done].
    exfalso. apply Hq. apply (M0_spec s1 infoHash Hok1) in E as (He & Hid & <-).
    destruct (row_after s torr infoHash now1 Hok e He Hid) as (k & file & Hin & _ & -> & _).
    apply list_elem_of_fmap. by exists (k, file). }
  repeat split; try done.
  rewrite handleTorrentReady_files. fold st. rewrite HC, HU, HM, map_to_list_empty.
  cbn [number_rows fmap list_fmap]. rewrite app_nil_r, filter_not_in_nil.
  apply list_fmap_id.
Qed.

(** C7.  On a well-formed catalog, a path that the reported list contains
    (once or several times) has exactly one row after the pass; its index,
    length and media type are those of the first occurrence of the path in
    the list, whatever later occurrences say. *)
Theorem C7_duplicate_path_first_occurrence (s : TorrentService)
    (torr : torrent.Torrent) (infoHash : string) (now : Z)
    (p : string) (n : nat) (file : torrent.File) :
  catalog_ok (db s) →
  list_find (fun f => torrent.Path f = p) (torrent.Files torr) = Some (n, file) →
  ∃ f', filter (fun f => file_key f = (infoHash, p))
          (files (db (handleTorrentReady s torr infoHash now))) = [f'] ∧
        File.FileIndex f' = Z.of_nat n ∧
        File.FileSize f' = torrent.Length file ∧
        File.MimeType f' = getMimeType p.
Proof.
  intros Hok Hfind.
  assert (Hp : torrent.Path file = p).
  { by apply list_find_Some in Hfind as (_ & ? & _). }
  assert (Hin : (Z.of_nat n, file) ∈ firsts ∅ 0 (torrent.Files torr)).
  { replace (Z.of_nat n) with (0 + Z.of_nat n) by lia. by apply (find_firsts _ _ _ p). }
  destruct (row_exists s torr infoHash now Hok _ _ Hin) as (f' & Hf' & R1 & R2 & R3 & R4 & R5).
  exists f'. rewrite Hp in R2, R5. split; [|done].
  pose proof (handleTorrentReady_ok s torr infoHash now Hok) as (_ & _ & Hkeys).
  replace (infoHash, p) with (file_key f') by (unfold file_key; by rewrite R1, R2).
  by apply NoDup_key_filter.
Qed.



(** The catalog of the example is well formed. *)
Lemma Example_prior_ok : catalog_ok (db Example.prior).
Proof.
  repeat split.
  - refine (bool_decide_unpack _ _). vm_compute. exact I.
  - repeat constructor.
  - refine (bool_decide_unpack _ _). vm_compute. exact I.
Qed.

(** C6.  From the catalog {a:10, b:20} and the report [b:25, c:5] the pass
    stages the creation of [c] with length 5 and index 1, the update of
    [b] to length 25 and index 0 and the deletion of [a], and the rows
    afterwards are [b] and [c] in the reported order.  In general, on a
    well-formed catalog, a persisted row whose path is not reported is
    still in the lookup when the walk ends and no row with its path is
    left after the pass. *)
Theorem C6_reconciliation_diff :
  (let torr := Example.report [("b", 25); ("c", 5)] in
   let st := reconcile (db Example.prior) torr "abc" 7 in
   Example.summary <$> filesToCreate st = [("c", 5, 1)] ∧
   Example.summary <$> filesToUpdate st = [("b", 25, 0)] ∧
   Example.summary <$> (map_to_list (existingFileMap st)).*2 = [("a", 10, 0)] ∧
   Example.summary <$> files (db (handleTorrentReady Example.prior torr "abc" 7))
   = [("b", 25, 0); ("c", 5, 1)]) ∧
  (∀ (s : TorrentService) (torr : torrent.Torrent) (infoHash : string) (now : Z)
     (f : File.t),
     catalog_ok (db s) →
     f ∈ files (db s) → File.MagnetID f = infoHash →
     File.FilePath f ∉ torrent.Path <$> torrent.Files torr →
     existingFileMap (reconcile (db s) torr infoHash now) !! File.FilePath f = Some f ∧
     filter (fun g => file_key g = (infoHash, File.FilePath f))
       (files (db (handleTorrentReady s torr infoHash now))) = []).
Proof.
  split; [vm_compute; done|].
  intros s torr infoHash now f Hok Hf Hid Hp. split.
  - destruct (st_spec s torr infoHash now) as (Hm & _ & _). rewrite Hm.
    rewrite decide_False.
    + by apply (M0_spec s infoHash Hok).
    + intros Hin. apply Hp. apply list_elem_of_fmap in Hin as ([k file] & -> & Hin).
      by apply (FL_reported_path torr k).
  - apply elem_of_nil_inv. intros g Hg.
    apply list_elem_of_filter in Hg as [[= Hgid Hgp] Hg].
    destruct (row_after s torr infoHash now Hok g Hg Hgid) as (k & file & Hin & _ & R2 & _).
    apply Hp. rewrite <- Hgp, R2. by apply (FL_reported_path torr k).
Qed.

(** The row [a] of the example is gone after the pass. *)
Lemma C6_reconciliation_diff_witness :
  let torr := Example.report [("b", 25); ("c", 5)] in
  filter (fun g => file_key g = ("abc", "a"))
    (files (db (handleTorrentReady Example.prior torr "abc" 7))) = [].
Proof.
  intros torr.
  destruct C6_reconciliation_diff as [_ H].
  apply (H Example.prior torr "abc" 7 (Fixtures.row 1 "a" 10 0)).
  - apply Example_prior_ok.
  - apply list_elem_of_here.
  - reflexivity.
  - vm_compute. intros H1. repeat (apply elem_of_cons in H1 as [H1|H1]; [discriminate|]).
    by apply elem_of_nil in H1.
Defined.

(** The example reconciled twice. *)
Lemma C5_reconciliation_idempotent_witness :
  let torr := Example.report [("b", 25); ("c", 5)] in
  let s1 := handleTorrentReady Example.prior torr "abc" 7 in
  let st := reconcile (db s1) torr "abc" 9 in
  filesToCreate st = [] ∧ filesToUpdate st = [] ∧ existingFileMap st = ∅ ∧
  files (db (handleTorrentReady s1 torr "abc" 9)) = files (db s1).
Proof.
  intros torr. apply (C5_reconciliation_idempotent Example.prior torr "abc" 7 9).
  apply Example_prior_ok.
Defined.

(** A report that repeats [b] and [c]: the row of [c] keeps index 1 and
    length 5. *)
Lemma C7_duplicate_path_first_occurrence_witness :
  let torr := Example.report [("b", 25); ("c", 5); ("b", 99); ("c", 1)] in
  ∃ f', filter (fun f => file_key f = ("abc", "c"))
          (files (db (handleTorrentReady Example.prior torr "abc" 7))) = [f'] ∧
        File.FileIndex f' = 1 ∧ File.FileSize f' = 5 ∧
        File.MimeType f' = "application/octet-stream".
Proof.
  intros torr.
  apply (C7_duplicate_path_first_occurrence Example.prior torr "abc" 7 "c" 1
           {| torrent.Path := "c"; torrent.Length := 5; torrent.Data := "" |}).
  - apply Example_prior_ok.
  - reflexivity.
Defined.

(** * Further properties of the handlers and of the service *)

Local Open Scope string_scope.

(** ** Splitting and joining *)

Lemma Split_nonempty (s : string) (sep : ascii) : Go.Split s sep ≠ [].
Proof.
  destruct s as [|c s]; [done|]. cbn [Go.Split].
  destruct (Ascii.eqb c sep); [done|]. by destruct (Go.Split s sep).
Qed.

Lemma Join_Split (s : string) (sep : ascii) :
  Go.Join (Go.Split s sep) (String sep EmptyString) = s.
Proof.
  induction s as [|c s IH]; [done|]. cbn [Go.Split].
  destruct (Ascii.eqb_spec c sep) as [->|Hne].
  - pose proof (Split_nonempty s sep).
    destruct (Go.Split s sep) as [|p ps]; [done|].
    change (Go.Join (EmptyString :: p :: ps) (String sep EmptyString))
      with (String sep (Go.Join (p :: ps) (String sep EmptyString))).
    by rewrite IH.
  - pose proof (Split_nonempty s sep).
    destruct (Go.Split s sep) as [|p ps]; [done|].
    destruct ps as [|q ps].
    + cbn in IH. cbn. by rewrite IH.
    + change (Go.Join (String c p :: q :: ps) (String sep EmptyString))
        with (String c (Go.Join (p :: q :: ps) (String sep EmptyString))).
      by rewrite IH.
Qed.

Lemma Split_parts_no_sep (s : string) (sep : ascii) (p : string) :
  p ∈ Go.Split s sep → has_byte sep p = false.
Proof.
  revert p. induction s as [|c s IH]; intros p Hp.
  - apply list_elem_of_singleton in Hp as ->. done.
  - cbn [Go.Split] in Hp. destruct (Ascii.eqb c sep) eqn:E.
    + apply elem_of_cons in Hp as [->|Hp]; [done | by apply IH].
    + pose proof (Split_nonempty s sep).
      destruct (Go.Split s sep) as [|q qs]; [done|].
      apply elem_of_cons in Hp as [->|Hp].
      * cbn. rewrite E. apply IH. apply list_elem_of_here.
      * apply IH. by apply list_elem_of_further.
Qed.

Lemma Split_no_sep (s : string) (sep : ascii) :
  has_byte sep s = false → Go.Split s sep = [s].
Proof.
  induction s as [|c s IH]; intros H; [done|].
  cbn in H. apply orb_false_iff in H as [Hc Hs].
  cbn [Go.Split]. by rewrite Hc, (IH Hs).
Qed.

Lemma Split_app_sep (a b : string) (sep : ascii) :
  has_byte sep a = false →
  Go.Split (a ++ String sep b) sep = a :: Go.Split b sep.
Proof.
  induction a as [|c a IH]; intros H.
  - change (Go.Split (String sep b) sep = EmptyString :: Go.Split b sep).
    cbn [Go.Split]. by rewrite Ascii.eqb_refl.
  - cbn in H. apply orb_false_iff in H as [Hc Ha].
    change (Go.Split (String c (a ++ String sep b)) sep = String c a :: Go.Split b sep).
    cbn [Go.Split]. by rewrite Hc, (IH Ha).
Qed.

(** ** Decimal numerals *)

Lemma parse_digits_nonneg (s : string) : ∀ acc n,
  0 <= acc → Go.parse_digits s acc = Some n → 0 <= n.
Proof.
  induction s as [|c s IH]; intros acc n Hacc H; cbn in H.
  - by injection H as <-.
  - unfold Go.digit_val in H. case_bool_decide; [|done].
    eapply IH; [|exact H]. lia.
Qed.

Lemma ParseInt_range (s : string) (n : Z) :
  Go.ParseInt s = Some n → Go.MinInt64 <= n <= Go.MaxInt64.
Proof.
  unfold Go.ParseInt, Go.MinInt64, Go.MaxInt64. destruct s as [|c s]; [done|].
  destruct (Ascii.eqb c "+"), (Ascii.eqb c "-");
    repeat match goal with
    | |- context [match ?x with EmptyString => _ | String _ _ => _ end] => destruct x eqn:?
    | |- context [Go.parse_digits ?x ?a] =>
        destruct (Go.parse_digits x a) as [m|] eqn:Hd
    end; try done;
    try (pose proof (parse_digits_nonneg _ _ _ (Z.le_refl 0) Hd));
    case_bool_decide; intros [= <-]; lia.
Qed.

Lemma ParseInt_unsigned (s : string) (n : Z) :
  has_byte "-" s = false → Go.ParseInt s = Some n → 0 <= n <= Go.MaxInt64.
Proof.
  intros Hs H. pose proof (ParseInt_range s n H) as [_ Hmax]. split; [|done].
  unfold Go.ParseInt in H. destruct s as [|c s]; [done|].
  cbn in Hs. apply orb_false_iff in Hs as [Hc _]. rewrite Hc in H.
  destruct (Ascii.eqb c "+").
  - destruct s; [done|]. destruct (Go.parse_digits _ _) as [m|] eqn:Hd; [|done].
    case_bool_decide; [|done]. injection H as <-.
    by eapply parse_digits_nonneg.
  - destruct (Go.parse_digits _ _) as [m|] eqn:Hd; [|done].
    case_bool_decide; [|done]. injection H as <-.
    by eapply parse_digits_nonneg.
Qed.

Lemma MaxInt64_val : Go.MaxInt64 = 9223372036854775807.
Proof. reflexivity. Qed.

Lemma prefix_drop (p s : string) :
  String.prefix p s = true → s = p ++ Go.drop_bytes (String.length p) s.
Proof.
  revert s. induction p as [|c p IH]; intros s H; [by destruct s|].
  destruct s as [|d s]; [done|]. cbn in H.
  destruct (ascii_dec c d) as [->|]; [|done].
  change (String d s = String d (p ++ Go.drop_bytes (String.length p) s)).
  f_equal. by apply IH.
Qed.

(** X1.  A [Range] header is accepted only in the form [bytes=<first>-<last>]
    with an optional [<last>]: neither bound is negative, a suffix range
    ([bytes=-500]) and a list of ranges are refused. *)
Theorem X_parseRangeHeader_accepts (rangeHeader : string) (ri : handlers.rangeInfo) :
  handlers.parseRangeHeader rangeHeader = Ok ri →
  ∃ p0 p1,
    rangeHeader = "bytes=" ++ p0 ++ "-" ++ p1 ∧
    has_byte "-" p0 = false ∧ has_byte "-" p1 = false ∧
    Go.ParseInt p0 = Some (handlers.start ri) ∧
    (if String.eqb p1 "" then handlers.end_ ri = 0
     else Go.ParseInt p1 = Some (handlers.end_ ri)) ∧
    0 <= handlers.start ri <= Go.MaxInt64 ∧
    0 <= handlers.end_ ri <= Go.MaxInt64.
Proof.
  unfold handlers.parseRangeHeader, Go.TrimPrefix.
  destruct (Go.HasPrefix rangeHeader "bytes=") eqn:Hpre; [|done]. cbn [negb].
  pose proof (prefix_drop _ _ Hpre) as Hh.
  set (rangeStr := Go.drop_bytes (String.length "bytes=") rangeHeader) in *.
  pose proof (Join_Split rangeStr "-") as HJ.
  pose proof (Split_parts_no_sep rangeStr "-") as Hno.
  destruct (Go.Split rangeStr "-") as [|p0 [|p1 [|p2 ps]]]; try done.
  assert (H0 : has_byte "-" p0 = false) by (apply Hno; set_solver).
  assert (H1 : has_byte "-" p1 = false) by (apply Hno; set_solver).
  destruct (Go.ParseInt p0) as [a|] eqn:Ha; [|done].
  pose proof (ParseInt_unsigned _ _ H0 Ha) as Hra.
  destruct (String.eqb_spec p1 "") as [->|Hne].
  - intros [= <-]. exists p0, "". cbn [handlers.start handlers.end_].
    rewrite Hh, <- HJ. rewrite MaxInt64_val in *. repeat split; try done; lia.
  - destruct (Go.ParseInt p1) as [b|] eqn:Hb; [|done].
    pose proof (ParseInt_unsigned _ _ H1 Hb) as Hrb.
    intros [= <-]. exists p0, p1. cbn [handlers.start handlers.end_].
    rewrite Hh, <- HJ. rewrite (proj2 (String.eqb_neq p1 "") Hne).
    repeat split; try done; lia.
Qed.

Lemma X_parseRangeHeader_accepts_witness :
  ∃ p0 p1, "bytes=5-9" = "bytes=" ++ p0 ++ "-" ++ p1 ∧
           has_byte "-" p0 = false ∧ has_byte "-" p1 = false.
Proof.
  destruct (X_parseRangeHeader_accepts "bytes=5-9" (handlers.mkRange 5 9) eq_refl)
    as (p0 & p1 & H & H0 & H1 & _).
  by exists p0, p1.
Defined.

(** *** Printing and parsing a decimal numeral *)

Local Ltac eval_digit :=
  match goal with
  | |- context [Go.digit_val ?c] =>
      let v := eval vm_compute in (Go.digit_val c) in
      change (Go.digit_val c) with v; cbv iota
  end.

Lemma parse_digits_uint_acc (d : Decimal.uint) : ∀ acc : positive,
  Go.parse_digits (DecimalString.NilEmpty.string_of_uint d) (Z.pos acc)
  = Some (Z.pos (Pos.of_uint_acc d acc)).
Proof.
  induction d; intros acc; cbn [DecimalString.NilEmpty.string_of_uint Go.parse_digits Pos.of_uint_acc];
    try done;
    (eval_digit;
     match goal with
     | |- Go.parse_digits _ ?z = Some (Z.pos (Pos.of_uint_acc _ ?q)) =>
         replace z with (Z.pos q) by (cbn; lia)
     end; apply IHd).
Qed.

Lemma parse_digits_uint (d : Decimal.uint) :
  Go.parse_digits (DecimalString.NilEmpty.string_of_uint d) 0 = Some (Z.of_N (Pos.of_uint d)).
Proof.
  induction d; cbn [DecimalString.NilEmpty.string_of_uint Go.parse_digits Pos.of_uint];
    try done;
    eval_digit;
    first [ exact IHd
          | match goal with
            | |- Go.parse_digits _ ?z = Some (Z.of_N (N.pos (Pos.of_uint_acc _ ?q))) =>
                replace z with (Z.pos q) by (cbn; lia)
            end; apply parse_digits_uint_acc ].
Qed.

Lemma string_of_uint_digits (d : Decimal.uint) (c : ascii) :
  Go.digit_val c = None → has_byte c (DecimalString.NilEmpty.string_of_uint d) = false.
Proof.
  intros Hc. induction d; cbn [DecimalString.NilEmpty.string_of_uint has_byte]; try done;
    rewrite IHd, orb_false_r; apply Ascii.eqb_neq; intros <-; done.
Qed.

Lemma FormatInt_nonneg (n : Z) :
  0 <= n →
  ∃ d, d ≠ Decimal.Nil ∧
       Go.FormatInt n = DecimalString.NilEmpty.string_of_uint d ∧
       Z.of_N (Pos.of_uint d) = n.
Proof.
  intros Hn. unfold Go.FormatInt. destruct n as [|p|p]; [| |lia].
  - by exists (Decimal.D0 Decimal.Nil).
  - exists (Pos.to_uint p). pose proof (DecimalPos.Unsigned.to_uint_nonnil p) as Hnil.
    split; [done|]. split.
    + cbn. by destruct (Pos.to_uint p).
    + by rewrite DecimalPos.Unsigned.of_to.
Qed.

Lemma FormatInt_unsigned (n : Z) (c : ascii) :
  0 <= n → Go.digit_val c = None → has_byte c (Go.FormatInt n) = false.
Proof.
  intros Hn Hc. destruct (FormatInt_nonneg n Hn) as (d & _ & -> & _).
  by apply string_of_uint_digits.
Qed.

Lemma FormatInt_nonempty (n : Z) : 0 <= n → Go.FormatInt n ≠ EmptyString.
Proof.
  intros Hn. destruct (FormatInt_nonneg n Hn) as (d & Hd & -> & _).
  by destruct d.
Qed.

Lemma ParseInt_FormatInt (n : Z) :
  0 <= n <= Go.MaxInt64 → Go.ParseInt (Go.FormatInt n) = Some n.
Proof.
  intros [Hn Hmax].
  pose proof (FormatInt_unsigned n "+" Hn eq_refl) as Hplus.
  pose proof (FormatInt_unsigned n "-" Hn eq_refl) as Hminus.
  pose proof (FormatInt_nonempty n Hn) as Hne.
  destruct (FormatInt_nonneg n Hn) as (d & _ & Hs & Hv).
  pose proof (parse_digits_uint d) as Hp. rewrite <- Hs, Hv in Hp.
  unfold Go.ParseInt. destruct (Go.FormatInt n) as [|c s]; [done|].
  cbn in Hplus, Hminus.
  apply orb_false_iff in Hplus as [-> _]. apply orb_false_iff in Hminus as [-> _].
  rewrite Hp. by rewrite bool_decide_eq_true_2.
Qed.

(** X2.  A range header written as [bytes=<first>-<last>] with decimal bounds
    within [int64] is parsed to exactly those bounds, and the open-ended
    [bytes=<first>-] to the end 0: [FormatInt] and [ParseInt] are inverse
    to each other on these numbers. *)
Theorem X_parseRangeHeader_roundtrip (a b : Z) :
  0 <= a <= Go.MaxInt64 → 0 <= b <= Go.MaxInt64 →
  handlers.parseRangeHeader ("bytes=" ++ Go.FormatInt a ++ "-" ++ Go.FormatInt b)
  = Ok {| handlers.start := a; handlers.end_ := b |} ∧
  handlers.parseRangeHeader ("bytes=" ++ Go.FormatInt a ++ "-")
  = Ok {| handlers.start := a; handlers.end_ := 0 |}.
Proof.
  intros Ha Hb.
  assert (Hsplit : ∀ t, has_byte "-" t = false →
            handlers.parseRangeHeader ("bytes=" ++ Go.FormatInt a ++ "-" ++ t)
            = if String.eqb t "" then Ok {| handlers.start := a; handlers.end_ := 0 |}
              else match Go.ParseInt t with
                   | Some e => Ok {| handlers.start := a; handlers.end_ := e |}
                   | None => Err "strconv.ParseInt"
                   end).
  { intros t Ht. unfold handlers.parseRangeHeader, Go.TrimPrefix, Go.HasPrefix.
    rewrite prefix_app. cbn [negb]. rewrite (drop_bytes_app "bytes=").
    change (Go.FormatInt a ++ "-" ++ t) with (Go.FormatInt a ++ String "-" t).
    rewrite Split_app_sep by (apply FormatInt_unsigned; [lia | done]).
    rewrite (Split_no_sep t) by done.
    by rewrite ParseInt_FormatInt. }
  split.
  - rewrite Hsplit by (apply FormatInt_unsigned; [lia | done]).
    rewrite ParseInt_FormatInt by done.
    destruct (String.eqb_spec (Go.FormatInt b) "") as [E|_]; [|done].
    by apply FormatInt_nonempty in E; [|lia].
  - apply (Hsplit ""). done.
Qed.

Lemma X_parseRangeHeader_roundtrip_witness :
  handlers.parseRangeHeader ("bytes=" ++ Go.FormatInt 5 ++ "-" ++ Go.FormatInt 9)
  = Ok {| handlers.start := 5; handlers.end_ := 9 |}.
Proof.
  apply (X_parseRangeHeader_roundtrip 5 9); rewrite MaxInt64_val; lia.
Defined.

(** ** Opening a stream *)

Lemma find_file_list_find (fs : list torrent.File) (p : string) :
  find_file fs p = snd <$> list_find (fun f => torrent.Path f = p) fs.
Proof.
  induction fs as [|f fs IH]; [done|]. cbn [find_file list_find].
  destruct (String.eqb_spec (torrent.Path f) p) as [Heq|Hne].
  - by rewrite decide_True.
  - rewrite decide_False by done. rewrite IH.
    by destruct (list_find _ fs) as [[n x]|].
Qed.

(** X3.  [GetFileStream] succeeds exactly when the identifier has a registered
    session with metadata that reports the path.  It then returns the
    first reported file with that path and an open reader on it at offset
    [start] (offset 0 when [start] is not positive), and starts one
    statistics update; a failed call starts none.  The argument [end] has
    no influence. *)
Theorem X_GetFileStream_spec (s : TorrentService) (infoHash filePath : string)
    (a b : Z) :
  GetFileStream s infoHash filePath a b = GetFileStream s infoHash filePath a 0 ∧
  match GetFileStream s infoHash filePath a b with
  | (Ok (file, reader), spawned) =>
      resolves s infoHash filePath file ∧
      (∃ h i n, GetTorrent s infoHash = Some h ∧
                torrent.info (deref s h) = Some i ∧
                list_find (fun f => torrent.Path f = filePath) (torrent.InfoFiles i)
                = Some (n, file)) ∧
      torrent.rfile reader = file ∧
      torrent.pos reader = Z.max 0 a ∧
      torrent.closed reader = false ∧
      spawned = [go_updateAccessStats infoHash]
  | (Err _, spawned) =>
      (∀ file, ¬ resolves s infoHash filePath file) ∧ spawned = []
  end.
Proof.
  split; [done|]. unfold GetFileStream, resolves.
  destruct (GetTorrent s infoHash) as [h|] eqn:Hh.
  2:{ split; [|done]. intros file (h & i & ? & _). done. }
  destruct (torrent.info (deref s h)) as [i|] eqn:Hi.
  2:{ split; [|done]. intros file (h' & i & [= <-] & ? & _). congruence. }
  assert (HF : torrent.Files (deref s h) = torrent.InfoFiles i).
  { unfold torrent.Files. by rewrite Hi. }
  rewrite !HF.
  destruct (torrent.InfoFiles i) as [|f fs] eqn:Hfs.
  { split; [|done]. intros file (h' & i' & [= <-] & Hi' & Hf).
    rewrite Hi in Hi'. injection Hi' as <-. by rewrite Hfs in Hf. }
  destruct (find_file (f :: fs) filePath) as [file|] eqn:Hf.
  - split.
    { exists h, i. split; [done|]. split; [done|]. rewrite Hfs. exact Hf. }
    split.
    { rewrite find_file_list_find in Hf.
      destruct (list_find _ (f :: fs)) as [[n x]|] eqn:Hfind; [|done].
      injection Hf as ->. exists h, i, n. by rewrite Hfs. }
    case_bool_decide; cbn; repeat split; try done; lia.
  - split; [|done]. intros file (h' & i' & [= <-] & Hi' & Hf').
    rewrite Hi in Hi'. injection Hi' as <-. rewrite Hfs in Hf'. congruence.
Qed.

(** ** The conditional request *)

(** Looking a header up in a map built by successive [Set]s. *)
Ltac lookup_header :=
  repeat first [ rewrite lookup_insert_eq | rewrite lookup_insert_ne by done ].

Lemma isVideoFile_Some_iff (filePath : string) :
  is_Some (handlers.isVideoFile filePath) ↔ has_byte "." filePath = true.
Proof.
  split; [|apply isVideoFile_dotted].
  intros [v Hv]. destruct (has_byte "." filePath) eqn:E; [done|].
  by rewrite isVideoFile_dotless in Hv.
Qed.

(** X4.  For a path with an extension, the request is cut short with 304
    exactly when [If-None-Match] is the validator of the triple.  Either
    way the [ETag] header carries the validator and the body is left as
    it was; without a match no status is written. *)
Theorem X_handleConditionalRequest_iff (w : handlers.ResponseWriter)
    (r : handlers.Request) (filePath : string) (a b : Z) (expires : string) :
  has_byte "." filePath = true →
  handlers.status w = None →
  ∃ w',
    handlers.handleConditionalRequest w r filePath a b expires
    = Some (w', bool_decide (handlers.Header_Get r "If-None-Match"
                             = handlers.generateETag filePath a b)) ∧
    handlers.header w' !! "ETag" = Some (handlers.generateETag filePath a b) ∧
    handlers.header w' !! "Expires" = Some expires ∧
    handlers.body w' = handlers.body w ∧
    handlers.status w'
    = if bool_decide (handlers.Header_Get r "If-None-Match"
                      = handlers.generateETag filePath a b)
      then Some handlers.StatusNotModified else None.
Proof.
  intros Hdot Hw. destruct (isVideoFile_dotted _ Hdot) as [v Hv].
  unfold handlers.handleConditionalRequest, handlers.setCacheHeaders.
  rewrite Hv.
  destruct (String.eqb_spec (handlers.Header_Get r "If-None-Match")
              (handlers.generateETag filePath a b)) as [Heq|Hne].
  - rewrite Heq, generateETag_nonempty. cbn [negb andb].
    rewrite bool_decide_eq_true_2 by done.
    eexists. split; [reflexivity|].
    unfold handlers.WriteHeader. cbn. rewrite Hw. cbn. by lookup_header.
  - rewrite andb_false_r. rewrite bool_decide_eq_false_2 by done.
    eexists. split; [reflexivity|]. cbn. by lookup_header.
Qed.

Lemma X_handleConditionalRequest_iff_witness :
  ∃ w', handlers.handleConditionalRequest handlers.NewResponse
          (Fixtures.get "/webdav/abc/movie.bin" ∅) "movie.bin" 0 0 "soon"
        = Some (w', false) ∧ handlers.status w' = None.
Proof.
  destruct (X_handleConditionalRequest_iff handlers.NewResponse
              (Fixtures.get "/webdav/abc/movie.bin" ∅) "movie.bin" 0 0 "soon"
              eq_refl eq_refl) as (w' & H & _ & _ & _ & Hs).
  exists w'. split; [exact H | exact Hs].
Defined.


Lemma wrap64_id (z : Z) : Go.MinInt64 <= z <= Go.MaxInt64 → Go.wrap64 z = z.
Proof.
  unfold Go.wrap64, Go.MinInt64, Go.MaxInt64. intros H.
  rewrite Z.mod_small; lia.
Qed.

Lemma drop_bytes_length (n : nat) (s : string) :
  String.length (Go.drop_bytes n s) = (String.length s - n)%nat.
Proof.
  revert s. induction n as [|n IH]; intros [|c s]; cbn; try done; try lia.
Qed.

Lemma getMimeType_dotted (filename : string) :
  has_byte "." filename = true → is_Some (handlers.getMimeType filename).
Proof.
  intros H. unfold handlers.getMimeType, Go.LastIndex, Go.slice_from.
  destruct (last_index_from_present _ _ 0 H) as (j & -> & Hj). simpl.
  rewrite bool_decide_eq_true_2 by lia.
  destruct (handlers.mimeTypes !! _); eauto.
Qed.

Lemma GetFileStream_ok (s : TorrentService) (infoHash filePath : string)
    (file : torrent.File) (a b : Z) :
  resolves s infoHash filePath file →
  GetFileStream s infoHash filePath a b
  = (Ok (file, if bool_decide (0 < a) then torrent.Seek (torrent.NewReader file) a
               else torrent.NewReader file),
     [go_updateAccessStats infoHash]).
Proof.
  intros (h & i & Hh & Hi & Hf). unfold GetFileStream.
  rewrite Hh, Hi. unfold torrent.Files. rewrite Hi.
  destruct (torrent.InfoFiles i) as [|f fs] eqn:E; [done|].
  by rewrite Hf.
Qed.

Lemma handleConditionalRequest_nomatch (w : handlers.ResponseWriter)
    (r : handlers.Request) (filePath : string) (a b : Z) (expires : string) :
  has_byte "." filePath = true →
  handlers.Header_Get r "If-None-Match" ≠ handlers.generateETag filePath a b →
  ∃ w', handlers.handleConditionalRequest w r filePath a b expires = Some (w', false) ∧
        handlers.status w' = handlers.status w ∧
        handlers.body w' = handlers.body w ∧
        handlers.header w' !! "ETag" = Some (handlers.generateETag filePath a b) ∧
        handlers.header w' !! "Content-Range" = handlers.header w !! "Content-Range".
Proof.
  intros Hdot Hne. destruct (isVideoFile_dotted _ Hdot) as [v Hv].
  unfold handlers.handleConditionalRequest, handlers.setCacheHeaders.
  rewrite Hv. rewrite (proj2 (String.eqb_neq _ _) Hne), andb_false_r.
  eexists. split; [reflexivity|]. cbn. by lookup_header.
Qed.


Lemma GetFileStream_cases (s : TorrentService) (infoHash filePath : string)
    (a b : Z) :
  (∃ file, resolves s infoHash filePath file) ∨
  ((∀ file, ¬ resolves s infoHash filePath file) ∧
   ∃ msg, GetFileStream s infoHash filePath a b = (Err msg, [])).
Proof.
  unfold GetFileStream, resolves.
  destruct (GetTorrent s infoHash) as [h|] eqn:Hh.
  2:{ right. split; [|eauto]. intros file (h & i & ? & _). done. }
  destruct (torrent.info (deref s h)) as [i|] eqn:Hi.
  2:{ right. split; [|eauto]. intros file (h' & i & [= <-] & ? & _). congruence. }
  assert (HF : torrent.Files (deref s h) = torrent.InfoFiles i).
  { unfold torrent.Files. by rewrite Hi. }
  rewrite !HF.
  destruct (torrent.InfoFiles i) as [|f fs] eqn:Hfs.
  { right. split; [|eauto]. intros file (h' & i' & [= <-] & Hi' & Hf).
    rewrite Hi in Hi'. injection Hi' as <-. by rewrite Hfs in Hf. }
  destruct (find_file (f :: fs) filePath) as [file|] eqn:Hf.
  - left. exists file, h, i. split; [done|]. split; [done|]. by rewrite Hfs.
  - right. split; [|eauto]. intros file (h' & i' & [= <-] & Hi' & Hf').
    rewrite Hi in Hi'. injection Hi' as <-. rewrite Hfs in Hf'. congruence.
Qed.

(** X5.  A request for a file that does not resolve (no session, no metadata
    yet, or no such path) is answered 404 with a fixed text whatever its
    headers say; no statistics update is started and nothing panics, also
    for a name without a dot. *)
Theorem X_handleGet_unresolved (s : TorrentService) (r : handlers.Request)
    (expires magnetID filePath : string) :
  routes_to r magnetID filePath →
  (∀ file, ¬ resolves s magnetID filePath file) →
  handlers.handleGet s r expires
  = (handlers.Responded
       (handlers.http_Error handlers.NewResponse "File not found or not ready"
          handlers.StatusNotFound), []) ∧
  handlers.final_status
    (handlers.http_Error handlers.NewResponse "File not found or not ready"
       handlers.StatusNotFound) = 404.
Proof.
  intros (p1 & rest & Hsplit & Hunesc) Hno. split; [|done].
  unfold handlers.handleGet. rewrite Hsplit, Hunesc.
  destruct (if String.eqb (handlers.Header_Get r "Range") "" then (0, 0)
            else match handlers.parseRangeHeader (handlers.Header_Get r "Range") with
                 | Ok parsed => (handlers.start parsed, handlers.end_ parsed)
                 | Err _ => (0, 0)
                 end) as [a b].
  destruct (GetFileStream_cases s magnetID filePath a b) as [[file Hf]|[_ [msg ->]]].
  - by destruct (Hno file).
  - done.
Qed.

Lemma X_handleGet_unresolved_witness :
  (handlers.handleGet Fixtures.svc (Fixtures.get "/webdav/nobody/README" ∅) "soon").2 = [].
Proof.
  destruct (X_handleGet_unresolved Fixtures.svc
              (Fixtures.get "/webdav/nobody/README" ∅) "soon" "nobody" "README")
    as [-> _]; [| |reflexivity].
  - exists "README", []. split; reflexivity.
  - intros file (h & i & Hh & _). vm_compute in Hh. discriminate.
Defined.

(** ** HEAD *)

Lemma handleConditionalRequest_body (w w' : handlers.ResponseWriter)
    (r : handlers.Request) (filePath : string) (a b : Z) (expires : string)
    (flag : bool) :
  handlers.handleConditionalRequest w r filePath a b expires = Some (w', flag) →
  handlers.body w' = handlers.body w.
Proof.
  unfold handlers.handleConditionalRequest, handlers.setCacheHeaders.
  destruct (handlers.isVideoFile filePath); [|done].
  destruct (negb _ && _); intros [= <- <-]; unfold handlers.WriteHeader; cbn;
    repeat (match goal with |- context [match ?x with Some _ => _ | None => _ end] =>
              destruct x end; cbn); done.
Qed.

Lemma body_WriteHeader (w : handlers.ResponseWriter) (code : Z) :
  handlers.body (handlers.WriteHeader w code) = handlers.body w.
Proof. unfold handlers.WriteHeader. by destruct (handlers.status w). Qed.

Lemma CopyN_same_head (w : handlers.ResponseWriter) (reader : torrent.Reader) (n : Z) :
  handlers.header (handlers.CopyN w reader n) = handlers.header w ∧
  handlers.final_status (handlers.CopyN w reader n) = handlers.final_status w.
Proof.
  unfold handlers.CopyN. destruct (torrent.read_n reader n); [done|].
  unfold handlers.Write, handlers.WriteHeader, handlers.final_status.
  destruct (handlers.status w) eqn:E; cbn; rewrite ?E; done.
Qed.

(** X6.  A HEAD request is answered like the GET for the same path and
    headers: same goroutines, same outcome, and for a response the same
    headers and status, with either the same body (errors, 304) or no
    body at all (the file bytes are not copied). *)
Theorem X_handleGet_HEAD (s : TorrentService) (r : handlers.Request)
    (expires : string) :
  let g := handlers.handleGet s (with_method r "GET") expires in
  let h := handlers.handleGet s (with_method r "HEAD") expires in
  h.2 = g.2 ∧
  match g.1, h.1 with
  | handlers.Responded wg, handlers.Responded wh =>
      handlers.header wh = handlers.header wg ∧
      handlers.final_status wh = handlers.final_status wg ∧
      (handlers.body wh = handlers.body wg ∨ handlers.body wh = "")
  | handlers.Panicked, handlers.Panicked => True
  | handlers.DirectoryListing x, handlers.DirectoryListing y => x = y
  | _, _ => False
  end.
Proof.
  unfold handlers.handleGet, with_method, handlers.Header_Get.
  cbn [handlers.URLPath handlers.Header handlers.Method].
  destruct (Go.Split _ "/") as [|p0 [|p1 rest]]; [done..|].
  destruct (Go.PathUnescape _) as [filePath|];
    [|cbn; split; [done|]; split; [done|]; split; [done|]; by left].
  destruct (if String.eqb _ "" then (0, 0) else _) as [a b].
  destruct (GetFileStream s p0 filePath a b) as [[[file reader]|msg] spawned];
    [|cbn; split; [done|]; split; [done|]; split; [done|]; by left].
  destruct (handlers.handleConditionalRequest _ _ _ _ _ _) as [[w' [|]]|] eqn:Hc;
    [cbn; split; [done|]; split; [done|]; split; [done|]; by left| |done].
  apply handleConditionalRequest_body in Hc. cbn in Hc.
  destruct (handlers.getMimeType filePath) as [mime|]; [|done].
  change (String.eqb "GET" "GET") with true. change (String.eqb "HEAD" "GET") with false.
  cbv iota. cbn [fst snd]. split; [done|].
  match goal with |- context [handlers.CopyN ?w ?rd ?n] =>
    destruct (CopyN_same_head w rd n) as [-> ->]; set (wh := w)
  end.
  split; [done|]. split; [done|]. right.
  unfold wh. destruct (_ || negb _); rewrite ?body_WriteHeader; exact Hc.
Qed.

(** ** Serving a file *)

Lemma take_bytes_all (s : string) : Go.take_bytes (String.length s) s = s.
Proof. induction s as [|c s IH]; [done|]. cbn. by rewrite IH. Qed.

Lemma take_bytes_ge (n : nat) (s : string) :
  (String.length s ≤ n)%nat → Go.take_bytes n s = s.
Proof.
  revert s. induction n as [|n IH]; intros [|c s] H; cbn in *; try done; try lia.
  rewrite IH; [done | lia].
Qed.

Lemma drop_bytes_ge (n : nat) (s : string) :
  (String.length s ≤ n)%nat → Go.drop_bytes n s = "".
Proof.
  revert s. induction n as [|n IH]; intros [|c s] H; cbn in *; try done; try lia.
  apply IH. lia.
Qed.

Lemma parseRangeHeader_bounds (h : string) (ri : handlers.rangeInfo) :
  handlers.parseRangeHeader h = Ok ri →
  0 <= handlers.start ri <= Go.MaxInt64 ∧ 0 <= handlers.end_ ri <= Go.MaxInt64.
Proof.
  unfold handlers.parseRangeHeader.
  destruct (negb _); [done|].
  pose proof (Split_parts_no_sep (Go.TrimPrefix h "bytes=") "-") as Hno.
  destruct (Go.Split _ "-") as [|p0 [|p1 [|p2 ps]]]; try done.
  assert (H0 : has_byte "-" p0 = false) by (apply Hno; set_solver).
  assert (H1 : has_byte "-" p1 = false) by (apply Hno; set_solver).
  destruct (Go.ParseInt p0) as [a|] eqn:Ha; [|done].
  pose proof (ParseInt_unsigned _ _ H0 Ha) as Hra.
  destruct (String.eqb p1 "").
  - intros [= <-]. cbn. rewrite MaxInt64_val in *. lia.
  - destruct (Go.ParseInt p1) as [b|] eqn:Hb; [|done].
    pose proof (ParseInt_unsigned _ _ H1 Hb) as Hrb.
    by intros [= <-].
Qed.

Lemma requested_range_bounds (r : handlers.Request) :
  0 <= (requested_range r).1 <= Go.MaxInt64 ∧
  0 <= (requested_range r).2 <= Go.MaxInt64.
Proof.
  unfold requested_range. rewrite MaxInt64_val.
  destruct (String.eqb _ ""); [cbn; lia|].
  destruct (handlers.parseRangeHeader _) as [ri|msg] eqn:E; [|cbn; lia].
  apply parseRangeHeader_bounds in E. rewrite MaxInt64_val in E. exact E.
Qed.

Lemma string_app_nil_r (s : string) : s ++ "" = s.
Proof.
  induction s as [|c s IH]; [done|].
  change (String c (s ++ "") = String c s). by rewrite IH.
Qed.

Lemma body_CopyN (w : handlers.ResponseWriter) (reader : torrent.Reader) (n : Z) :
  handlers.body (handlers.CopyN w reader n)
  = handlers.body w ++ torrent.read_n reader n.
Proof.
  unfold handlers.CopyN. destruct (torrent.read_n reader n) eqn:E.
  - by rewrite string_app_nil_r.
  - unfold handlers.Write, handlers.WriteHeader.
    by destruct (handlers.status w).
Qed.

(** What [handleGet] answers when the path resolves to a file with an
    extension and the validator does not match. *)
Lemma handleGet_serves (s : TorrentService) (r : handlers.Request)
    (expires magnetID filePath : string) (file : torrent.File) :
  routes_to r magnetID filePath →
  resolves s magnetID filePath file →
  has_byte "." filePath = true →
  let a := (requested_range r).1 in
  let e := (requested_range r).2 in
  handlers.Header_Get r "If-None-Match" ≠ handlers.generateETag filePath a e →
  0 <= torrent.Length file <= Go.MaxInt64 →
  Z.of_nat (String.length (torrent.Data file)) = torrent.Length file →
  let size := torrent.Length file in
  let last := last_served size e in
  let partial := Z.ltb 0 a || negb (String.eqb (handlers.Header_Get r "Range") "") in
  ∃ w mime,
    handlers.handleGet s r expires
    = (handlers.Responded w, [go_updateAccessStats magnetID]) ∧
    handlers.getMimeType filePath = Some mime ∧
    handlers.header w !! "Content-Type" = Some mime ∧
    handlers.header w !! "Accept-Ranges" = Some "bytes" ∧
    handlers.header w !! "ETag" = Some (handlers.generateETag filePath a e) ∧
    handlers.header w !! "Content-Length"
    = Some (Go.FormatInt (if partial then last - a + 1 else size)) ∧
    handlers.header w !! "Content-Range"
    = (if partial
       then Some ("bytes " ++ Go.FormatInt a ++ "-" ++ Go.FormatInt last ++ "/"
                  ++ Go.FormatInt size)
       else None) ∧
    handlers.final_status w
    = (if partial then handlers.StatusPartialContent else handlers.StatusOK) ∧
    handlers.body w
    = if String.eqb (handlers.Method r) "GET"
      then Go.take_bytes (Z.to_nat (last - a + 1))
             (Go.drop_bytes (Z.to_nat a) (torrent.Data file))
      else "".
Proof.
  intros (p1 & rest & Hsplit & Hunesc) Hres Hdot a e Hinm Hsize Hdata size last partial.
  destruct (requested_range_bounds r) as [Ha He]. fold a in Ha. fold e in He.
  rewrite MaxInt64_val in Ha, He, Hsize.
  unfold handlers.handleGet. rewrite Hsplit, Hunesc.
  change (if String.eqb (handlers.Header_Get r "Range") "" then (0, 0)
          else match handlers.parseRangeHeader (handlers.Header_Get r "Range") with
               | Ok parsed => (handlers.start parsed, handlers.end_ parsed)
               | Err _ => (0, 0)
               end) with (requested_range r).
  rewrite (surjective_pairing (requested_range r)). fold a e.
  rewrite (GetFileStream_ok s magnetID filePath file a e Hres).
  destruct (handleConditionalRequest_nomatch handlers.NewResponse r filePath a e
              expires Hdot Hinm) as (w' & Hcond & Hst & Hbody & Hetag & Hcr).
  rewrite Hcond.
  destruct (getMimeType_dotted _ Hdot) as [mime Hmime]. rewrite Hmime.
  cbn [handlers.status handlers.body handlers.header handlers.NewResponse] in Hst, Hbody, Hcr.
  fold size.
  assert (Hlr : -1 <= last <= 9223372036854775806).
  { unfold last, last_served.
    destruct (Z.eqb_spec e 0), (Z.leb_spec size e); cbn; unfold size in *; lia. }
  assert (Hlast : (if Z.eqb e 0 || Z.leb size e then Go.wrap64 (size - 1) else e) = last).
  { unfold last, last_served. destruct (Z.eqb e 0 || Z.leb size e); [|done].
    apply wrap64_id. unfold Go.MinInt64. rewrite MaxInt64_val. unfold size. lia. }
  rewrite !Hlast. fold partial.
  assert (Hn : Go.wrap64 (Go.wrap64 (last - a) + 1) = last - a + 1).
  { rewrite (wrap64_id (last - a)) by (unfold Go.MinInt64; rewrite MaxInt64_val; lia).
    apply wrap64_id. unfold Go.MinInt64. rewrite MaxInt64_val. lia. }
  rewrite !Hn.
  set (rd := torrent.SetReadahead _ _).
  assert (Hread : torrent.read_n rd (last - a + 1)
                  = Go.take_bytes (Z.to_nat (last - a + 1))
                      (Go.drop_bytes (Z.to_nat a) (torrent.Data file))).
  { unfold rd. case_bool_decide as Hpos; unfold torrent.read_n; cbn;
      case_bool_decide; try lia; try done.
    by replace a with 0 by lia. }
  set (W := if partial then _ else _).
  assert (HW : handlers.body W = "" ∧
               handlers.final_status W
               = (if partial then handlers.StatusPartialContent else handlers.StatusOK) ∧
               handlers.header W !! "Content-Type" = Some mime ∧
               handlers.header W !! "Accept-Ranges" = Some "bytes" ∧
               handlers.header W !! "ETag" = Some (handlers.generateETag filePath a e) ∧
               handlers.header W !! "Content-Length"
               = Some (Go.FormatInt (if partial then last - a + 1 else size)) ∧
               handlers.header W !! "Content-Range"
               = (if partial
                  then Some ("bytes " ++ Go.FormatInt a ++ "-" ++ Go.FormatInt last ++ "/"
                             ++ Go.FormatInt size)
                  else None)).
  { unfold W. destruct partial.
    - unfold handlers.WriteHeader, handlers.final_status. cbn. rewrite Hst. cbn.
      lookup_header. by rewrite Hetag, Hbody.
    - unfold handlers.final_status. cbn. rewrite Hst. cbn.
      lookup_header. by rewrite Hetag, Hbody, Hcr. }
  destruct HW as (HWb & HWs & H1 & H2 & H3 & H4 & H5).
  eexists _, mime. split; [reflexivity|]. split; [done|].
  destruct (String.eqb (handlers.Method r) "GET").
  - destruct (CopyN_same_head W rd (last - a + 1)) as [-> ->].
    rewrite body_CopyN, HWb, Hread. done.
  - done.
Qed.

Lemma requested_range_absent (r : handlers.Request) :
  handlers.Header_Get r "Range" = "" → requested_range r = (0, 0).
Proof. intros H. unfold requested_range. by rewrite H. Qed.

Lemma requested_range_parsed (r : handlers.Request) (a e : Z) :
  handlers.parseRangeHeader (handlers.Header_Get r "Range")
  = Ok {| handlers.start := a; handlers.end_ := e |} →
  requested_range r = (a, e) ∧
  String.eqb (handlers.Header_Get r "Range") "" = false.
Proof.
  intros H. unfold requested_range. rewrite H.
  destruct (String.eqb_spec (handlers.Header_Get r "Range") "") as [E|E]; [|done].
  rewrite E in H. discriminate H.
Qed.

Lemma requested_range_refused (r : handlers.Request) (msg : string) :
  handlers.parseRangeHeader (handlers.Header_Get r "Range") = Err msg →
  requested_range r = (0, 0).
Proof.
  intros H. unfold requested_range. rewrite H. by destruct (String.eqb _ "").
Qed.

(** X7.  Without a [Range] header a GET for a file with an extension is
    answered 200 with the whole file: [Content-Length] is the file length,
    there is no [Content-Range], and the body is the file's bytes. *)
Theorem X_handleGet_whole (s : TorrentService) (r : handlers.Request)
    (expires magnetID filePath : string) (file : torrent.File) :
  routes_to r magnetID filePath →
  resolves s magnetID filePath file →
  has_byte "." filePath = true →
  handlers.Method r = "GET" →
  handlers.Header_Get r "Range" = "" →
  handlers.Header_Get r "If-None-Match" ≠ handlers.generateETag filePath 0 0 →
  0 <= torrent.Length file <= Go.MaxInt64 →
  Z.of_nat (String.length (torrent.Data file)) = torrent.Length file →
  ∃ w,
    handlers.handleGet s r expires
    = (handlers.Responded w, [go_updateAccessStats magnetID]) ∧
    handlers.final_status w = handlers.StatusOK ∧
    handlers.header w !! "Content-Length" = Some (Go.FormatInt (torrent.Length file)) ∧
    handlers.header w !! "Content-Range" = None ∧
    handlers.header w !! "Content-Type" = handlers.getMimeType filePath ∧
    handlers.header w !! "Accept-Ranges" = Some "bytes" ∧
    handlers.body w = torrent.Data file.
Proof.
  intros Hroute Hres Hdot Hget Hrange Hinm Hsize Hdata.
  pose proof (requested_range_absent r Hrange) as Hrr.
  destruct (handleGet_serves s r expires magnetID filePath file Hroute Hres Hdot)
    as (w & mime & Hw & Hmime & Hct & Har & _ & Hcl & Hcr & Hst & Hbody);
    rewrite ?Hrr; try done.
  rewrite Hrr, Hrange, Hget in *. cbn in Hcl, Hcr, Hst, Hbody.
  exists w. rewrite Hmime. repeat split; try done.
  rewrite Hbody. apply take_bytes_ge. unfold last_served. cbn. lia.
Qed.

Lemma X_handleGet_whole_witness :
  ∃ w, (handlers.handleGet Fixtures.svc (Fixtures.get "/webdav/abc/movie.bin" ∅) "soon").1
       = handlers.Responded w ∧
       handlers.final_status w = 200 ∧
       handlers.body w = Fixtures.fill 100 "m".
Proof.
  destruct (X_handleGet_whole Fixtures.svc (Fixtures.get "/webdav/abc/movie.bin" ∅)
              "soon" "abc" "movie.bin" Fixtures.movie)
    as (w & Hw & Hst & _ & _ & _ & _ & Hbody).
  - exists "movie.bin", []. split; reflexivity.
  - exists 0%nat, {| torrent.InfoName := "demo";
                     torrent.InfoFiles := [Fixtures.movie; Fixtures.readme] |}.
    split; [reflexivity|]. split; reflexivity.
  - reflexivity.
  - reflexivity.
  - reflexivity.
  - vm_compute. discriminate.
  - vm_compute. split; discriminate.
  - reflexivity.
  - exists w. rewrite Hw. split; [reflexivity|]. split; [exact Hst | exact Hbody].
Defined.

(** X8.  A [Range] header that [parseRangeHeader] refuses is not answered with
    an error: the GET is served as the range from 0 to the last byte,
    status 206 with the whole file as body. *)
Theorem X_handleGet_refused_range (s : TorrentService) (r : handlers.Request)
    (expires magnetID filePath msg : string) (file : torrent.File) :
  routes_to r magnetID filePath →
  resolves s magnetID filePath file →
  has_byte "." filePath = true →
  handlers.Method r = "GET" →
  handlers.Header_Get r "Range" ≠ "" →
  handlers.parseRangeHeader (handlers.Header_Get r "Range") = Err msg →
  handlers.Header_Get r "If-None-Match" ≠ handlers.generateETag filePath 0 0 →
  0 <= torrent.Length file <= Go.MaxInt64 →
  Z.of_nat (String.length (torrent.Data file)) = torrent.Length file →
  ∃ w,
    handlers.handleGet s r expires
    = (handlers.Responded w, [go_updateAccessStats magnetID]) ∧
    handlers.final_status w = handlers.StatusPartialContent ∧
    handlers.header w !! "Content-Range"
    = Some ("bytes 0-" ++ Go.FormatInt (torrent.Length file - 1) ++ "/"
            ++ Go.FormatInt (torrent.Length file)) ∧
    handlers.header w !! "Content-Length" = Some (Go.FormatInt (torrent.Length file)) ∧
    handlers.body w = torrent.Data file.
Proof.
  intros Hroute Hres Hdot Hget Hne Hrange Hinm Hsize Hdata.
  pose proof (requested_range_refused r msg Hrange) as Hrr.
  destruct (handleGet_serves s r expires magnetID filePath file Hroute Hres Hdot)
    as (w & mime & Hw & _ & _ & _ & _ & Hcl & Hcr & Hst & Hbody);
    rewrite ?Hrr; try done.
  rewrite Hrr, Hget, (proj2 (String.eqb_neq _ _) Hne) in *.
  cbn in Hcl, Hcr, Hst, Hbody. unfold last_served in *. cbn in Hcl, Hcr, Hbody.
  exists w. split; [done|]. split; [done|]. split; [done|]. split.
  - rewrite Hcl. do 2 f_equal. lia.
  - rewrite Hbody. apply take_bytes_ge. lia.
Qed.

Lemma X_handleGet_refused_range_witness :
  ∃ w, (handlers.handleGet Fixtures.svc
          (Fixtures.get "/webdav/abc/movie.bin" {[ "Range" := "bytes=-10" ]}) "soon").1
       = handlers.Responded w ∧
       handlers.final_status w = 206 ∧
       handlers.header w !! "Content-Range" = Some "bytes 0-99/100".
Proof.
  destruct (X_handleGet_refused_range Fixtures.svc
              (Fixtures.get "/webdav/abc/movie.bin" {[ "Range" := "bytes=-10" ]})
              "soon" "abc" "movie.bin" "strconv.ParseInt" Fixtures.movie)
    as (w & Hw & Hst & Hcr & _).
  - exists "movie.bin", []. split; reflexivity.
  - exists 0%nat, {| torrent.InfoName := "demo";
                     torrent.InfoFiles := [Fixtures.movie; Fixtures.readme] |}.
    split; [reflexivity|]. split; reflexivity.
  - reflexivity.
  - reflexivity.
  - vm_compute. discriminate.
  - reflexivity.
  - vm_compute. discriminate.
  - vm_compute. split; discriminate.
  - reflexivity.
  - exists w. rewrite Hw. split; [reflexivity|]. split; [exact Hst | exact Hcr].
Defined.

(** X9.  A range without an end, with the end 0, or with an end at or beyond
    the file length is served up to the last byte of the file: status
    206, [Content-Range: bytes first-(length-1)/length] and the bytes of
    the file from [first] on. *)
Theorem X_handleGet_to_end_of_file (s : TorrentService) (r : handlers.Request)
    (expires magnetID filePath : string) (file : torrent.File) (a e : Z) :
  routes_to r magnetID filePath →
  resolves s magnetID filePath file →
  has_byte "." filePath = true →
  handlers.Method r = "GET" →
  handlers.parseRangeHeader (handlers.Header_Get r "Range")
  = Ok {| handlers.start := a; handlers.end_ := e |} →
  handlers.Header_Get r "If-None-Match" ≠ handlers.generateETag filePath a e →
  e = 0 ∨ torrent.Length file <= e →
  a < torrent.Length file <= Go.MaxInt64 →
  Z.of_nat (String.length (torrent.Data file)) = torrent.Length file →
  ∃ w,
    handlers.handleGet s r expires
    = (handlers.Responded w, [go_updateAccessStats magnetID]) ∧
    handlers.final_status w = handlers.StatusPartialContent ∧
    handlers.header w !! "Content-Range"
    = Some ("bytes " ++ Go.FormatInt a ++ "-" ++ Go.FormatInt (torrent.Length file - 1)
            ++ "/" ++ Go.FormatInt (torrent.Length file)) ∧
    handlers.header w !! "Content-Length"
    = Some (Go.FormatInt (torrent.Length file - a)) ∧
    handlers.body w = Go.drop_bytes (Z.to_nat a) (torrent.Data file) ∧
    Z.of_nat (String.length (handlers.body w)) = torrent.Length file - a.
Proof.
  intros Hroute Hres Hdot Hget Hrange Hinm He Hsize Hdata.
  destruct (requested_range_parsed r a e Hrange) as [Hrr Hne].
  destruct (parseRangeHeader_bounds _ _ Hrange) as [Ha _]. cbn in Ha.
  destruct (handleGet_serves s r expires magnetID filePath file Hroute Hres Hdot)
    as (w & mime & Hw & _ & _ & _ & _ & Hcl & Hcr & Hst & Hbody);
    rewrite ?Hrr; try done; [lia|].
  rewrite Hrr, Hget, Hne in *. rewrite orb_true_r in *.
  cbn [fst snd negb] in Hcl, Hcr, Hst, Hbody.
  assert (Hlast : last_served (torrent.Length file) e = torrent.Length file - 1).
  { unfold last_served. destruct He as [->|He]; [done|].
    rewrite (proj2 (Z.leb_le _ _) He). by rewrite orb_true_r. }
  rewrite Hlast in *.
  assert (Hb : handlers.body w = Go.drop_bytes (Z.to_nat a) (torrent.Data file)).
  { rewrite Hbody. apply take_bytes_ge. rewrite drop_bytes_length. lia. }
  exists w. split; [done|]. split; [done|]. split; [done|]. split; [|split; [done|]].
  - rewrite Hcl. do 2 f_equal. lia.
  - rewrite Hb, drop_bytes_length. lia.
Qed.

Lemma X_handleGet_to_end_of_file_witness :
  ∃ w, (handlers.handleGet Fixtures.svc
          (Fixtures.get "/webdav/abc/movie.bin" {[ "Range" := "bytes=95-" ]}) "soon").1
       = handlers.Responded w ∧
       handlers.header w !! "Content-Range" = Some "bytes 95-99/100" ∧
       handlers.body w = "mmmmm".
Proof.
  destruct (X_handleGet_to_end_of_file Fixtures.svc
              (Fixtures.get "/webdav/abc/movie.bin" {[ "Range" := "bytes=95-" ]})
              "soon" "abc" "movie.bin" Fixtures.movie 95 0)
    as (w & Hw & _ & Hcr & _ & Hbody & _).
  - exists "movie.bin", []. split; reflexivity.
  - exists 0%nat, {| torrent.InfoName := "demo";
                     torrent.InfoFiles := [Fixtures.movie; Fixtures.readme] |}.
    split; [reflexivity|]. split; reflexivity.
  - reflexivity.
  - reflexivity.
  - reflexivity.
  - vm_compute. discriminate.
  - by left.
  - vm_compute. split; [reflexivity | discriminate].
  - reflexivity.
  - exists w. rewrite Hw. split; [reflexivity|]. split; [exact Hcr | exact Hbody].
Defined.

(** X10.  A range that starts at or beyond the end of the file, or whose end
    lies before its start, is not refused: the answer is 206 with an
    empty body. *)
Theorem X_handleGet_empty_range (s : TorrentService) (r : handlers.Request)
    (expires magnetID filePath : string) (file : torrent.File) (a e : Z) :
  routes_to r magnetID filePath →
  resolves s magnetID filePath file →
  has_byte "." filePath = true →
  handlers.parseRangeHeader (handlers.Header_Get r "Range")
  = Ok {| handlers.start := a; handlers.end_ := e |} →
  handlers.Header_Get r "If-None-Match" ≠ handlers.generateETag filePath a e →
  torrent.Length file <= a ∨ 0 < e < a →
  0 <= torrent.Length file <= Go.MaxInt64 →
  Z.of_nat (String.length (torrent.Data file)) = torrent.Length file →
  ∃ w,
    handlers.handleGet s r expires
    = (handlers.Responded w, [go_updateAccessStats magnetID]) ∧
    handlers.final_status w = handlers.StatusPartialContent ∧
    handlers.body w = "".
Proof.
  intros Hroute Hres Hdot Hrange Hinm Hcase Hsize Hdata.
  destruct (requested_range_parsed r a e Hrange) as [Hrr Hne].
  destruct (parseRangeHeader_bounds _ _ Hrange) as [Ha Hb]. cbn in Ha, Hb.
  destruct (handleGet_serves s r expires magnetID filePath file Hroute Hres Hdot)
    as (w & mime & Hw & _ & _ & _ & _ & _ & _ & Hst & Hbody);
    rewrite ?Hrr; try done.
  rewrite Hrr, Hne in *. rewrite orb_true_r in *.
  cbn [fst snd negb] in Hst, Hbody.
  exists w. split; [done|]. split; [done|]. rewrite Hbody.
  destruct (String.eqb _ "GET"); [|done].
  assert (Hlast : last_served (torrent.Length file) e - a + 1 <= 0
                  ∨ torrent.Length file <= a).
  { unfold last_served.
    destruct (Z.eqb_spec e 0), (Z.leb_spec (torrent.Length file) e); cbn; lia. }
  destruct Hlast as [Hn|Hn].
  - by replace (Z.to_nat _) with 0%nat by lia.
  - rewrite drop_bytes_ge by lia. by destruct (Z.to_nat _).
Qed.

Lemma X_handleGet_empty_range_witness :
  ∃ w, (handlers.handleGet Fixtures.svc
          (Fixtures.get "/webdav/abc/movie.bin" {[ "Range" := "bytes=200-300" ]}) "soon").1
       = handlers.Responded w ∧
       handlers.final_status w = 206 ∧ handlers.body w = "".
Proof.
  destruct (X_handleGet_empty_range Fixtures.svc
              (Fixtures.get "/webdav/abc/movie.bin" {[ "Range" := "bytes=200-300" ]})
              "soon" "abc" "movie.bin" Fixtures.movie 200 300)
    as (w & Hw & Hst & Hbody).
  - exists "movie.bin", []. split; reflexivity.
  - exists 0%nat, {| torrent.InfoName := "demo";
                     torrent.InfoFiles := [Fixtures.movie; Fixtures.readme] |}.
    split; [reflexivity|]. split; reflexivity.
  - reflexivity.
  - reflexivity.
  - vm_compute. discriminate.
  - left. simpl. lia.
  - vm_compute. split; discriminate.
  - reflexivity.
  - exists w. rewrite Hw. split; [reflexivity|]. split; [exact Hst | exact Hbody].
Defined.

(** X11.  A satisfiable range is served exactly: for a first and a last
    position inside the file (the last one not 0), a GET answers partial
    content with [Content-Range: bytes first-last/length],
    [Content-Length: last-first+1] and precisely those bytes. *)
Theorem X_handleGet_range (s : TorrentService) (r : handlers.Request)
    (expires magnetID filePath : string) (file : torrent.File) (a b : Z) :
  routes_to r magnetID filePath →
  resolves s magnetID filePath file →
  has_byte "." filePath = true →
  handlers.Method r = "GET" →
  handlers.parseRangeHeader (handlers.Header_Get r "Range")
  = Ok {| handlers.start := a; handlers.end_ := b |} →
  handlers.Header_Get r "If-None-Match" ≠ handlers.generateETag filePath a b →
  a <= b → 0 < b < torrent.Length file →
  torrent.Length file <= Go.MaxInt64 →
  Z.of_nat (String.length (torrent.Data file)) = torrent.Length file →
  ∃ w,
    handlers.handleGet s r expires
    = (handlers.Responded w, [go_updateAccessStats magnetID]) ∧
    handlers.final_status w = handlers.StatusPartialContent ∧
    handlers.header w !! "Content-Range"
    = Some ("bytes " ++ Go.FormatInt a ++ "-" ++ Go.FormatInt b ++ "/"
            ++ Go.FormatInt (torrent.Length file)) ∧
    handlers.header w !! "Content-Length" = Some (Go.FormatInt (b - a + 1)) ∧
    handlers.header w !! "Accept-Ranges" = Some "bytes" ∧
    handlers.body w
    = Go.take_bytes (Z.to_nat (b - a + 1)) (Go.drop_bytes (Z.to_nat a) (torrent.Data file)) ∧
    Z.of_nat (String.length (handlers.body w)) = b - a + 1.
Proof.
  intros Hroute Hres Hdot Hget Hrange Hinm Hab Hb Hsize Hdata.
  destruct (requested_range_parsed r a b Hrange) as [Hrr Hne].
  destruct (parseRangeHeader_bounds _ _ Hrange) as [Ha _]. cbn in Ha.
  destruct (handleGet_serves s r expires magnetID filePath file Hroute Hres Hdot)
    as (w & mime & Hw & _ & _ & Har & _ & Hcl & Hcr & Hst & Hbody);
    rewrite ?Hrr; try done; [lia|].
  rewrite Hrr, Hget, Hne in *. rewrite orb_true_r in *.
  cbn [fst snd negb] in Hcl, Hcr, Hst, Hbody.
  assert (Hlast : last_served (torrent.Length file) b = b).
  { unfold last_served. rewrite (proj2 (Z.eqb_neq b 0)) by lia.
    by rewrite (proj2 (Z.leb_gt _ _)) by lia. }
  rewrite Hlast in *.
  exists w. repeat split; try done.
  rewrite Hbody. change (String.eqb "GET" "GET") with true. cbv iota.
  rewrite take_bytes_length; [lia|]. rewrite drop_bytes_length. lia.
Qed.

Lemma X_handleGet_range_witness :
  ∃ w, (handlers.handleGet Fixtures.svc
          (Fixtures.get "/webdav/abc/movie.bin" {[ "Range" := "bytes=5-9" ]}) "soon").1
       = handlers.Responded w ∧
       handlers.header w !! "Content-Range" = Some "bytes 5-9/100" ∧
       handlers.body w = "mmmmm".
Proof.
  destruct (X_handleGet_range Fixtures.svc
              (Fixtures.get "/webdav/abc/movie.bin" {[ "Range" := "bytes=5-9" ]})
              "soon" "abc" "movie.bin" Fixtures.movie 5 9)
    as (w & Hw & _ & Hcr & _ & _ & Hbody & _).
  - exists "movie.bin", []. split; reflexivity.
  - exists 0%nat, {| torrent.InfoName := "demo";
                     torrent.InfoFiles := [Fixtures.movie; Fixtures.readme] |}.
    split; [reflexivity|]. split; reflexivity.
  - reflexivity.
  - reflexivity.
  - reflexivity.
  - vm_compute. discriminate.
  - lia.
  - simpl. lia.
  - vm_compute. discriminate.
  - reflexivity.
  - exists w. rewrite Hw. split; [reflexivity|]. split; [exact Hcr | exact Hbody].
Defined.

(** ** The statuses and the goroutines of [handleGet] *)

Lemma handleConditionalRequest_status (w w' : handlers.ResponseWriter)
    (r : handlers.Request) (filePath : string) (a b : Z) (expires : string)
    (flag : bool) :
  handlers.handleConditionalRequest w r filePath a b expires = Some (w', flag) →
  handlers.status w = None →
  handlers.status w' = if flag then Some handlers.StatusNotModified else None.
Proof.
  unfold handlers.handleConditionalRequest, handlers.setCacheHeaders.
  destruct (handlers.isVideoFile filePath); [|done].
  intros H Hw. destruct (negb _ && _); injection H as <- <-;
    unfold handlers.WriteHeader; cbn; rewrite Hw; cbn; by rewrite ?Hw.
Qed.

(** X12.  Whatever the request, a response of [handleGet] carries one of five
    statuses: 200, 206, 304, 400 or 404.  In particular no range is
    refused with 416. *)
Theorem X_handleGet_statuses (s : TorrentService) (r : handlers.Request)
    (expires : string) :
  match (handlers.handleGet s r expires).1 with
  | handlers.Responded w =>
      handlers.final_status w ∈ [200; 206; 304; 400; 404]
  | _ => True
  end.
Proof.
  unfold handlers.handleGet.
  destruct (Go.Split _ "/") as [|p0 [|p1 rest]]; [done..|].
  destruct (Go.PathUnescape _) as [filePath|]; [|cbn; set_solver].
  destruct (if String.eqb _ "" then (0, 0) else _) as [a b].
  destruct (GetFileStream s p0 filePath a b) as [[[file reader]|msg] spawned];
    [|cbn; set_solver].
  destruct (handlers.handleConditionalRequest _ _ _ _ _ _) as [[w' flag]|] eqn:Hc;
    [|done].
  apply handleConditionalRequest_status in Hc; [|done].
  destruct flag; cbn [fst];
    [unfold handlers.final_status; rewrite Hc; cbn; set_solver|].
  destruct (handlers.getMimeType filePath) as [mime|]; [|done].
  cbn [fst].
  assert (Hfinal : ∀ W rd n, handlers.final_status
            (if String.eqb (handlers.Method r) "GET" then handlers.CopyN W rd n else W)
            = handlers.final_status W).
  { intros W rd n. destruct (String.eqb _ "GET"); [|done].
    by destruct (CopyN_same_head W rd n) as [_ ->]. }
  rewrite Hfinal.
  destruct (Z.ltb 0 a || negb _);
    unfold handlers.final_status, handlers.WriteHeader; cbn; rewrite Hc; cbn; set_solver.
Qed.

(** X13.  Every request that resolves to a file is counted as an access,
    whatever becomes of it (a full or partial answer, a 304, a HEAD, a
    panic on a name without a dot): [handleGet] starts exactly one
    statistics update for the identifier, and that update raises the
    access count of the record by one and stamps the access time. *)
Theorem X_handleGet_counts_access (s : TorrentService) (r : handlers.Request)
    (expires magnetID filePath : string) (file : torrent.File) (now : Z) :
  routes_to r magnetID filePath →
  resolves s magnetID filePath file →
  (handlers.handleGet s r expires).2 = [go_updateAccessStats magnetID] ∧
  ∀ m, magnets (db s) !! magnetID = Some m →
       Magnet.AccessCount m < Go.MaxInt64 →
       Go.MinInt64 <= Magnet.AccessCount m →
       ∃ m', magnets (db (updateAccessStats s magnetID now)) !! magnetID = Some m' ∧
             Magnet.AccessCount m' = Magnet.AccessCount m + 1 ∧
             Magnet.LastAccessed m' = now ∧
             Magnet.Status m' = Magnet.Status m.
Proof.
  intros (p1 & rest & Hsplit & Hunesc) Hres. split.
  - unfold handlers.handleGet. rewrite Hsplit, Hunesc.
    destruct (if String.eqb _ "" then (0, 0) else _) as [a b].
    rewrite (GetFileStream_ok s magnetID filePath file a b Hres).
    destruct (handlers.handleConditionalRequest _ _ _ _ _ _) as [[w' [|]]|]; [done| |done].
    by destruct (handlers.getMimeType filePath).
  - intros m Hm Hmax Hmin. unfold updateAccessStats. cbn.
    rewrite lookup_alter_eq, Hm. cbn. eexists. split; [reflexivity|]. cbn.
    split; [|done]. apply wrap64_id. lia.
Qed.

Lemma X_handleGet_counts_access_witness :
  (handlers.handleGet Fixtures.svc
     (with_method (Fixtures.get "/webdav/abc/README" ∅) "HEAD") "soon")
  = (handlers.Panicked, [go_updateAccessStats "abc"]) ∧
  Magnet.AccessCount
    <$> magnets (db (updateAccessStats Fixtures.svc "abc" 9)) !! "abc" = Some 1.
Proof.
  destruct (X_handleGet_counts_access Fixtures.svc
              (with_method (Fixtures.get "/webdav/abc/README" ∅) "HEAD")
              "soon" "abc" "README" Fixtures.readme 9) as [Ht Hm].
  - exists "README", []. split; reflexivity.
  - exists 0%nat, {| torrent.InfoName := "demo";
                     torrent.InfoFiles := [Fixtures.movie; Fixtures.readme] |}.
    split; [reflexivity|]. split; reflexivity.
  - split.
    + rewrite (surjective_pairing (handlers.handleGet _ _ _)), Ht. reflexivity.
    + destruct (Hm Fixtures.record) as (m' & Hl & Hc & _).
      * reflexivity.
      * vm_compute. reflexivity.
      * vm_compute. discriminate.
      * rewrite Hl. cbn. rewrite Hc. reflexivity.
Defined.

(** ** The shape of an identifier *)

Lemma lower_byte_idemp (c : ascii) : Go.lower_byte (Go.lower_byte c) = Go.lower_byte c.
Proof. by destruct c as [[] [] [] [] [] [] [] []]. Qed.

Lemma lower_byte_amp (c : ascii) :
  Ascii.eqb (Go.lower_byte c) "&" = Ascii.eqb c "&".
Proof. by destruct c as [[] [] [] [] [] [] [] []]. Qed.

Lemma ToLower_idemp (s : string) : Go.ToLower (Go.ToLower s) = Go.ToLower s.
Proof.
  induction s as [|c s IH]; [done|]. cbn. by rewrite lower_byte_idemp, IH.
Qed.

Lemma ToLower_amp (s : string) : has_byte "&" (Go.ToLower s) = has_byte "&" s.
Proof.
  induction s as [|c s IH]; [done|]. cbn. by rewrite lower_byte_amp, IH.
Qed.

Lemma ToLower_nonempty (s : string) : s ≠ "" → Go.ToLower s ≠ "".
Proof. by destruct s. Qed.

Lemma take_until_amp_clean (s : string) : has_byte "&" (take_until_amp s) = false.
Proof.
  induction s as [|c s IH]; [done|]. cbn.
  destruct (Ascii.eqb c "&") eqn:E; [done|]. cbn. by rewrite E, IH.
Qed.

Lemma FindStringSubmatch_btih_Some (s tok : string) :
  FindStringSubmatch_btih s = Some tok → tok ≠ "" ∧ has_byte "&" tok = false.
Proof.
  induction s as [|c s IH]; [done|]. cbn [FindStringSubmatch_btih].
  destruct (Go.HasPrefix (String c s) "btih:"); [|exact IH].
  pose proof (take_until_amp_clean (Go.drop_bytes 5 (String c s))) as Hclean.
  destruct (take_until_amp (Go.drop_bytes 5 (String c s))) as [|d t]; [exact IH|].
  intros [= <-]. by split.
Qed.

Lemma hex_digit_lower (n : Z) :
  0 <= n < 16 →
  Go.lower_byte (sha1.hex_digit n) = sha1.hex_digit n ∧
  Ascii.eqb (sha1.hex_digit n) "&" = false.
Proof.
  intros H.
  assert (n = 0 ∨ n = 1 ∨ n = 2 ∨ n = 3 ∨ n = 4 ∨ n = 5 ∨ n = 6 ∨ n = 7 ∨
          n = 8 ∨ n = 9 ∨ n = 10 ∨ n = 11 ∨ n = 12 ∨ n = 13 ∨ n = 14 ∨ n = 15)
    as Hn by lia.
  repeat (destruct Hn as [->|Hn]; [by vm_compute|]). subst n. by vm_compute.
Qed.

Lemma EncodeToString_lower (bs : list Z) :
  Go.ToLower (sha1.EncodeToString bs) = sha1.EncodeToString bs ∧
  has_byte "&" (sha1.EncodeToString bs) = false.
Proof.
  induction bs as [|b bs [IH1 IH2]]; [done|]. cbn.
  destruct (hex_digit_lower (Z.shiftr b 4 mod 16)) as [-> ->];
    [apply Z.mod_pos_bound; lia|].
  destruct (hex_digit_lower (b mod 16)) as [-> ->];
    [apply Z.mod_pos_bound; lia|].
  by rewrite IH1, IH2.
Qed.

Lemma ToLower_take_bytes (n : nat) (s : string) :
  Go.ToLower s = s → Go.ToLower (Go.take_bytes n s) = Go.take_bytes n s.
Proof.
  revert s. induction n as [|n IH]; intros [|c s] H; cbn in *; try done.
  injection H as Hc Hs. by rewrite Hc, (IH s Hs).
Qed.

Lemma has_byte_take_bytes (c : ascii) (n : nat) (s : string) :
  has_byte c s = false → has_byte c (Go.take_bytes n s) = false.
Proof.
  revert s. induction n as [|n IH]; intros [|d s] H; cbn in *; try done.
  apply orb_false_iff in H as [-> Hs]. by rewrite (IH s Hs).
Qed.

Lemma extractInfoHash_clean (magnetURI : string) :
  let id := extractInfoHash magnetURI in
  id ≠ "" ∧ Go.ToLower id = id ∧ has_byte "&" id = false.
Proof.
  unfold extractInfoHash.
  destruct (FindStringSubmatch_btih magnetURI) as [tok|] eqn:E.
  - apply FindStringSubmatch_btih_Some in E as [Hne Hamp]. cbv zeta.
    split; [by apply ToLower_nonempty|]. split; [apply ToLower_idemp|].
    by rewrite ToLower_amp.
  - cbv zeta. destruct (EncodeToString_lower (sha1.Sum magnetURI)) as [Hl Ha].
    split; [|split].
    + intros H. pose proof (fallback_identifier_length magnetURI) as Hlen.
      by rewrite H in Hlen.
    + by apply ToLower_take_bytes.
    + by apply has_byte_take_bytes.
Qed.

(** X14.  Every identifier is non-empty, has no upper-case ASCII letter and no
    [&]; so the link [magnet:?xt=urn:btih:<id>] built from an identifier
    is mapped to that identifier again, and submitting it finds the record
    of the original link. *)
Theorem X_extractInfoHash_normal_form (magnetURI : string) :
  let id := extractInfoHash magnetURI in
  id ≠ "" ∧ Go.ToLower id = id ∧ has_byte "&" id = false ∧
  extractInfoHash ("magnet:?xt=urn:btih:" ++ id) = id ∧
  ∀ s now m, magnets (db s) !! id = Some m →
             AddMagnet s ("magnet:?xt=urn:btih:" ++ id) now = (s, Ok m, []).
Proof.
  intros id. destruct (extractInfoHash_clean magnetURI) as (Hne & Hlow & Hamp).
  fold id in Hne, Hlow, Hamp.
  assert (Hid : extractInfoHash ("magnet:?xt=urn:btih:" ++ id) = id).
  { unfold extractInfoHash.
    replace ("magnet:?xt=urn:btih:" ++ id)
      with ("magnet:?xt=urn:" ++ "btih:" ++ id ++ "") by (by rewrite string_app_nil_r).
    rewrite FindStringSubmatch_btih_first; [done| |done|done|by left].
    intros k Hk. do 15 (destruct k as [|k]; [reflexivity|]). cbn in Hk. lia. }
  repeat split; try done.
  intros s now m Hm. apply AddMagnet_existing. by rewrite Hid.
Qed.

Lemma X_extractInfoHash_normal_form_witness :
  extractInfoHash "magnet:?xt=urn:btih:ABCDEF&dn=x" = "abcdef" ∧
  extractInfoHash ("magnet:?xt=urn:btih:" ++ "abcdef") = "abcdef".
Proof.
  destruct (X_extractInfoHash_normal_form "magnet:?xt=urn:btih:ABCDEF&dn=x")
    as (_ & _ & _ & H & _).
  split; [reflexivity | exact H].
Defined.


(** ** Invariants of the catalog *)

Lemma keyed_alter (d : DB) (g : Magnet.t → Magnet.t) (id : string) :
  (∀ m, Magnet.ID (g m) = Magnet.ID m) →
  keyed d → keyed (with_magnets d (alter g id (magnets d))).
Proof.
  intros Hg Hk k m. cbn. destruct (decide (k = id)) as [->|Hne].
  - rewrite lookup_alter_eq. destruct (magnets d !! id) as [m0|] eqn:E; [|done].
    intros [= <-]. rewrite Hg. by apply Hk.
  - rewrite lookup_alter_ne by done. apply Hk.
Qed.

Lemma handleTorrentReady_magnets (s : TorrentService) (torr : torrent.Torrent)
    (infoHash : string) (now : Z) :
  magnets (db (handleTorrentReady s torr infoHash now))
  = alter (fun m =>
             {| Magnet.ID := Magnet.ID m;
                Magnet.MagnetURI := Magnet.MagnetURI m;
                Magnet.Name := torrent.Name torr;
                Magnet.TotalSize := torrent.TotalLength torr;
                Magnet.FileCount := Z.of_nat (length (torrent.Files torr));
                Magnet.Status := "ready";
                Magnet.CreatedAt := Magnet.CreatedAt m;
                Magnet.UpdatedAt := now;
                Magnet.LastAccessed := Magnet.LastAccessed m;
                Magnet.AccessCount := Magnet.AccessCount m |})
      infoHash (magnets (db s)).
Proof.
  unfold handleTorrentReady. cbn [db with_db].
  set (d1 := with_magnets (db s) _).
  set (st := reconcile d1 torr infoHash now).
  set (d2 := match filesToCreate st with [] => d1 | _ => _ end).
  assert (Hd2 : magnets d2 = magnets d1).
  { unfold d2. by destruct (filesToCreate st). }
  destruct (foldl_Save_file (filesToUpdate st) d2) as (_ & Hm & _).
  case_bool_decide; cbn [Delete_files with_files magnets]; by rewrite Hm, Hd2.
Qed.

Lemma step_catalog_ok (s s' : TorrentService) :
  step s s' → catalog_ok (db s) → catalog_ok (db s').
Proof.
  intros [uri now|uri id reply ev now|id now|id|] Hok.
  - by apply AddMagnet_catalog_ok.
  - by apply addTorrentToClient_catalog_ok.
  - done.
  - by apply RemoveMagnet_catalog_ok.
  - done.
Qed.

Lemma step_keyed (s s' : TorrentService) :
  step s s' → keyed (db s) → keyed (db s').
Proof.
  intros [uri now|uri id reply ev now|id now|id|] Hk.
  - unfold AddMagnet. destruct (magnets (db s) !! extractInfoHash uri) eqn:E; [done|].
    intros k m. cbn. destruct (decide (k = extractInfoHash uri)) as [->|Hne].
    + rewrite lookup_insert_eq. by intros [= <-].
    + rewrite lookup_insert_ne by done. apply Hk.
  - unfold addTorrentToClient. destruct reply as [msg|h].
    + by apply keyed_alter.
    + destruct ev as [i| |].
      * intros k m. rewrite handleTorrentReady_magnets. cbn [db].
        apply (keyed_alter (db s) _ id); done.
      * by apply (keyed_alter (db s)).
      * done.
  - by apply keyed_alter.
  - intros k m. cbn. destruct (decide (k = id)) as [->|Hne].
    + by rewrite lookup_delete_eq.
    + rewrite lookup_delete_ne by done. apply Hk.
  - done.
Qed.

Lemma step_files_seq (s s' : TorrentService) :
  step s s' → files_seq (db s) <= files_seq (db s').
Proof.
  intros [uri now|uri id reply ev now|id now|id|].
  - unfold AddMagnet. by destruct (magnets (db s) !! extractInfoHash uri).
  - unfold addTorrentToClient. destruct reply as [msg|h]; [done|].
    destruct ev as [i| |]; [|done|done].
    rewrite handleTorrentReady_seq. cbn [db]. lia.
  - done.
  - done.
  - done.
Qed.

(** X15.  Whatever operations are run and however the engine answers, the
    catalog stays well formed: primary keys of file rows stay unique and
    below the sequence, no identifier has two rows with one path, every
    record stays filed under its own identifier, and the sequence of
    primary keys never goes back (no key is issued twice). *)
Theorem X_catalog_invariant (s s' : TorrentService) :
  catalog_ok (db s) → keyed (db s) → rtc step s s' →
  catalog_ok (db s') ∧ keyed (db s') ∧ files_seq (db s) <= files_seq (db s').
Proof.
  intros Hok Hk Hsteps. induction Hsteps as [s|s s1 s2 Hstep _ IH].
  - split; [done|]. split; [done|]. lia.
  - destruct IH as (Hok2 & Hk2 & Hseq).
    + by apply (step_catalog_ok s).
    + by apply (step_keyed s).
    + split; [done|]. split; [done|]. apply step_files_seq in Hstep. lia.
Qed.

Lemma X_catalog_invariant_witness :
  let uri := "magnet:?xt=urn:btih:ABCDEF&dn=x" in
  let s0 := NewTorrentService (mkDB ∅ [] 1) in
  let s1 := (AddMagnet s0 uri 5).1.1 in
  let s2 := addTorrentToClient s1 uri "abcdef" (AddMagnet_ok 0)
              (GotInfo {| torrent.InfoName := "demo";
                          torrent.InfoFiles := [Fixtures.movie; Fixtures.readme] |}) 9 in
  let s3 := (handlers.RemoveMagnet s2 "abcdef").1 in
  catalog_ok (db s3) ∧ keyed (db s3) ∧ 1 <= files_seq (db s3).
Proof.
  intros uri s0 s1 s2 s3.
  apply (X_catalog_invariant s0 s3).
  - apply catalog_ok_empty.
  - intros k m H. unfold s0 in H. cbn in H. by rewrite lookup_empty in H.
  - apply (rtc_l _ _ s1); [apply step_AddMagnet|].
    apply (rtc_l _ _ s2); [apply step_addTorrentToClient|].
    apply (rtc_l _ _ s3); [apply step_RemoveMagnet|].
    apply rtc_refl.
Defined.

(** ** The two media-type tables *)

Lemma get_app_r (a b : string) (n : nat) :
  String.get (String.length a + n) (a ++ b) = String.get n b.
Proof. induction a as [|c a IH]; [done|]. exact IH. Qed.

Lemma get_absent (c d : ascii) (s : string) (n : nat) :
  has_byte c s = false → String.get n s = Some d → Ascii.eqb d c = false.
Proof.
  revert n. induction s as [|e s IH]; intros n H Hg; [done|].
  cbn in H. apply orb_false_iff in H as [He Hs].
  destruct n as [|n]; cbn in Hg.
  - by injection Hg as <-.
  - by apply (IH n).
Qed.

Lemma get_Some_lt (s : string) (n : nat) :
  (n < String.length s)%nat → is_Some (String.get n s).
Proof.
  revert n. induction s as [|c s IH]; intros n H; cbn in H; [lia|].
  destruct n as [|n]; cbn; [eauto|]. apply IH. lia.
Qed.

(** [path.Ext] of a path that ends in a dot followed by [rest]. *)
Lemma Ext_suffix (pre rest : string) :
  has_byte "." rest = false → has_byte "/" rest = false →
  path.Ext (pre ++ String "." rest) = String "." rest.
Proof.
  intros Hdot Hslash. unfold path.Ext. rewrite string_app_length. cbn [String.length].
  assert (H : ∀ n, (n ≤ String.length rest)%nat →
            path.ext_loop (String.length pre + S n) (pre ++ String "." rest)
            = String "." rest).
  { induction n as [|n IH]; intros Hn.
    - replace (String.length pre + 1)%nat with (S (String.length pre + 0)) by lia.
      cbn [path.ext_loop]. rewrite get_app_r. cbn.
      replace (String.length pre + 0)%nat with (String.length pre) by lia.
      apply drop_bytes_app.
    - replace (String.length pre + S (S n))%nat
        with (S (String.length pre + S n)) by lia.
      cbn [path.ext_loop]. rewrite get_app_r. cbn [String.get].
      destruct (get_Some_lt rest n) as [c Hc]; [lia|]. rewrite Hc.
      rewrite (get_absent "/" c rest n Hslash Hc).
      rewrite (get_absent "." c rest n Hdot Hc).
      apply IH. lia. }
  by apply H.
Qed.

Lemma last_index_from_suffix (pre rest : string) (c : ascii) : ∀ i,
  has_byte c rest = false →
  Go.last_index_from (pre ++ String c rest) c i
  = Some (i + Z.of_nat (String.length pre)).
Proof.
  induction pre as [|d pre IH]; intros i H.
  - change (Go.last_index_from (String c rest) c i = Some (i + 0)).
    cbn [Go.last_index_from]. rewrite last_index_from_absent by done.
    rewrite Ascii.eqb_refl. f_equal. lia.
  - change (Go.last_index_from (String d (pre ++ String c rest)) c i
            = Some (i + Z.of_nat (S (String.length pre)))).
    cbn [Go.last_index_from]. rewrite IH by done. f_equal. lia.
Qed.

Lemma slice_at_LastIndex_suffix (pre rest : string) :
  has_byte "." rest = false →
  Go.slice_from (pre ++ String "." rest) (Go.LastIndex (pre ++ String "." rest) ".")
  = Some (String "." rest).
Proof.
  intros H. unfold Go.LastIndex. rewrite last_index_from_suffix by done. cbn [default].
  unfold Go.slice_from, Go.len. rewrite string_app_length. cbn [String.length].
  unfold id. rewrite bool_decide_eq_true_2 by lia.
  replace (Z.to_nat (0 + Z.of_nat (String.length pre))) with (String.length pre) by lia.
  by rewrite drop_bytes_app.
Qed.

Lemma mimeTypes_agree (ext : string) :
  ext ∉ [".srt"; ".ass"; ".ssa"] →
  handlers.mimeTypes !! ext = mimeTypes !! ext.
Proof.
  intros H. unfold handlers.mimeTypes, mimeTypes. cbn [list_to_map foldr uncurry].
  repeat match goal with
  | |- context [<[?k := _]> _ !! ext] =>
      destruct (decide (k = ext)) as [<-|?];
      [rewrite ?lookup_insert_eq;
       first [done
             | exfalso; apply H;
               repeat first [apply list_elem_of_here | apply list_elem_of_further]]
      |rewrite (lookup_insert_ne _ k ext) by done]
  end.
  done.
Qed.

(** X16.  The media type stored in the catalog and the [Content-Type] served
    agree for every path whose last element has an extension, except for
    subtitles: the handlers add a charset to [.srt] and [.ass] and know
    [.ssa], which the service files as a byte stream. *)
Theorem X_media_types_agree (pre rest : string) :
  has_byte "." rest = false → has_byte "/" rest = false →
  let p := pre ++ String "." rest in
  let ext := Go.ToLower (String "." rest) in
  (ext ∉ [".srt"; ".ass"; ".ssa"] →
   handlers.getMimeType p = Some (getMimeType p)) ∧
  (ext ∈ [".srt"; ".ass"] →
   getMimeType p = "text/plain" ∧
   handlers.getMimeType p = Some "text/plain; charset=utf-8") ∧
  (ext = ".ssa" →
   getMimeType p = "application/octet-stream" ∧
   handlers.getMimeType p = Some "text/plain; charset=utf-8").
Proof.
  intros Hdot Hslash p ext.
  assert (Hs : getMimeType p
               = match mimeTypes !! ext with
                 | Some mime => mime
                 | None => "application/octet-stream"
                 end).
  { unfold getMimeType, p. by rewrite Ext_suffix. }
  assert (Hh : handlers.getMimeType p
               = match handlers.mimeTypes !! ext with
                 | Some mime => Some mime
                 | None => Some "application/octet-stream"
                 end).
  { unfold handlers.getMimeType, p. by rewrite slice_at_LastIndex_suffix. }
  rewrite Hs, Hh. split; [|split].
  - intros Hne. rewrite mimeTypes_agree by done. by destruct (mimeTypes !! ext).
  - intros Hin. apply elem_of_cons in Hin as [->|Hin]; [done|].
    apply list_elem_of_singleton in Hin as ->. done.
  - by intros ->.
Qed.

Lemma X_media_types_agree_witness :
  handlers.getMimeType "dir/movie.MP4" = Some (getMimeType "dir/movie.MP4") ∧
  getMimeType "dir/movie.MP4" = "video/mp4".
Proof.
  destruct (X_media_types_agree "dir/movie" "MP4" eq_refl eq_refl) as (H & _ & _).
  split; [|reflexivity].
  apply H. vm_compute. intros Hin.
  repeat (apply elem_of_cons in Hin as [Hin|Hin]; [discriminate|]).
  by apply elem_of_nil in Hin.
Defined.

(** ** Routing *)

Lemma TrimPrefix_app (p x : string) : Go.TrimPrefix (p ++ x) p = x.
Proof.
  unfold Go.TrimPrefix, Go.HasPrefix. by rewrite prefix_app, drop_bytes_app.
Qed.

Lemma PathUnescape_plain (p : string) :
  has_byte "%" p = false → Go.PathUnescape p = Some p.
Proof.
  induction p as [|c p IH]; [done|]. cbn. intros H.
  apply orb_false_iff in H as [Hc Hp]. by rewrite Hc, (IH Hp).
Qed.

(** X17.  The URL [/webdav/<id>/<escaped path>] is a request for the file
    [path] of the identifier [id], also when the path has several
    elements and, when it has no [%], stands for itself; a URL without a
    second element is a directory listing, and [/webdav/<id>/] (with the
    trailing slash) is a request for the file with the empty path, not a
    listing. *)
Theorem X_handleGet_routing (s : TorrentService) (r : handlers.Request)
    (expires magnetID : string) :
  has_byte "/" magnetID = false →
  (handlers.URLPath r = "/webdav/" ++ magnetID →
   handlers.handleGet s r expires = (handlers.DirectoryListing magnetID, [])) ∧
  (∀ encoded filePath,
     handlers.URLPath r = "/webdav/" ++ magnetID ++ "/" ++ encoded →
     Go.PathUnescape encoded = Some filePath →
     routes_to r magnetID filePath) ∧
  (∀ filePath,
     has_byte "%" filePath = false →
     handlers.URLPath r = "/webdav/" ++ magnetID ++ "/" ++ filePath →
     routes_to r magnetID filePath) ∧
  (handlers.URLPath r = "/webdav/" ++ magnetID ++ "/" → routes_to r magnetID "").
Proof.
  intros Hid.
  assert (Hroute : ∀ encoded filePath,
            handlers.URLPath r = "/webdav/" ++ magnetID ++ "/" ++ encoded →
            Go.PathUnescape encoded = Some filePath →
            routes_to r magnetID filePath).
  { intros encoded filePath Hurl Hunesc. unfold routes_to.
    rewrite Hurl, TrimPrefix_app.
    change (magnetID ++ "/" ++ encoded) with (magnetID ++ String "/" encoded).
    rewrite Split_app_sep by done.
    pose proof (Join_Split encoded "/") as HJ.
    destruct (Go.Split encoded "/") as [|p1 rest] eqn:E.
    { by destruct (Split_nonempty encoded "/"). }
    exists p1, rest. split; [done|].
    change (String "/" EmptyString) with "/" in HJ. by rewrite HJ. }
  split; [|split; [exact Hroute|split]].
  - intros Hurl. unfold handlers.handleGet.
    rewrite Hurl, TrimPrefix_app, Split_no_sep by done. done.
  - intros filePath Hplain Hurl. apply (Hroute filePath); [done|].
    by apply PathUnescape_plain.
  - intros Hurl. by apply (Hroute "" "").
Qed.

Lemma X_handleGet_routing_witness :
  handlers.handleGet Fixtures.svc (Fixtures.get "/webdav/abc" ∅) "soon"
  = (handlers.DirectoryListing "abc", []) ∧
  routes_to (Fixtures.get "/webdav/abc/dir/a%20b.mp4" ∅) "abc" "dir/a b.mp4".
Proof.
  split.
  - by apply (X_handleGet_routing Fixtures.svc (Fixtures.get "/webdav/abc" ∅) "soon" "abc").
  - by apply (X_handleGet_routing Fixtures.svc
                (Fixtures.get "/webdav/abc/dir/a%20b.mp4" ∅) "soon" "abc" eq_refl)
         with (encoded := "dir/a%20b.mp4").
Defined.

(** ** The cache policy *)

Lemma videoExtensions_spec (ext : string) :
  default false (handlers.videoExtensions !! ext)
  = bool_decide (ext ∈ [".mp4"; ".mkv"; ".avi"; ".mov"; ".webm"; ".flv"; ".wmv";
                        ".m4v"; ".3gp"]).
Proof.
  unfold handlers.videoExtensions. cbn [list_to_map foldr uncurry].
  repeat match goal with
  | |- context [<[?k := _]> _ !! ext] =>
      destruct (decide (k = ext)) as [<-|?];
      [rewrite ?lookup_insert_eq;
       by rewrite bool_decide_eq_true_2
         by (repeat first [apply list_elem_of_here | apply list_elem_of_further])
      |rewrite (lookup_insert_ne _ k ext) by done]
  end.
  rewrite lookup_empty. cbn. rewrite bool_decide_eq_false_2; [done|].
  cbn [fst] in *.
  intros Hin. repeat (apply elem_of_cons in Hin as [Hin|Hin]; [congruence|]).
  by apply elem_of_nil in Hin.
Qed.

(** X18.  For a path whose name ends in [.<rest>] the conditional-request
    step never panics and sets the cache policy by the lower-cased
    extension and the requested range: a video is cacheable for 24 hours
    when the request carries no range (or the range 0-0) and for 30
    minutes otherwise, every other file for one hour; the response is
    open to every origin. *)
Theorem X_cache_policy (w : handlers.ResponseWriter) (r : handlers.Request)
    (pre rest : string) (a e : Z) (expires : string) :
  has_byte "." rest = false →
  let video :=
    bool_decide (Go.ToLower (String "." rest)
                 ∈ [".mp4"; ".mkv"; ".avi"; ".mov"; ".webm"; ".flv"; ".wmv";
                    ".m4v"; ".3gp"]) in
  ∃ w' flag,
    handlers.handleConditionalRequest w r (pre ++ String "." rest) a e expires
    = Some (w', flag) ∧
    handlers.isVideoFile (pre ++ String "." rest) = Some video ∧
    handlers.header w' !! "Cache-Control"
    = Some (if video
            then if Z.eqb a 0 && Z.eqb e 0
                 then "public, max-age=86400" else "public, max-age=1800"
            else "public, max-age=3600") ∧
    handlers.header w' !! "Access-Control-Allow-Origin" = Some "*" ∧
    handlers.header w' !! "Expires" = Some expires.
Proof.
  intros Hdot video.
  assert (Hv : handlers.isVideoFile (pre ++ String "." rest) = Some video).
  { unfold handlers.isVideoFile. rewrite slice_at_LastIndex_suffix by done.
    by rewrite videoExtensions_spec. }
  unfold handlers.handleConditionalRequest, handlers.setCacheHeaders. rewrite Hv.
  destruct (negb _ && _); eexists _, _; (split; [reflexivity|]); (split; [done|]);
    unfold handlers.WriteHeader; cbn;
    repeat (match goal with |- context [match ?x with Some _ => _ | None => _ end] =>
              destruct x end; cbn);
    by lookup_header.
Qed.

Lemma X_cache_policy_witness :
  ∃ w' flag,
    handlers.handleConditionalRequest handlers.NewResponse
      (Fixtures.get "/webdav/abc/dir/movie.MKV" ∅) "dir/movie.MKV" 0 0 "soon"
    = Some (w', flag) ∧
    handlers.header w' !! "Cache-Control" = Some "public, max-age=86400".
Proof.
  destruct (X_cache_policy handlers.NewResponse
              (Fixtures.get "/webdav/abc/dir/movie.MKV" ∅) "dir/movie" "MKV" 0 0 "soon"
              eq_refl) as (w' & flag & H & _ & Hc & _).
  exists w', flag. split; [exact H | exact Hc].
Defined.

(** ** The session count *)

(** X19.  An acquisition the engine accepts registers the identifier whichever
    way the wait ends: the session count grows by one for a new
    identifier and stays as it is for one already registered, whose
    handle is replaced; the other identifiers keep their sessions. *)
Theorem X_session_count (s : TorrentService) (uri id : string) (h : nat)
    (ev : select_case) (now : Z) :
  let s' := addTorrentToClient s uri id (AddMagnet_ok h) ev now in
  GetTorrent s' id = Some h ∧
  (∀ id', id' ≠ id → GetTorrent s' id' = GetTorrent s id') ∧
  GetActiveTorrentCount s'
  = GetActiveTorrentCount s + match GetTorrent s id with Some _ => 0 | None => 1 end.
Proof.
  intros s'.
  assert (Ha : activeTorrents s' = <[id := h]> (activeTorrents s)).
  { unfold s', addTorrentToClient. by destruct ev. }
  unfold GetTorrent, GetActiveTorrentCount. rewrite Ha.
  split; [by rewrite lookup_insert_eq|]. split.
  - intros id' Hne. by rewrite lookup_insert_ne.
  - destruct (activeTorrents s !! id) as [h0|] eqn:E.
    + rewrite map_size_insert_Some by eauto. lia.
    + rewrite map_size_insert_None by done. lia.
Qed.

Local Open Scope list_scope.

(** ** What a reconciliation pass leaves alone *)

Lemma filter_filter_fmap_frame {A} (P Q : A → Prop)
    `{∀ x, Decision (P x)} `{∀ x, Decision (Q x)} (g : A → A) (l : list A) :
  (∀ x, x ∈ l → P x → g x = x ∧ Q x) →
  (∀ x, x ∈ l → ¬ P x → ¬ P (g x)) →
  filter P (filter Q (g <$> l)) = filter P l.
Proof.
  induction l as [|x l IH]; intros H1 H2; [done|].
  rewrite fmap_cons, !filter_cons.
  assert (IH' : filter P (filter Q (g <$> l)) = filter P l).
  { apply IH; intros y Hy; [apply H1 | apply H2]; by apply list_elem_of_further. }
  destruct (decide (P x)) as [HP|HP].
  - destruct (H1 x (list_elem_of_here _ _) HP) as [Hg HQ]. rewrite Hg.
    rewrite decide_True by done. rewrite filter_cons, decide_True by done.
    by rewrite IH'.
  - pose proof (H2 x (list_elem_of_here _ _) HP) as HPg.
    destruct (decide (Q (g x))); [|done].
    by rewrite filter_cons, decide_False.
Qed.

(** The owner of a row is not changed by the saves of a pass. *)
Lemma apply_saves_owner (s : TorrentService) (torr : torrent.Torrent)
    (infoHash : string) (now : Z) (f : File.t) :
  catalog_ok (db s) → f ∈ files (db s) →
  File.MagnetID
    (apply_saves (filesToUpdate (reconcile (db s) torr infoHash now)) f)
  = File.MagnetID f.
Proof.
  intros Hok Hf.
  set (U := filesToUpdate (reconcile (db s) torr infoHash now)).
  destruct (apply_saves_dichotomy U f) as [Hu|[-> _]]; [|done].
  pose proof (apply_saves_ID U f) as HID.
  apply (update_origin s torr infoHash now Hok) in Hu
    as (k & file & e & _ & He & Hm & _ & Hid & (R1 & _)).
  rewrite HID in Hid.
  assert (f = e) by (by apply (ID_inj s Hok)). subst e. congruence.
Qed.

Lemma handleTorrentReady_other_rows (s : TorrentService) (torr : torrent.Torrent)
    (infoHash : string) (now : Z) :
  catalog_ok (db s) →
  filter (fun f => File.MagnetID f ≠ infoHash)
    (files (db (handleTorrentReady s torr infoHash now)))
  = filter (fun f => File.MagnetID f ≠ infoHash) (files (db s)).
Proof.
  intros Hok. rewrite handleTorrentReady_files. cbv zeta.
  set (st := reconcile (db s) torr infoHash now).
  set (C := number_rows (files_seq (db s)) now (filesToCreate st)).
  rewrite (filter_filter_fmap_frame (fun f => File.MagnetID f ≠ infoHash)).
  - rewrite filter_app.
    assert (filter (fun f => File.MagnetID f ≠ infoHash) C = []) as ->.
    { apply elem_of_nil_inv. intros c Hc. apply list_elem_of_filter in Hc as [Hne Hc].
      apply number_rows_spec in Hc as [_ (r & Hr & Hsame)].
      apply (create_origin s torr infoHash now) in Hr as (k & file & _ & _ & Hrep).
      destruct (reported_same_entry _ _ _ _ _ Hsame Hrep) as [Hid _]. done. }
    by rewrite app_nil_r.
  - intros f Hf Hne. apply elem_of_app in Hf as [Hf|Hf].
    + split.
      * apply apply_saves_other. intros u Hu Hid.
        apply (update_origin s torr infoHash now Hok) in Hu
          as (k & file & e & _ & He & Hm & _ & Hid' & _).
        rewrite Hid in Hid'.
        assert (f = e) by (by apply (ID_inj s Hok)). by subst e.
      * intros Hdel. apply (deleted_spec s torr infoHash now Hok) in Hdel
          as (e & He & Hm & Hid & _).
        assert (e = f) by (by apply (ID_inj s Hok)). by subst e.
    + by apply (created_untouched s torr infoHash now Hok).
  - intros f Hf Hid. apply elem_of_app in Hf as [Hf|Hf].
    + cbv beta in *. unfold st. by rewrite apply_saves_owner.
    + destruct (created_untouched s torr infoHash now Hok f Hf) as [Hs _].
      fold st in Hs. by rewrite Hs.
Qed.

(** X20.  A reconciliation pass for one identifier is local: on a well-formed
    catalog the rows of every other identifier are left exactly as they
    were, the records of other identifiers are untouched, no record is
    created when the identifier has none, and the session map and the
    engine are not changed. *)
Theorem X_handleTorrentReady_frame (s : TorrentService) (torr : torrent.Torrent)
    (infoHash : string) (now : Z) :
  catalog_ok (db s) →
  let s' := handleTorrentReady s torr infoHash now in
  filter (fun f => File.MagnetID f ≠ infoHash) (files (db s'))
  = filter (fun f => File.MagnetID f ≠ infoHash) (files (db s)) ∧
  (∀ id, id ≠ infoHash → find_files (db s') id = find_files (db s) id) ∧
  (∀ id, id ≠ infoHash → magnets (db s') !! id = magnets (db s) !! id) ∧
  (magnets (db s) !! infoHash = None → magnets (db s') = magnets (db s)) ∧
  activeTorrents s' = activeTorrents s ∧ client s' = client s.
Proof.
  intros Hok s'. subst s'.
  pose proof (handleTorrentReady_other_rows s torr infoHash now Hok) as Hrows.
  split; [exact Hrows|]. split; [|split; [|split]].
  - intros id Hne. unfold find_files.
    assert (Hsub : ∀ l : list File.t, filter (fun f => File.MagnetID f = id) l
              = filter (fun f => File.MagnetID f = id)
                  (filter (fun f => File.MagnetID f ≠ infoHash) l)).
    { intros l. induction l as [|f l IH]; [done|].
      rewrite !filter_cons. destruct (decide (File.MagnetID f = id)) as [Hf|Hf].
      - rewrite decide_True by congruence. rewrite filter_cons, decide_True by done.
        by rewrite IH.
      - destruct (decide (File.MagnetID f ≠ infoHash)); [|done].
        by rewrite filter_cons, decide_False. }
    rewrite (Hsub (files (db (handleTorrentReady s torr infoHash now)))), (Hsub (files (db s))). by rewrite Hrows.
  - intros id Hne. rewrite handleTorrentReady_magnets.
    by rewrite lookup_alter_ne.
  - intros Hnone. rewrite handleTorrentReady_magnets.
    apply map_eq. intros k. destruct (decide (k = infoHash)) as [->|Hne].
    + by rewrite lookup_alter_eq, Hnone.
    + by rewrite lookup_alter_ne.
  - done.
Qed.

Lemma X_handleTorrentReady_frame_witness :
  let torr := Example.report [("b", 25); ("c", 5)] in
  let s' := handleTorrentReady Example.prior torr "xyz" 7 in
  find_files (db s') "abc" = find_files (db Example.prior) "abc" ∧
  magnets (db s') = magnets (db Example.prior).
Proof.
  intros torr s'.
  destruct (X_handleTorrentReady_frame Example.prior torr "xyz" 7 Example_prior_ok)
    as (_ & Hrows & _ & Hrec & _).
  split.
  - by apply Hrows.
  - by apply Hrec.
Defined.

(** ** The rows of an identifier after a pass *)

Lemma remove_dups_length {A} `{EqDecision A} (l : list A) :
  (length (remove_dups l) ≤ length l)%nat.
Proof.
  induction l as [|x l IH]; [done|]. cbn.
  destruct (decide_rel elem_of x l); cbn; lia.
Qed.

Lemma firsts_paths (torr : torrent.Torrent) (p : string) :
  p ∈ path_of <$> firsts ∅ 0 (torrent.Files torr) ↔
  p ∈ torrent.Path <$> torrent.Files torr.
Proof.
  split.
  - intros H. apply list_elem_of_fmap in H as ([k file] & -> & Hin).
    by apply (FL_reported_path torr k).
  - intros H. apply list_elem_of_fmap in H as (file & -> & Hin).
    destruct (list_find (fun f => torrent.Path f = torrent.Path file)
                (torrent.Files torr)) as [[n file']|] eqn:E.
    + pose proof E as Hfind. apply list_find_Some in E as (_ & Hp & _).
      apply list_elem_of_fmap. exists (0 + Z.of_nat n, file'). split; [done|].
      by apply (find_firsts _ _ _ (torrent.Path file)).
    + exfalso. rewrite list_find_None, Forall_forall in E. by apply (E file).
Qed.

Lemma handleTorrentReady_paths (s : TorrentService) (torr : torrent.Torrent)
    (infoHash : string) (now : Z) :
  catalog_ok (db s) →
  File.FilePath <$> find_files (db (handleTorrentReady s torr infoHash now)) infoHash
  ≡ₚ path_of <$> firsts ∅ 0 (torrent.Files torr).
Proof.
  intros Hok. apply NoDup_Permutation.
  - apply keys_NoDup_paths.
    by destruct (handleTorrentReady_ok s torr infoHash now Hok) as (_ & _ & ?).
  - apply firsts_unseen.
  - intros p. split.
    + intros H. apply list_elem_of_fmap in H as (f & -> & Hf).
      apply list_elem_of_filter in Hf as [Hid Hf].
      destruct (row_after s torr infoHash now Hok f Hf Hid) as (k & file & Hin & _ & -> & _).
      apply list_elem_of_fmap. by exists (k, file).
    + intros H. apply list_elem_of_fmap in H as ([k file] & -> & Hin).
      destruct (row_exists s torr infoHash now Hok k file Hin) as (f & Hf & Hid & Hp & _).
      apply list_elem_of_fmap. exists f. split; [done|].
      by apply list_elem_of_filter.
Qed.

(** X21.  After a pass on a well-formed catalog the rows of the identifier
    carry, up to order, exactly the distinct paths of the reported list;
    so there are at most as many rows as reported files (fewer when the
    list repeats a path, although the record's file count is the length
    of the list). *)
Theorem X_handleTorrentReady_paths (s : TorrentService) (torr : torrent.Torrent)
    (infoHash : string) (now : Z) :
  catalog_ok (db s) →
  let s' := handleTorrentReady s torr infoHash now in
  File.FilePath <$> find_files (db s') infoHash
  ≡ₚ remove_dups (torrent.Path <$> torrent.Files torr) ∧
  (length (find_files (db s') infoHash) ≤ length (torrent.Files torr))%nat ∧
  ∀ m, magnets (db s') !! infoHash = Some m →
       Magnet.FileCount m = Z.of_nat (length (torrent.Files torr)).
Proof.
  intros Hok s'. subst s'.
  set (s' := handleTorrentReady s torr infoHash now).
  assert (HP : File.FilePath <$> find_files (db s') infoHash
               ≡ₚ remove_dups (torrent.Path <$> torrent.Files torr)).
  { unfold s'. rewrite (handleTorrentReady_paths s torr infoHash now Hok).
    apply NoDup_Permutation.
    - apply firsts_unseen.
    - apply NoDup_remove_dups.
    - intros p. rewrite firsts_paths. by rewrite elem_of_remove_dups. }
  split; [exact HP|]. split.
  - rewrite <- (length_fmap File.FilePath), HP.
    rewrite <- (length_fmap torrent.Path (torrent.Files torr)).
    apply remove_dups_length.
  - intros m. unfold s'. rewrite handleTorrentReady_magnets, lookup_alter_eq.
    destruct (magnets (db s) !! infoHash); [|done]. by intros [= <-].
Qed.

Lemma X_handleTorrentReady_paths_witness :
  let torr := Example.report [("b", 25); ("c", 5); ("b", 99)] in
  let s' := handleTorrentReady Example.prior torr "abc" 7 in
  File.FilePath <$> find_files (db s') "abc" ≡ₚ remove_dups ["b"; "c"; "b"] ∧
  (length (find_files (db s') "abc") ≤ 3)%nat.
Proof.
  intros torr s'.
  destruct (X_handleTorrentReady_paths Example.prior torr "abc" 7 Example_prior_ok)
    as (H1 & H2 & _).
  split; [exact H1 | exact H2].
Defined.

(** ** From the metadata to the first byte *)

Lemma handleTorrentReady_sessions (s : TorrentService) (torr : torrent.Torrent)
    (infoHash : string) (now : Z) :
  activeTorrents (handleTorrentReady s torr infoHash now) = activeTorrents s ∧
  client (handleTorrentReady s torr infoHash now) = client s.
Proof. done. Qed.

Lemma addTorrentToClient_GotInfo_resolves (s : TorrentService)
    (uri id : string) (h : nat) (i : torrent.Info) (now : Z)
    (p : string) (file : torrent.File) :
  find_file (torrent.InfoFiles i) p = Some file →
  resolves (addTorrentToClient s uri id (AddMagnet_ok h) (GotInfo i) now) id p file.
Proof.
  intros Hf. exists h, i. unfold addTorrentToClient, GetTorrent, deref.
  destruct (handleTorrentReady_sessions
              {| db := db s;
                 client := <[h := torrent.mkTorrent (Some i)]>
                             (<[h := deref s h]> (client s));
                 activeTorrents := <[id := h]> (activeTorrents s);
                 ctx_done := ctx_done s |}
              (torrent.mkTorrent (Some i)) id now) as [Ha Hc].
  cbn [db client activeTorrents ctx_done] in *.
  unfold deref in Ha, Hc. rewrite Ha, Hc. cbn.
  rewrite !lookup_insert_eq. by cbn.
Qed.

Lemma reported_row (s : TorrentService) (torr : torrent.Torrent)
    (infoHash : string) (now : Z) (p : string) (file : torrent.File) :
  catalog_ok (db s) →
  find_file (torrent.Files torr) p = Some file →
  ∃ row, filter (fun f => file_key f = (infoHash, p))
           (files (db (handleTorrentReady s torr infoHash now))) = [row] ∧
         File.FileSize row = torrent.Length file ∧
         File.MimeType row = getMimeType p.
Proof.
  intros Hok Hf. rewrite find_file_list_find in Hf.
  destruct (list_find _ (torrent.Files torr)) as [[n file']|] eqn:Hfind; [|done].
  injection Hf as ->.
  assert (Hp : torrent.Path file = p).
  { by apply list_find_Some in Hfind as (_ & ? & _). }
  assert (Hin : (0 + Z.of_nat n, file) ∈ firsts ∅ 0 (torrent.Files torr)).
  { by apply (find_firsts _ _ _ p). }
  destruct (row_exists s torr infoHash now Hok _ _ Hin)
    as (f' & Hf' & R1 & R2 & R3 & R4 & R5).
  exists f'. rewrite Hp in R2, R5. split; [|done].
  pose proof (handleTorrentReady_ok s torr infoHash now Hok) as (_ & _ & Hkeys).
  replace (infoHash, p) with (file_key f') by (unfold file_key; by rewrite R1, R2).
  by apply NoDup_key_filter.
Qed.

(** X22.  Once the engine has delivered the metadata, every file it reports
    can be streamed under the identifier, and the catalog agrees with
    what is served: the path has exactly one row, whose size is the
    length of the very file the stream opens, and the record (if there
    is one) is [ready] with the name and the file count of the
    metadata. *)
Theorem X_acquisition_serves (s : TorrentService) (uri id : string) (h : nat)
    (i : torrent.Info) (now : Z) (p : string) (file : torrent.File) :
  catalog_ok (db s) →
  find_file (torrent.InfoFiles i) p = Some file →
  let s' := addTorrentToClient s uri id (AddMagnet_ok h) (GotInfo i) now in
  GetTorrent s' id = Some h ∧
  (∀ a b, ∃ reader,
      GetFileStream s' id p a b = (Ok (file, reader), [go_updateAccessStats id])) ∧
  (∃ row, filter (fun f => file_key f = (id, p)) (files (db s')) = [row] ∧
          File.FileSize row = torrent.Length file ∧
          File.MimeType row = getMimeType p) ∧
  (∀ m, magnets (db s) !! id = Some m →
        ∃ m', magnets (db s') !! id = Some m' ∧
              Magnet.Status m' = "ready" ∧
              Magnet.Name m' = torrent.InfoName i ∧
              Magnet.FileCount m' = Z.of_nat (length (torrent.InfoFiles i)) ∧
              Magnet.MagnetURI m' = Magnet.MagnetURI m).
Proof.
  intros Hok Hf s'.
  pose proof (addTorrentToClient_GotInfo_resolves s uri id h i now p file Hf) as Hres.
  fold s' in Hres.
  split; [|split; [|split]].
  - unfold s'. rewrite addTorrentToClient_sessions. apply lookup_insert_eq.
  - intros a b. eexists. by apply GetFileStream_ok.
  - unfold s', addTorrentToClient. by apply reported_row.
  - intros m Hm. unfold s', addTorrentToClient.
    rewrite handleTorrentReady_magnets. cbn [db].
    rewrite lookup_alter_eq, Hm. cbn. eexists. by split.
Qed.

Lemma X_acquisition_serves_witness :
  let uri := "magnet:?xt=urn:btih:ABCDEF&dn=x" in
  let s0 := (AddMagnet (NewTorrentService (mkDB ∅ [] 1)) uri 5).1.1 in
  let s' := addTorrentToClient s0 uri "abcdef" (AddMagnet_ok 0)
              (GotInfo {| torrent.InfoName := "demo";
                          torrent.InfoFiles := [Fixtures.movie; Fixtures.readme] |}) 9 in
  (∃ reader, GetFileStream s' "abcdef" "README" 0 0
             = (Ok (Fixtures.readme, reader), [go_updateAccessStats "abcdef"])) ∧
  (∃ row, filter (fun f => file_key f = ("abcdef", "README")) (files (db s')) = [row] ∧
          File.FileSize row = 100).
Proof.
  intros uri s0 s'.
  destruct (X_acquisition_serves s0 uri "abcdef" 0
              {| torrent.InfoName := "demo";
                 torrent.InfoFiles := [Fixtures.movie; Fixtures.readme] |}
              9 "README" Fixtures.readme)
    as (_ & Hstream & (row & Hrow & Hsize & _) & _).
  - apply catalog_ok_empty.
  - reflexivity.
  - split; [apply Hstream|]. exists row. split; [exact Hrow | exact Hsize].
Defined.

(** ** Metadata that arrives after the removal *)

(** X23.  The acquisition started by a submission may finish after the record
    was removed.  It then creates the file rows all the same: the
    identifier has rows (one per distinct reported path) but no record,
    and its files are served. *)
Theorem X_metadata_after_removal (s : TorrentService) (uri id : string) (h : nat)
    (i : torrent.Info) (now : Z) :
  catalog_ok (db s) →
  let s1 := (handlers.RemoveMagnet s id).1 in
  let s2 := addTorrentToClient s1 uri id (AddMagnet_ok h) (GotInfo i) now in
  magnets (db s2) !! id = None ∧
  File.FilePath <$> find_files (db s2) id
  ≡ₚ remove_dups (torrent.Path <$> torrent.InfoFiles i) ∧
  ∀ p file, find_file (torrent.InfoFiles i) p = Some file →
    ∃ reader, GetFileStream s2 id p 0 0
              = (Ok (file, reader), [go_updateAccessStats id]).
Proof.
  intros Hok s1 s2.
  assert (Hok1 : catalog_ok (db s1)) by (by apply RemoveMagnet_catalog_ok).
  split; [|split].
  - unfold s2, addTorrentToClient. rewrite handleTorrentReady_magnets. cbn [db].
    rewrite lookup_alter_eq. unfold s1, handlers.RemoveMagnet. cbn.
    by rewrite lookup_delete_eq.
  - unfold s2, addTorrentToClient.
    rewrite handleTorrentReady_paths by done.
    apply NoDup_Permutation.
    + apply firsts_unseen.
    + apply NoDup_remove_dups.
    + intros p. rewrite firsts_paths. by rewrite elem_of_remove_dups.
  - intros p file Hf. eexists. apply GetFileStream_ok.
    by apply addTorrentToClient_GotInfo_resolves.
Qed.

Lemma X_metadata_after_removal_witness :
  let s1 := (handlers.RemoveMagnet Fixtures.svc "abc").1 in
  let s2 := addTorrentToClient s1 "magnet:?xt=urn:btih:ABC" "abc" (AddMagnet_ok 0)
              (GotInfo {| torrent.InfoName := "demo";
                          torrent.InfoFiles := [Fixtures.movie; Fixtures.readme] |}) 9 in
  magnets (db s2) !! "abc" = None ∧
  File.FilePath <$> find_files (db s2) "abc" ≡ₚ remove_dups ["movie.bin"; "README"].
Proof.
  intros s1 s2.
  destruct (X_metadata_after_removal Fixtures.svc "magnet:?xt=urn:btih:ABC" "abc" 0
              {| torrent.InfoName := "demo";
                 torrent.InfoFiles := [Fixtures.movie; Fixtures.readme] |} 9)
    as (H1 & H2 & _).
  - repeat split.
    + refine (bool_decide_unpack _ _). vm_compute. exact I.
    + repeat constructor.
    + refine (bool_decide_unpack _ _). vm_compute. exact I.
  - split; [exact H1 | exact H2].
Defined.

(** ** Removal *)

Lemma filter_ne_idemp (id : string) (l : list File.t) :
  filter (fun f => File.MagnetID f ≠ id) (filter (fun f => File.MagnetID f ≠ id) l)
  = filter (fun f => File.MagnetID f ≠ id) l.
Proof.
  induction l as [|f l IH]; [done|].
  rewrite filter_cons. case_decide as H; [|exact IH].
  rewrite filter_cons, decide_True by done. by rewrite IH.
Qed.

Lemma filter_eq_ne (id id' : string) (l : list File.t) :
  id' ≠ id →
  filter (fun f => File.MagnetID f = id') (filter (fun f => File.MagnetID f ≠ id) l)
  = filter (fun f => File.MagnetID f = id') l.
Proof.
  intros Hne. induction l as [|f l IH]; [done|].
  rewrite !filter_cons. destruct (decide (File.MagnetID f = id')) as [Hf|Hf].
  - rewrite decide_True by congruence. rewrite filter_cons, decide_True by done.
    by rewrite IH.
  - destruct (decide (File.MagnetID f ≠ id)); [|done].
    by rewrite filter_cons, decide_False.
Qed.

(** X24.  [RemoveMagnet] answers 200 whether or not the identifier is known,
    touches neither the records nor the rows of any other identifier nor
    the sequence of primary keys, and removing twice is the same as
    removing once. *)
Theorem X_RemoveMagnet_local (s : TorrentService) (magnetID : string) :
  let s' := (handlers.RemoveMagnet s magnetID).1 in
  (handlers.RemoveMagnet s magnetID).2 = 200 ∧
  (∀ id, id ≠ magnetID →
         magnets (db s') !! id = magnets (db s) !! id ∧
         find_files (db s') id = find_files (db s) id) ∧
  files_seq (db s') = files_seq (db s) ∧
  (handlers.RemoveMagnet s' magnetID).1 = s'.
Proof.
  intros s'. unfold s', handlers.RemoveMagnet. cbn.
  split; [done|]. split; [|split; [done|]].
  - intros id Hne. rewrite lookup_delete_ne by done. split; [done|].
    unfold find_files. cbn. by apply filter_eq_ne.
  - unfold with_db, with_magnets, with_files. cbn.
    by rewrite filter_ne_idemp, delete_delete_eq.
Qed.

(** ** Serving does not consult the catalog *)


(** ** An engine that refuses the link *)

(** X26.  When the engine refuses the magnet link, nothing is registered: the
    session map, the engine and the file rows are as before; the record
    of the identifier gets the status [error] and the engine's message as
    its name (an empty message leaves the name), and the other records
    are untouched. *)
Theorem X_addTorrentToClient_refused (s : TorrentService) (uri id msg : string)
    (ev : select_case) (now : Z) :
  let s' := addTorrentToClient s uri id (AddMagnet_err msg) ev now in
  activeTorrents s' = activeTorrents s ∧ client s' = client s ∧
  files (db s') = files (db s) ∧
  (∀ id', id' ≠ id → magnets (db s') !! id' = magnets (db s) !! id') ∧
  (magnets (db s) !! id = None → magnets (db s') !! id = None) ∧
  (∀ m, magnets (db s) !! id = Some m →
        ∃ m', magnets (db s') !! id = Some m' ∧
              Magnet.Status m' = "error" ∧
              Magnet.Name m' = (if String.eqb msg "" then Magnet.Name m else msg) ∧
              Magnet.MagnetURI m' = Magnet.MagnetURI m ∧
              Magnet.UpdatedAt m' = now).
Proof.
  intros s'. unfold s', addTorrentToClient, updateMagnetStatus. cbn.
  do 3 (split; [done|]). split; [|split].
  - intros id' Hne. by rewrite lookup_alter_ne.
  - intros Hnone. by rewrite lookup_alter_eq, Hnone.
  - intros m Hm. rewrite lookup_alter_eq, Hm. cbn. eexists. by split.
Qed.

(** ** Shutdown and restart *)

(** X27.  [Stop] closes every session and keeps the catalog: afterwards the
    session count is 0 and every file request is answered 404 without a
    statistics update; stopping twice changes nothing more, and what a
    restart would re-acquire is decided by the catalog alone. *)
Theorem X_Stop_shuts_down (s : TorrentService) :
  db (Stop s) = db s ∧
  GetActiveTorrentCount (Stop s) = 0 ∧
  (∀ r magnetID filePath expires,
     routes_to r magnetID filePath →
     handlers.handleGet (Stop s) r expires
     = (handlers.Responded
          (handlers.http_Error handlers.NewResponse "File not found or not ready"
             handlers.StatusNotFound), [])) ∧
  Stop (Stop s) = Stop s ∧
  restoreActiveTorrents (Stop s) = restoreActiveTorrents s.
Proof.
  split; [done|]. split; [done|]. split; [|done].
  intros r magnetID filePath expires (p1 & rest & Hsplit & Hunesc).
  unfold handlers.handleGet. rewrite Hsplit, Hunesc.
  destruct (if String.eqb _ "" then (0, 0) else _) as [a b].
  unfold GetFileStream, GetTorrent, Stop. cbn. by rewrite lookup_empty.
Qed.


Lemma restoreActiveTorrents_elem (s : TorrentService) (t : task) :
  t ∈ restoreActiveTorrents s ↔
  ∃ k m, magnets (db s) !! k = Some m ∧ Magnet.Status m = "ready" ∧
         t = go_addTorrentToClient (Magnet.MagnetURI m) (Magnet.ID m).
Proof.
  unfold restoreActiveTorrents. split.
  - intros H. apply list_elem_of_fmap in H as (m & -> & Hm).
    apply list_elem_of_filter in Hm as [Hready Hm].
    apply list_elem_of_fmap in Hm as ([k m'] & -> & Hkm).
    apply elem_of_map_to_list in Hkm. by exists k, m'.
  - intros (k & m & Hm & Hready & ->).
    apply list_elem_of_fmap. exists m. split; [done|].
    apply list_elem_of_filter. split; [done|].
    apply list_elem_of_fmap. exists (k, m). split; [done|].
    by apply elem_of_map_to_list.
Qed.

Lemma restoreActiveTorrents_NoDup (s : TorrentService) :
  keyed (db s) → NoDup (task_id <$> restoreActiveTorrents s).
Proof.
  intros Hk. unfold restoreActiveTorrents. rewrite <- list_fmap_compose.
  rewrite (fmap_ext_in _ Magnet.ID) by done.
  apply NoDup_fmap_filter.
  rewrite <- list_fmap_compose.
  rewrite (fmap_ext_in _ fst).
  - apply NoDup_fst_map_to_list.
  - intros [k m] Hkm. apply elem_of_map_to_list in Hkm. cbn. by apply Hk.
Qed.

(** X28.  At start-up exactly the records in state [ready] are acquired again,
    each once and with its own link.  A record that is still [pending]
    (the process stopped before the metadata came) or in state [error]
    (the acquisition timed out) is not retried. *)
Theorem X_restoreActiveTorrents_ready_only (s : TorrentService) :
  keyed (db s) →
  (∀ uri id, go_addTorrentToClient uri id ∈ restoreActiveTorrents s ↔
             ∃ m, magnets (db s) !! id = Some m ∧ Magnet.Status m = "ready" ∧
                  Magnet.MagnetURI m = uri) ∧
  (∀ id, go_updateAccessStats id ∉ restoreActiveTorrents s) ∧
  NoDup (task_id <$> restoreActiveTorrents s) ∧
  (∀ uri now uri',
     magnets (db s) !! extractInfoHash uri = None →
     go_addTorrentToClient uri' (extractInfoHash uri)
     ∉ restoreActiveTorrents (AddMagnet s uri now).1.1) ∧
  (∀ uri id h now uri',
     go_addTorrentToClient uri' id
     ∉ restoreActiveTorrents (addTorrentToClient s uri id (AddMagnet_ok h) TimeAfter now)).
Proof.
  intros Hk.
  assert (Hiff : ∀ s', keyed (db s') → ∀ uri id,
            go_addTorrentToClient uri id ∈ restoreActiveTorrents s' ↔
            ∃ m, magnets (db s') !! id = Some m ∧ Magnet.Status m = "ready" ∧
                 Magnet.MagnetURI m = uri).
  { intros s' Hk' uri id. rewrite restoreActiveTorrents_elem. split.
    - intros (k & m & Hm & Hready & [= -> ->]). exists m.
      by rewrite <- (Hk' k m Hm) in Hm.
    - intros (m & Hm & Hready & <-). exists id, m.
      by rewrite (Hk' id m Hm). }
  split; [by apply Hiff|]. split; [|split; [by apply restoreActiveTorrents_NoDup|split]].
  - intros id H. apply restoreActiveTorrents_elem in H as (k & m & _ & _ & [=]).
  - intros uri now uri' Hnone H.
    apply Hiff in H; [|by apply (step_keyed s); [apply step_AddMagnet|]].
    destruct H as (m & Hm & Hready & _).
    unfold AddMagnet in Hm. rewrite Hnone in Hm. cbn in Hm.
    rewrite lookup_insert_eq in Hm. by injection Hm as <-.
  - intros uri id h now uri' H.
    apply Hiff in H; [|by apply (step_keyed s); [apply step_addTorrentToClient|]].
    destruct H as (m & Hm & Hready & _).
    unfold addTorrentToClient, updateMagnetStatus in Hm. cbn in Hm.
    rewrite lookup_alter_eq in Hm.
    destruct (magnets (db s) !! id); [|done]. by injection Hm as <-.
Qed.

Lemma X_restoreActiveTorrents_ready_only_witness :
  restoreActiveTorrents Fixtures.svc
  = [go_addTorrentToClient "magnet:?xt=urn:btih:ABC" "abc"] ∧
  go_addTorrentToClient "magnet:?xt=urn:btih:ABC" "abc"
  ∉ restoreActiveTorrents
      (addTorrentToClient Fixtures.svc "magnet:?xt=urn:btih:ABC" "abc"
         (AddMagnet_ok 0) TimeAfter 40).
Proof.
  destruct (X_restoreActiveTorrents_ready_only Fixtures.svc) as (_ & _ & _ & _ & H).
  - intros k m Hm. unfold Fixtures.svc in Hm. cbn in Hm.
    apply lookup_singleton_Some in Hm as [<- <-]. reflexivity.
  - split; [vm_compute; reflexivity | apply H].
Defined.

(** ** The record and the rows agree on the sizes *)

Lemma firsts_all (fs : list torrent.File) : ∀ seen i,
  NoDup (torrent.Path <$> fs) →
  (∀ f, f ∈ fs → default false (seen !! torrent.Path f) = false) →
  (firsts seen i fs).*2 = fs.
Proof.
  induction fs as [|f fs IH]; intros seen i Hnd Hseen; [done|].
  rewrite fmap_cons in Hnd. apply NoDup_cons in Hnd as [Hf Hnd].
  cbn [firsts]. rewrite (Hseen f) by apply list_elem_of_here.
  rewrite fmap_cons. cbn [snd]. f_equal. apply IH; [done|].
  intros g Hg. rewrite lookup_insert_ne.
  - apply Hseen. by apply list_elem_of_further.
  - intros Heq. apply Hf. rewrite Heq. by apply list_elem_of_fmap_2.
Qed.

Lemma sum_Permutation (l1 l2 : list Z) :
  l1 ≡ₚ l2 → foldr Z.add 0 l1 = foldr Z.add 0 l2.
Proof.
  induction 1 as [|x l1 l2 _ IH|x y l|l1 l2 l3 _ IH1 _ IH2]; cbn; lia.
Qed.

Lemma foldr_fmap_add {A} (g : A → Z) (l : list A) :
  foldr (fun x acc => g x + acc) 0 l = foldr Z.add 0 (g <$> l).
Proof. induction l as [|x l IH]; [done|]. cbn. by rewrite IH. Qed.

(** The (path, size) pairs of the identifier's rows after a pass are those
    of the first occurrences in the reported list. *)
Lemma handleTorrentReady_sizes (s : TorrentService) (torr : torrent.Torrent)
    (infoHash : string) (now : Z) :
  catalog_ok (db s) →
  (fun f => (File.FilePath f, File.FileSize f))
    <$> find_files (db (handleTorrentReady s torr infoHash now)) infoHash
  ≡ₚ (fun kf : Z * torrent.File => (torrent.Path kf.2, torrent.Length kf.2))
       <$> firsts ∅ 0 (torrent.Files torr).
Proof.
  intros Hok. apply NoDup_Permutation.
  - apply (NoDup_fmap_1 fst). rewrite <- list_fmap_compose.
    apply keys_NoDup_paths.
    by destruct (handleTorrentReady_ok s torr infoHash now Hok) as (_ & _ & ?).
  - apply (NoDup_fmap_1 fst). rewrite <- list_fmap_compose. apply firsts_unseen.
  - intros [p n]. split.
    + intros H. apply list_elem_of_fmap in H as (f & [= -> ->] & Hf).
      apply list_elem_of_filter in Hf as [Hid Hf].
      destruct (row_after s torr infoHash now Hok f Hf Hid)
        as (k & file & Hin & _ & -> & -> & _).
      apply list_elem_of_fmap. by exists (k, file).
    + intros H. apply list_elem_of_fmap in H as ([k file] & [= -> ->] & Hin).
      destruct (row_exists s torr infoHash now Hok k file Hin)
        as (f & Hf & Hid & Hp & Hs & _).
      apply list_elem_of_fmap. exists f. cbn. split; [by rewrite Hp, Hs|].
      by apply list_elem_of_filter.
Qed.

(** X29.  When the reported paths are distinct, the catalog is consistent
    after a pass on a well-formed catalog: the identifier has one row per
    reported file, the sizes of its rows add up to the total length of the
    torrent, and the record carries that total and that count. *)
Theorem X_sizes_add_up (s : TorrentService) (torr : torrent.Torrent)
    (infoHash : string) (now : Z) :
  catalog_ok (db s) →
  NoDup (torrent.Path <$> torrent.Files torr) →
  let s' := handleTorrentReady s torr infoHash now in
  length (find_files (db s') infoHash) = length (torrent.Files torr) ∧
  foldr (fun f acc => File.FileSize f + acc) 0 (find_files (db s') infoHash)
  = torrent.TotalLength torr ∧
  ∀ m, magnets (db s') !! infoHash = Some m →
       Magnet.TotalSize m
       = foldr (fun f acc => File.FileSize f + acc) 0 (find_files (db s') infoHash) ∧
       Magnet.FileCount m = Z.of_nat (length (find_files (db s') infoHash)).
Proof.
  intros Hok Hnd s'.
  pose proof (handleTorrentReady_sizes s torr infoHash now Hok) as HP. fold s' in HP.
  assert (Hall : (firsts ∅ 0 (torrent.Files torr)).*2 = torrent.Files torr).
  { apply firsts_all; [done|]. intros f _. by rewrite lookup_empty. }
  assert (Hlen : length (find_files (db s') infoHash) = length (torrent.Files torr)).
  { rewrite <- (length_fmap (fun f => (File.FilePath f, File.FileSize f))), HP.
    rewrite length_fmap, <- (length_fmap snd). by rewrite Hall. }
  assert (Hsum : foldr (fun f acc => File.FileSize f + acc) 0 (find_files (db s') infoHash)
                 = torrent.TotalLength torr).
  { rewrite (foldr_fmap_add File.FileSize). unfold torrent.TotalLength.
    rewrite (foldr_fmap_add torrent.Length).
    assert (E1 : File.FileSize <$> find_files (db s') infoHash
                 = ((fun f => (File.FilePath f, File.FileSize f))
                      <$> find_files (db s') infoHash).*2).
    { by rewrite <- list_fmap_compose. }
    assert (E2 : torrent.Length <$> torrent.Files torr
                 = ((fun kf : Z * torrent.File => (torrent.Path kf.2, torrent.Length kf.2))
                      <$> firsts ∅ 0 (torrent.Files torr)).*2).
    { rewrite <- Hall at 1. by rewrite <- !list_fmap_compose. }
    rewrite E1, E2. apply sum_Permutation. by apply fmap_Permutation. }
  split; [done|]. split; [done|].
  intros m. unfold s'. rewrite handleTorrentReady_magnets, lookup_alter_eq.
  fold s'. rewrite Hsum, Hlen.
  destruct (magnets (db s) !! infoHash); [|done]. by intros [= <-].
Qed.

Lemma X_sizes_add_up_witness :
  let torr := Example.report [("b", 25); ("c", 5)] in
  let s' := handleTorrentReady Example.prior torr "abc" 7 in
  length (find_files (db s') "abc") = 2%nat ∧
  foldr (fun f acc => File.FileSize f + acc) 0 (find_files (db s') "abc") = 30.
Proof.
  intros torr s'.
  destruct (X_sizes_add_up Example.prior torr "abc" 7 Example_prior_ok) as (H1 & H2 & _).
  - refine (bool_decide_unpack _ _). vm_compute. exact I.
  - split; [exact H1 | exact H2].
Defined.

(** ** A row that stays keeps its identity *)

(** X30.  A persisted row whose path is still reported survives the pass with
    its primary key, its owner, path and file name and its creation time;
    either it is left exactly as it was, or it was saved in this pass and
    carries the time of the pass as its update time. *)
Theorem X_kept_row_identity (s : TorrentService) (torr : torrent.Torrent)
    (infoHash : string) (now : Z) (e : File.t) :
  catalog_ok (db s) →
  e ∈ files (db s) → File.MagnetID e = infoHash →
  File.FilePath e ∈ torrent.Path <$> torrent.Files torr →
  ∃ e', e' ∈ files (db (handleTorrentReady s torr infoHash now)) ∧
        File.ID e' = File.ID e ∧
        File.MagnetID e' = infoHash ∧
        File.FilePath e' = File.FilePath e ∧
        File.FileName e' = File.FileName e ∧
        File.CreatedAt e' = File.CreatedAt e ∧
        (e' = e ∨ File.UpdatedAt e' = now).
Proof.
  intros Hok He Hid Hp.
  set (st := reconcile (db s) torr infoHash now).
  exists (apply_saves (filesToUpdate st) e).
  pose proof (apply_saves_ID (filesToUpdate st) e) as HID.
  split; [|split; [exact HID|]].
  - apply (F'_spec s torr infoHash now). exists e. split; [done|]. split; [by left|].
    fold st. rewrite HID. intros Hdel.
    apply (deleted_spec s torr infoHash now Hok) in Hdel as (e2 & He2 & _ & Hid2 & Hp2).
    rewrite (ID_inj s Hok e2 e He2 He Hid2) in Hp2. apply Hp2.
    by apply firsts_paths.
  - destruct (apply_saves_dichotomy (filesToUpdate st) e) as [Hu|[Hsame _]].
    + set (e' := apply_saves (filesToUpdate st) e) in *.
      destruct (st_spec s torr infoHash now) as (_ & _ & HU). fold st in HU.
      rewrite HU in Hu. apply updates_of_spec in Hu as (k & file & e0 & _ & HM & Hc).
      apply (M0_spec s infoHash Hok) in HM as (He0 & _ & _).
      pose proof (compare_file_spec _ _ _ _ _ _ _ Hc) as (Hid0 & _).
      rewrite HID in Hid0.
      assert (e = e0) by (by apply (ID_inj s Hok)). subst e0.
      unfold compare_file in Hc. injection Hc as Hu Hb.
      rewrite <- Hu. cbn. rewrite Hb. by repeat split; try done; right.
    + rewrite Hsame. repeat split; try done. by left.
Qed.

Lemma X_kept_row_identity_witness :
  let torr := Example.report [("b", 25); ("c", 5)] in
  ∃ e', e' ∈ files (db (handleTorrentReady Example.prior torr "abc" 7)) ∧
        File.ID e' = 2 ∧ File.FilePath e' = "b" ∧ File.CreatedAt e' = 1.
Proof.
  intros torr.
  destruct (X_kept_row_identity Example.prior torr "abc" 7 (Fixtures.row 2 "b" 20 1)
              Example_prior_ok) as (e' & H1 & H2 & _ & H3 & _ & H4 & _).
  - apply list_elem_of_further, list_elem_of_here.
  - reflexivity.
  - apply list_elem_of_here.
  - exists e'. split; [exact H1|]. split; [exact H2|]. split; [exact H3 | exact H4].
Defined.
